(** * Gaussian diffusion utilities: a shallow embedding of
      [diffusion_tf/diffusion_utils.py] and its properties.

    Numbers.  The Python code computes the coefficient tables with numpy in
    float64 and stores them as float32 constants.  This development works in
    exact real arithmetic: rounding, overflow and the storage down-cast are
    not modelled.  What IS modelled of IEEE arithmetic is the part the code can
    reach without rounding: a division by zero does not raise in numpy, it
    yields an infinity, and infinities and NaN then flow through the tensor
    operations.  Values that come out of a division, square root or logarithm
    are therefore extended reals ([xreal]).  Properties of table VALUES are
    thus properties over the reals, and say so; properties that need a
    particular stored value take it as a hypothesis on the table.  Where the
    rounded tables leave the exact ones in kind (a NaN, a tie) the module
    [Float64] recomputes the numpy locals on binary64 floats.

    Execution.  The TensorFlow graph is run as the sequential program it
    denotes: a [tf.while_loop] is a loop over explicit state, a Python
    exception or a failed kernel check ends the call with an error, and the
    random source is a function of an explicit generator state.  Loop
    counters are mathematical integers ([T] is far below the int32 range). *)

From Stdlib Require Import String.
From Stdlib Require Import Reals Lra Lia ZArith Bool Arith List Sorted.
From Stdlib Require PrimFloat.
Import ListNotations.

Open Scope R_scope.

(** ** Extended reals: the values of a float computation *)

Module XReal.

Inductive xreal : Type :=
| Fin (r : R)
| PInf
| NInf
| NaN.

Definition is_fin (x : xreal) : Prop :=
  match x with Fin _ => True | _ => False end.

(** Sign of a real, as the three-way case split the IEEE rules need. *)
Definition Rsign (r : R) : comparison :=
  if Rlt_dec 0 r then Gt else if Rlt_dec r 0 then Lt else Eq.

Definition xopp (x : xreal) : xreal :=
  match x with
  | Fin a => Fin (- a)
  | PInf => NInf
  | NInf => PInf
  | NaN => NaN
  end.

Definition xadd (x y : xreal) : xreal :=
  match x, y with
  | NaN, _ | _, NaN => NaN
  | Fin a, Fin b => Fin (a + b)
  | PInf, NInf | NInf, PInf => NaN
  | PInf, _ | _, PInf => PInf
  | NInf, _ | _, NInf => NInf
  end.

Definition xsub (x y : xreal) : xreal :=
  match x, y with
  | NaN, _ | _, NaN => NaN
  | Fin a, Fin b => Fin (a - b)
  | PInf, PInf | NInf, NInf => NaN
  | PInf, _ | _, NInf => PInf
  | NInf, _ | _, PInf => NInf
  end.

(** An infinity scaled by a value of the given sign. *)
Definition inf_signed (s : comparison) (positive : bool) : xreal :=
  match s with
  | Eq => NaN
  | Gt => if positive then PInf else NInf
  | Lt => if positive then NInf else PInf
  end.

Definition xmul (x y : xreal) : xreal :=
  match x, y with
  | NaN, _ | _, NaN => NaN
  | Fin a, Fin b => Fin (a * b)
  | Fin a, PInf | PInf, Fin a => inf_signed (Rsign a) true
  | Fin a, NInf | NInf, Fin a => inf_signed (Rsign a) false
  | PInf, PInf | NInf, NInf => PInf
  | PInf, NInf | NInf, PInf => NInf
  end.

(** Division.  A zero denominator is taken to be +0.0: the only zero the
    code divides by is a cumulative product of non-negative factors. *)
Definition xdiv (x y : xreal) : xreal :=
  match x, y with
  | NaN, _ | _, NaN => NaN
  | Fin a, Fin b =>
      if Req_dec_T b 0 then inf_signed (Rsign a) true else Fin (a / b)
  | Fin _, PInf | Fin _, NInf => Fin 0
  | PInf, Fin b => if Rlt_dec b 0 then NInf else PInf
  | NInf, Fin b => if Rlt_dec b 0 then PInf else NInf
  | _, _ => NaN
  end.

Definition xsqrt (x : xreal) : xreal :=
  match x with
  | Fin a => if Rlt_dec a 0 then NaN else Fin (sqrt a)
  | PInf => PInf
  | NInf | NaN => NaN
  end.

Definition xlog (x : xreal) : xreal :=
  match x with
  | Fin a =>
      match Rsign a with
      | Gt => Fin (ln a)
      | Eq => NInf
      | Lt => NaN
      end
  | PInf => PInf
  | NInf | NaN => NaN
  end.

Definition xexp (x : xreal) : xreal :=
  match x with
  | Fin a => Fin (exp a)
  | PInf => PInf
  | NInf => Fin 0
  | NaN => NaN
  end.

(** [np.maximum]: NaN propagates. *)
Definition xmax (x y : xreal) : xreal :=
  match x, y with
  | NaN, _ | _, NaN => NaN
  | Fin a, Fin b => Fin (Rmax a b)
  | PInf, _ | _, PInf => PInf
  | NInf, z | z, NInf => z
  end.

(** [tf.clip_by_value x lo hi = min (max x lo) hi] for real bounds. *)
Definition xclip (lo hi : R) (x : xreal) : xreal :=
  match x with
  | Fin a => Fin (Rmin (Rmax a lo) hi)
  | PInf => Fin hi
  | NInf => Fin (Rmin lo hi)
  | NaN => NaN
  end.

(** [tf.squared_difference]. *)
Definition squared_difference (x y : xreal) : xreal :=
  xmul (xsub x y) (xsub x y).

End XReal.
Import XReal.

(** ** [normal_kl] *)

(** The function is elementwise; this is its action on one element.
    The sum is written in Python's left-to-right order. *)
Definition normal_kl (mean1 logvar1 mean2 logvar2 : xreal) : xreal :=
  xmul (Fin (1 / 2))
    (xadd
       (xadd (xsub (xadd (Fin (- 1)) logvar2) logvar1)
             (xexp (xsub logvar1 logvar2)))
       (xmul (squared_difference mean1 mean2) (xexp (xopp logvar2)))).

(** ** numpy helpers used by the constructor *)

Fixpoint cumprod_from (acc : R) (l : list R) : list R :=
  match l with
  | [] => []
  | a :: l' => (acc * a) :: cumprod_from (acc * a) l'
  end.

(** [np.cumprod]: the running product, first entry the first element. *)
Definition cumprod (l : list R) : list R :=
  match l with
  | [] => []
  | a :: l' => a :: cumprod_from a l'
  end.

Fixpoint zip_with {A B C} (f : A -> B -> C) (l : list A) (m : list B) : list C :=
  match l, m with
  | a :: l', b :: m' => f a b :: zip_with f l' m'
  | _, _ => []
  end.

Fixpoint zip_with3 {A B C D} (f : A -> B -> C -> D)
         (l : list A) (m : list B) (n : list C) : list D :=
  match l, m, n with
  | a :: l', b :: m', c :: n' => f a b c :: zip_with3 f l' m' n'
  | _, _, _ => []
  end.

(** [np.sqrt] and [np.log] on a float64 entry. *)
Definition np_sqrt (a : R) : xreal := xsqrt (Fin a).
Definition np_log (a : R) : xreal := xlog (Fin a).

(** ** Errors *)

Inductive error : Type :=
| AssertionError
| NotImplementedError (kind : string)
| InvalidArgumentError
| IndexError
| ValueError
| TypeError
| FuelExhausted.

Inductive result (A : Type) : Type :=
| Ok (a : A)
| Err (e : error).
Arguments Ok {A} a.
Arguments Err {A} e.

(** ** Beta schedules *)

(** [np.linspace start stop num] for [num >= 0]: [num] evenly spaced
    samples, the last one set to [stop] when there is more than one. *)
Definition linspace (start stop : R) (num : nat) : list R :=
  match num with
  | O => []
  | S O => [start]
  | S (S _) =>
      let step := (stop - start) / INR (num - 1) in
      removelast (map (fun i => INR i * step + start) (seq 0 num)) ++ [stop]
  end.

(** Python's [int] on a float: truncation toward zero. *)
Definition py_int (r : R) : Z :=
  if Rle_dec 0 r then Int_part r else (- Int_part (- r))%Z.

(** [beta_end * np.ones(n)] *)
Definition scaled_ones (beta_end : R) (n : nat) : list R :=
  map (fun o => beta_end * o) (repeat 1 n).

(** [_warmup_beta].  A negative length is refused by [np.ones]; a negative
    [warmup_time] is refused by [np.linspace]; a ramp longer than the
    schedule cannot be assigned to the slice [betas[:warmup_time]].  The
    product [num_diffusion_timesteps * warmup_frac] is the real one; for the
    two fractions the code passes, 0.1 and 0.5, its integer part is that of
    the float product. *)
Definition _warmup_beta (beta_start beta_end : R) (num_diffusion_timesteps : Z)
           (warmup_frac : R) : result (list R) :=
  if (num_diffusion_timesteps <? 0)%Z then Err ValueError
  else
    let betas := scaled_ones beta_end (Z.to_nat num_diffusion_timesteps) in
    let warmup_time := py_int (IZR num_diffusion_timesteps * warmup_frac) in
    if (warmup_time <? 0)%Z then Err ValueError
    else if (warmup_time <=? num_diffusion_timesteps)%Z then
      Ok (linspace beta_start beta_end (Z.to_nat warmup_time)
          ++ skipn (Z.to_nat warmup_time) betas)
    else Err ValueError.

(** [np.linspace] and [np.ones] with the length check of numpy. *)
Definition checked_length (n : Z) : result nat :=
  if (n <? 0)%Z then Err ValueError else Ok (Z.to_nat n).

(** [get_beta_schedule].  In the branch 'quad' the Python power
    [beta ** 0.5] is the real square root (for a negative [beta] numpy keeps
    the real part of the complex root, which is 0, as is [sqrt] here); in
    the branch 'jsd' the divisors are the samples [T, ..., 1], none of them
    zero. *)
Definition get_beta_schedule (beta_schedule : string) (beta_start beta_end : R)
           (num_diffusion_timesteps : Z) : result (list R) :=
  let T := num_diffusion_timesteps in
  let computed :=
    if String.eqb beta_schedule "quad" then
      match checked_length T with
      | Ok n => Ok (map (fun x => x ^ 2) (linspace (sqrt beta_start) (sqrt beta_end) n))
      | Err e => Err e
      end
    else if String.eqb beta_schedule "linear" then
      match checked_length T with
      | Ok n => Ok (linspace beta_start beta_end n)
      | Err e => Err e
      end
    else if String.eqb beta_schedule "warmup10" then
      _warmup_beta beta_start beta_end T (1 / 10)
    else if String.eqb beta_schedule "warmup50" then
      _warmup_beta beta_start beta_end T (1 / 2)
    else if String.eqb beta_schedule "const" then
      match checked_length T with
      | Ok n => Ok (scaled_ones beta_end n)
      | Err e => Err e
      end
    else if String.eqb beta_schedule "jsd" then
      match checked_length T with
      | Ok n => Ok (map (fun x => 1 / x) (linspace (IZR T) 1 n))
      | Err e => Err e
      end
    else Err (NotImplementedError beta_schedule) in
  match computed with
  | Ok betas =>
      if (Z.of_nat (length betas) =? T)%Z then Ok betas else Err AssertionError
  | Err e => Err e
  end.

(** ** The coefficient table *)

Record GaussianDiffusion : Type := mkGaussianDiffusion {
  loss_type : string;
  np_betas : list R;
  num_timesteps : nat;
  betas : list xreal;
  alphas_cumprod : list xreal;
  alphas_cumprod_prev : list xreal;
  sqrt_alphas_cumprod : list xreal;
  sqrt_one_minus_alphas_cumprod : list xreal;
  log_one_minus_alphas_cumprod : list xreal;
  sqrt_recip_alphas_cumprod : list xreal;
  sqrt_recipm1_alphas_cumprod : list xreal;
  posterior_variance : list xreal;
  posterior_log_variance_clipped : list xreal;
  posterior_mean_coef1 : list xreal;
  posterior_mean_coef2 : list xreal
}.

(** The numpy locals of [__init__], as functions of [betas]. *)
Definition np_alphas (bs : list R) : list R := map (fun b => 1 - b) bs.
Definition np_alphas_cumprod (bs : list R) : list R := cumprod (np_alphas bs).
Definition np_alphas_cumprod_prev (bs : list R) : list R :=
  1 :: removelast (np_alphas_cumprod bs).
Definition np_posterior_variance (bs : list R) : list xreal :=
  zip_with3 (fun b p a => xdiv (Fin (b * (1 - p))) (Fin (1 - a)))
            bs (np_alphas_cumprod_prev bs) (np_alphas_cumprod bs).

(** [(betas > 0).all() and (betas <= 1).all()] *)
Definition betas_in_range_dec (bs : list R) :
  {Forall (fun b => 0 < b) bs /\ Forall (fun b => b <= 1) bs} +
  {~ (Forall (fun b => 0 < b) bs /\ Forall (fun b => b <= 1) bs)}.
Proof.
  destruct (Forall_dec (fun b => 0 < b) (Rlt_dec 0) bs) as [Hp | Hp].
  - destruct (Forall_dec (fun b => b <= 1) (fun b => Rle_dec b 1) bs) as [Hq | Hq].
    + left; split; assumption.
    + right; intros [_ H]; exact (Hq H).
  - right; intros [H _]; exact (Hp H).
Defined.

(** The attributes [__init__] assigns.  [loss_type] is stored and not
    inspected. *)
Definition init_attributes (bs : list R) (lt : string) : GaussianDiffusion :=
  let timesteps := length bs in
  let alphas := np_alphas bs in
  let ac := np_alphas_cumprod bs in
  let acp := np_alphas_cumprod_prev bs in
  let pv := np_posterior_variance bs in
  {| loss_type := lt;
     np_betas := bs;
     num_timesteps := timesteps;
     betas := map Fin bs;
     alphas_cumprod := map Fin ac;
     alphas_cumprod_prev := map Fin acp;
     sqrt_alphas_cumprod := map np_sqrt ac;
     sqrt_one_minus_alphas_cumprod := map (fun a => np_sqrt (1 - a)) ac;
     log_one_minus_alphas_cumprod := map (fun a => np_log (1 - a)) ac;
     sqrt_recip_alphas_cumprod :=
       map (fun a => xsqrt (xdiv (Fin 1) (Fin a))) ac;
     sqrt_recipm1_alphas_cumprod :=
       map (fun a => xsqrt (xsub (xdiv (Fin 1) (Fin a)) (Fin 1))) ac;
     posterior_variance := pv;
     posterior_log_variance_clipped :=
       map (fun v => xlog (xmax v (Fin 1e-20))) pv;
     posterior_mean_coef1 :=
       zip_with3 (fun b p a => xdiv (xmul (Fin b) (np_sqrt p)) (Fin (1 - a)))
                 bs acp ac;
     posterior_mean_coef2 :=
       zip_with3 (fun al p a => xdiv (xmul (Fin (1 - p)) (np_sqrt al)) (Fin (1 - a)))
                 alphas acp ac |}.

(** [GaussianDiffusion.__init__].  Its two assertions that can fail are the
    range check on [betas] and the shape check on [alphas_cumprod_prev],
    which has one entry when [betas] has none. *)
Definition GaussianDiffusion_init (bs : list R) (lt : string)
  : result GaussianDiffusion :=
  if betas_in_range_dec bs then
    if Nat.eqb (length (np_alphas_cumprod_prev bs)) (length bs)
    then Ok (init_attributes bs lt)
    else Err AssertionError
  else Err AssertionError.

(** ** The same numpy locals in float64

    The range assertion and the locals [alphas], [alphas_cumprod],
    [alphas_cumprod_prev] and [posterior_variance] of [__init__] use only
    comparison, subtraction, multiplication and division, which IEEE binary64
    fixes bit for bit.  Here they are on primitive floats, as numpy computes
    them after [betas.astype(np.float64)]; they mark where the tables of the
    code leave the exact ones above. *)
Module Float64.

Import PrimFloat.
#[local] Open Scope float_scope.

Fixpoint cumprod_from (acc : float) (l : list float) : list float :=
  match l with
  | [] => []
  | a :: l' => (acc * a) :: cumprod_from (acc * a) l'
  end.

(** [np.cumprod], accumulated from the left. *)
Definition cumprod (l : list float) : list float :=
  match l with
  | [] => []
  | a :: l' => a :: cumprod_from a l'
  end.

(** [(betas > 0).all() and (betas <= 1).all()] *)
Definition betas_in_range (bs : list float) : bool :=
  forallb (fun b => 0 <? b) bs && forallb (fun b => b <=? 1) bs.

Definition np_alphas (bs : list float) : list float := map (fun b => 1 - b) bs.
Definition np_alphas_cumprod (bs : list float) : list float :=
  cumprod (np_alphas bs).
Definition np_alphas_cumprod_prev (bs : list float) : list float :=
  1 :: removelast (np_alphas_cumprod bs).
Definition np_posterior_variance (bs : list float) : list float :=
  zip_with3 (fun b p a => b * (1 - p) / (1 - a))
            bs (np_alphas_cumprod_prev bs) (np_alphas_cumprod bs).

End Float64.

(** ** Tensors *)

(** A tensor of rank at least one is kept as its static shape and its batch
    entries, each flattened ([rows]).  A [t] batch (int32 vector) is a
    [list Z]; a float vector of shape [B] is a [list xreal].  There is one
    element type, so the dtype assertions of the source have no counterpart. *)
Record Tensor : Type := mkTensor {
  shape : list nat;
  rows : list (list xreal)
}.

Definition numel (s : list nat) : nat := fold_right Nat.mul 1%nat s.

Definition has_shape (x : Tensor) (s : list nat) : Prop :=
  shape x = s /\
  length (rows x) = hd 0%nat s /\
  Forall (fun r => length r = numel (tl s)) (rows x).

Definition finite_tensor (x : Tensor) : Prop :=
  Forall (Forall is_fin) (rows x).

Definition shape_eq_dec : forall s1 s2 : list nat, {s1 = s2} + {s1 <> s2} :=
  list_eq_dec Nat.eq_dec.

Definition tmap (f : xreal -> xreal) (x : Tensor) : Tensor :=
  {| shape := shape x; rows := map (map f) (rows x) |}.

(** Broadcasting of a binary operation.  Every call site has established by
    assertion that the two operands have the same rank and batch size and
    that one of them has either the other's shape or shape [B,1,...,1]. *)
Definition brow (f : xreal -> xreal -> xreal) (ra rb : list xreal) : list xreal :=
  match ra, rb with
  | [a], _ => map (f a) rb
  | _, [b] => map (fun a => f a b) ra
  | _, _ => zip_with f ra rb
  end.

Definition bshape (sa sb : list nat) : list nat :=
  zip_with (fun a b => if Nat.eqb a 1 then b else a) sa sb.

Definition bcast2 (f : xreal -> xreal -> xreal) (x y : Tensor) : Tensor :=
  {| shape := bshape (shape x) (shape y);
     rows := zip_with (brow f) (rows x) (rows y) |}.

Definition tadd : Tensor -> Tensor -> Tensor := bcast2 xadd.
Definition tsub : Tensor -> Tensor -> Tensor := bcast2 xsub.
Definition tmul : Tensor -> Tensor -> Tensor := bcast2 xmul.

(** The default of [last] (Python's [l[-1]]) on a list of tensors. *)
Definition empty_tensor : Tensor := {| shape := []; rows := [] |}.

(** [tf.repeat x repeats axis=0] *)
Definition tf_repeat (x : Tensor) (repeats : nat) : Tensor :=
  {| shape := (hd 0%nat (shape x) * repeats)%nat :: tl (shape x);
     rows := flat_map (fun r => repeat r repeats) (rows x) |}.

(** [tf.gather] of a vector, with the bounds check of the CPU kernel. *)
Fixpoint gather (a : list xreal) (t : list Z) : result (list xreal) :=
  match t with
  | [] => Ok []
  | i :: t' =>
      if ((0 <=? i)%Z && (i <? Z.of_nat (length a))%Z)%bool then
        match gather a t' with
        | Ok out => Ok (nth (Z.to_nat i) a NaN :: out)
        | Err e => Err e
        end
      else Err InvalidArgumentError
  end.

(** Modelled from the spec: [nn.meanflat] lives in the module [nn], which is
    imported by the source and not part of it.  The spec says the loss is
    "reduced over all non-batch dimensions (shape [B] result)": the mean of
    each batch entry. *)
Definition meanflat (x : Tensor) : list xreal :=
  map (fun r => xdiv (fold_left xadd r (Fin 0)) (Fin (INR (length r)))) (rows x).

(** ** Effects: errors, the random source, and the record of sampler calls *)

(** [calls] is ghost state: one entry per invocation of [p_sample], holding
    its timestep batch and its [repeat_noise] flag, most recent last. *)
Record world (rng : Type) : Type := mkWorld {
  rng_state : rng;
  calls : list (list Z * bool)
}.
Arguments mkWorld {rng} _ _.
Arguments rng_state {rng} _.
Arguments calls {rng} _.

Class Monad (m : Type -> Type) : Type := {
  ret : forall {A}, A -> m A;
  bind : forall {A B}, m A -> (A -> m B) -> m B;
  raise : forall {A}, error -> m A
}.

Notation "x <- c ;; k" := (bind c (fun x => k))
  (at level 61, c at next level, right associativity).
Notation "' pat <- c ;; k" := (bind c (fun x => match x with pat => k end))
  (at level 61, pat pattern, c at next level, right associativity).
Notation "c ;; k" := (bind c (fun _ => k))
  (at level 61, right associativity).

#[export] Instance result_monad : Monad result := {
  ret := fun A a => Ok a;
  bind := fun A B c k => match c with Ok a => k a | Err e => Err e end;
  raise := fun A e => Err e
}.

(** A Python exception leaves the state as it was when it was raised. *)
Definition M (rng : Type) (A : Type) : Type := world rng -> result A * world rng.

#[export] Instance M_monad (rng : Type) : Monad (M rng) := {
  ret := fun A a w => (Ok a, w);
  bind := fun A B c k w =>
            match c w with
            | (Ok a, w') => k a w'
            | (Err e, w') => (Err e, w')
            end;
  raise := fun A e w => (Err e, w)
}.

Definition assert {m} `{Monad m} (b : bool) : m unit :=
  if b then ret tt else raise AssertionError.

Definition lift {rng A} (c : result A) : M rng A :=
  fun w => (c, w).

Definition same_shape (s1 s2 : list nat) : bool :=
  if shape_eq_dec s1 s2 then true else false.

(** ** The methods of [GaussianDiffusion] *)

Definition noise_source (rng : Type) : Type := list nat -> rng -> Tensor * rng.
Definition denoiser : Type := Tensor -> list Z -> Tensor.

(** One call of a random source. *)
Definition draw {rng} (noise_fn : noise_source rng) (s : list nat) : M rng Tensor :=
  fun w =>
    let (x, st) := noise_fn s (rng_state w) in
    (Ok x, mkWorld st (calls w)).

Definition record_call {rng} (t : list Z) (repeat_noise : bool) : M rng unit :=
  fun w => (Ok tt, mkWorld (rng_state w) (calls w ++ [(t, repeat_noise)])).

(** [noise_like shape noise_fn repeat] *)
Definition noise_like {rng} (s : list nat) (noise_fn : noise_source rng)
           (repeat_noise : bool) : M rng Tensor :=
  if repeat_noise then
    n <- draw noise_fn (1%nat :: tl s) ;;
    match s with
    | [] => raise IndexError
    | b :: _ => ret (tf_repeat n b)
    end
  else draw noise_fn s.

(** [GaussianDiffusion._extract] *)
Definition _extract (a : list xreal) (t : list Z) (x_shape : list nat)
  : result Tensor :=
  let bs := length t in
  match x_shape with
  | [] => Err IndexError
  | b0 :: _ =>
      assert (Nat.eqb b0 bs) ;;
      out <- gather a t ;;
      ret {| shape := bs :: repeat 1%nat (length x_shape - 1);
             rows := map (fun c => [c]) out |}
  end.

Section Methods.

Context {rng : Type}.
(** [tf.random_normal], the global random source. *)
Variable random_normal : noise_source rng.
Variable self : GaussianDiffusion.

Definition q_mean_variance (x_start : Tensor) (t : list Z)
  : result (Tensor * Tensor * Tensor) :=
  c <- _extract (sqrt_alphas_cumprod self) t (shape x_start) ;;
  let mean := tmul c x_start in
  variance <- _extract (map (xsub (Fin 1)) (alphas_cumprod self)) t (shape x_start) ;;
  log_variance <- _extract (log_one_minus_alphas_cumprod self) t (shape x_start) ;;
  ret (mean, variance, log_variance).

Definition q_sample (x_start : Tensor) (t : list Z) (noise : option Tensor)
  : M rng Tensor :=
  noise <- match noise with
           | None => draw random_normal (shape x_start)
           | Some n => ret n
           end ;;
  assert (same_shape (shape noise) (shape x_start)) ;;
  c1 <- lift (_extract (sqrt_alphas_cumprod self) t (shape x_start)) ;;
  c2 <- lift (_extract (sqrt_one_minus_alphas_cumprod self) t (shape x_start)) ;;
  ret (tadd (tmul c1 x_start) (tmul c2 noise)).

Definition predict_start_from_noise (x_t : Tensor) (t : list Z) (noise : Tensor)
  : result Tensor :=
  assert (same_shape (shape x_t) (shape noise)) ;;
  c1 <- _extract (sqrt_recip_alphas_cumprod self) t (shape x_t) ;;
  c2 <- _extract (sqrt_recipm1_alphas_cumprod self) t (shape x_t) ;;
  ret (tsub (tmul c1 x_t) (tmul c2 noise)).

Definition hd_eqb (s1 s2 : list nat) : bool :=
  match s1, s2 with
  | a :: _, b :: _ => Nat.eqb a b
  | _, _ => false
  end.

Definition q_posterior (x_start x_t : Tensor) (t : list Z)
  : result (Tensor * Tensor * Tensor) :=
  assert (same_shape (shape x_start) (shape x_t)) ;;
  c1 <- _extract (posterior_mean_coef1 self) t (shape x_t) ;;
  c2 <- _extract (posterior_mean_coef2 self) t (shape x_t) ;;
  let posterior_mean := tadd (tmul c1 x_start) (tmul c2 x_t) in
  pv <- _extract (posterior_variance self) t (shape x_t) ;;
  plv <- _extract (posterior_log_variance_clipped self) t (shape x_t) ;;
  assert (hd_eqb (shape posterior_mean) (shape pv)
          && hd_eqb (shape pv) (shape plv)
          && hd_eqb (shape plv) (shape x_start)) ;;
  ret (posterior_mean, pv, plv).

Definition p_mean_variance (denoise_fn : denoiser) (x : Tensor) (t : list Z)
           (clip_denoised : bool) : result (Tensor * Tensor * Tensor) :=
  x_recon <- (if String.eqb (loss_type self) "noisepred"
              then predict_start_from_noise x t (denoise_fn x t)
              else raise (NotImplementedError (loss_type self))) ;;
  let x_recon := if clip_denoised then tmap (xclip (-1) 1) x_recon else x_recon in
  '(model_mean, pv, plv) <- q_posterior x_recon x t ;;
  assert (same_shape (shape model_mean) (shape x_recon)
          && same_shape (shape x_recon) (shape x)) ;;
  assert (same_shape (shape pv) (shape plv)
          && same_shape (shape plv) [hd 0%nat (shape x); 1; 1; 1]%nat) ;;
  ret (model_mean, pv, plv).

(** [1 - tf.cast(tf.equal(t, 0), tf.float32)], reshaped to [B,1,...,1]. *)
Definition nonzero_mask (t : list Z) (x_shape : list nat) : result Tensor :=
  if Nat.eqb (length t) (hd 0%nat x_shape) then
    ret {| shape := hd 0%nat x_shape :: repeat 1%nat (length x_shape - 1);
           rows := map (fun i => [Fin (1 - (if Z.eqb i 0 then 1 else 0))]) t |}
  else raise InvalidArgumentError.

Definition p_sample (denoise_fn : denoiser) (x : Tensor) (t : list Z)
           (noise_fn : noise_source rng) (clip_denoised repeat_noise : bool)
  : M rng Tensor :=
  record_call t repeat_noise ;;
  '(model_mean, _, model_log_variance) <-
     lift (p_mean_variance denoise_fn x t clip_denoised) ;;
  noise <- noise_like (shape x) noise_fn repeat_noise ;;
  assert (same_shape (shape noise) (shape x)) ;;
  mask <- lift (nonzero_mask t (shape x)) ;;
  ret (tadd model_mean
            (tmul (tmul mask (tmap xexp (tmap (xmul (Fin (1 / 2))) model_log_variance)))
                  noise)).

(** [tf.while_loop cond body loop_vars], run sequentially.  [fuel] bounds the
    number of evaluations of [cond]. *)
Fixpoint while_loop {S : Type} (fuel : nat) (cond : S -> bool)
         (body : S -> M rng S) (s : S) : M rng S :=
  match fuel with
  | O => raise FuelExhausted
  | Datatypes.S fuel' =>
      if cond s then s' <- body s ;; while_loop fuel' cond body s'
      else ret s
  end.

(** [tf.fill([shape[0]], i)] *)
Definition fill_t (s : list nat) (i : Z) : list Z := repeat i (hd 0%nat s).

Definition p_sample_loop (fuel : nat) (denoise_fn : denoiser) (s : list nat)
           (noise_fn : noise_source rng) : M rng Tensor :=
  let i_0 := (Z.of_nat (num_timesteps self) - 1)%Z in
  img_0 <- draw noise_fn s ;;
  '(_, img_final) <-
     while_loop fuel
       (fun '(i_, _) => (0 <=? i_)%Z)
       (fun '(i_, img_) =>
          img' <- p_sample denoise_fn img_ (fill_t s i_) noise_fn true false ;;
          ret ((i_ - 1)%Z, img'))
       (i_0, img_0) ;;
  assert (same_shape (shape img_final) s) ;;
  ret img_final.

(** The body of the two loops of [p_sample_loop_trajectory], which differ in
    the [repeat_noise] flag only. *)
Definition trajectory_body (denoise_fn : denoiser) (s : list nat)
           (noise_fn : noise_source rng) (repeat_noise : bool)
  : list Z * list Tensor -> M rng (list Z * list Tensor) :=
  fun '(times_, imgs_) =>
    img' <- p_sample denoise_fn (last imgs_ empty_tensor)
                     (fill_t s (last times_ 0%Z)) noise_fn true repeat_noise ;;
    ret (times_ ++ [(last times_ 0 - 1)%Z], imgs_ ++ [img']).

Definition p_sample_loop_trajectory (fuel : nat) (denoise_fn : denoiser)
           (s : list nat) (noise_fn : noise_source rng) (repeat_noise_steps : Z)
  : M rng (list Z * list Tensor) :=
  let i_0 := (Z.of_nat (num_timesteps self) - 1)%Z in
  img_0 <- noise_like s noise_fn (0 <=? repeat_noise_steps)%Z ;;
  (* Steps with repeated noise *)
  st <- while_loop fuel
          (fun '(times_, _) =>
             (Z.of_nat (num_timesteps self) - last times_ 0 <=? repeat_noise_steps)%Z)
          (trajectory_body denoise_fn s noise_fn true) ([i_0], [img_0]) ;;
  (* Steps with different noise for each batch element *)
  '(times, imgs) <- while_loop fuel
          (fun '(times_, _) => (0 <=? last times_ 0)%Z)
          (trajectory_body denoise_fn s noise_fn false) st ;;
  assert (same_shape (shape (last imgs empty_tensor)) s) ;;
  ret (times, imgs).

(** [interpolate]: the graph is built first and then run with the
    placeholders [x1], [x2], [lam] and [t] fed.

    Building the graph executes the Python code of the body once, on
    symbolic tensors, so the checks written in Python fire then, before
    anything is fed and before any noise is drawn: [x1.shape[0]] on a shape
    of rank 0 is an index error; for an empty batch [tf.stack] of the empty
    list is a float tensor, which [tf.gather] refuses as indices (a type
    error, in the first [q_sample]); and tracing the loop body enters
    [p_sample], which raises on an unsupported [loss_type].  The shape
    assertions, which the source also checks while building, are checked
    during the run here.

    In the run, feeding a placeholder of static shape [s] a value of another
    shape is refused.  The result is the tensor [x_interp] of the returned
    tuple; its other components are the placeholders themselves. *)
Definition interpolate (fuel : nat) (denoise_fn : denoiser) (s : list nat)
           (noise_fn : noise_source rng) (x1 x2 : Tensor) (lam : R) (t : Z)
  : M rng Tensor :=
  match s with
  | [] => raise IndexError
  | b :: _ =>
      (if Nat.eqb b 0 then raise TypeError else ret tt) ;;
      (if String.eqb (loss_type self) "noisepred" then ret tt
       else raise (NotImplementedError (loss_type self))) ;;
      (if same_shape (shape x1) s && same_shape (shape x2) s
       then ret tt else raise ValueError) ;;
      let t_batched := repeat t b in
      xt1 <- q_sample x1 t_batched None ;;
      xt2 <- q_sample x2 t_batched None ;;
      let xt_interp := tadd (tmap (xmul (Fin (1 - lam))) xt1)
                            (tmap (xmul (Fin lam)) xt2) in
      '(_, x_interp) <-
         while_loop fuel
           (fun '(i_, _) => (0 <=? i_)%Z)
           (fun '(i_, img_) =>
              img' <- p_sample denoise_fn img_ (fill_t s i_) noise_fn true false ;;
              ret ((i_ - 1)%Z, img'))
           (t, xt_interp) ;;
      assert (same_shape (shape x_interp) s) ;;
      ret x_interp
  end.

Definition p_losses (denoise_fn : denoiser) (x_start : Tensor) (t : list Z)
           (noise : option Tensor) : M rng (list xreal) :=
  match shape x_start with
  | [B; H; W; C] =>
      assert (Nat.eqb (length t) B) ;;
      noise <- match noise with
               | None => draw random_normal (shape x_start)
               | Some n => ret n
               end ;;
      assert (same_shape (shape noise) (shape x_start)) ;;
      x_noisy <- q_sample x_start t (Some noise) ;;
      let x_recon := denoise_fn x_noisy t in
      assert (same_shape (shape x_noisy) (shape x_start)) ;;
      assert (same_shape (firstn 3 (shape x_recon)) [B; H; W]
              && Nat.eqb (length (shape x_recon)) 4) ;;
      losses <- (if String.eqb (loss_type self) "noisepred" then
                   assert (same_shape (shape x_recon) (shape x_start)) ;;
                   ret (meanflat (bcast2 squared_difference noise x_recon))
                 else raise (NotImplementedError (loss_type self))) ;;
      assert (Nat.eqb (length losses) B) ;;
      ret losses
  | _ => raise ValueError
  end.

End Methods.

(** * The vocabulary of the properties *)

Definition in_range (b : R) : Prop := 0 < b <= 1.

Definition in_unit (a : R) : Prop := 0 < a <= 1.

Definition valid_index (n : nat) (i : Z) : Prop := (0 <= i < Z.of_nat n)%Z.

(** The tensor [_extract] returns: shape [B,1,...,1], one coefficient per
    batch entry. *)
Definition coef_tensor (a : list xreal) (t : list Z) (rank : nat) : Tensor :=
  {| shape := length t :: repeat 1%nat (rank - 1);
     rows := map (fun i => [nth (Z.to_nat i) a NaN]) t |}.

(** Every table has one entry per timestep. *)
Definition tables_complete (gd : GaussianDiffusion) : Prop :=
  let T := num_timesteps gd in
  (0 < T)%nat /\
  length (sqrt_alphas_cumprod gd) = T /\
  length (sqrt_one_minus_alphas_cumprod gd) = T /\
  length (sqrt_recip_alphas_cumprod gd) = T /\
  length (sqrt_recipm1_alphas_cumprod gd) = T /\
  length (posterior_variance gd) = T /\
  length (posterior_log_variance_clipped gd) = T /\
  length (posterior_mean_coef1 gd) = T /\
  length (posterior_mean_coef2 gd) = T.

(** ** Collaborator contracts *)

(** The random source returns a tensor of the shape it is asked for and
    draws finite values. *)
Definition noise_shaped {rng} (noise_fn : noise_source rng) : Prop :=
  forall s st, has_shape (fst (noise_fn s st)) s.

Definition noise_finite {rng} (noise_fn : noise_source rng) : Prop :=
  forall s st, finite_tensor (fst (noise_fn s st)).

(** The denoising function preserves the shape of its input. *)
Definition shape_preserving (denoise_fn : denoiser) (s : list nat) : Prop :=
  forall x t, has_shape x s -> has_shape (denoise_fn x t) s.

(** The mask of [p_sample]: 0 where [t] is 0 and 1 elsewhere. *)
Definition mask_tensor (t : list Z) : Tensor :=
  {| shape := [length t; 1; 1; 1]%nat;
     rows := map (fun i => [Fin (1 - (if Z.eqb i 0 then 1 else 0))]) t |}.

(** The standard deviation [exp(0.5 * log_variance)] of one step. *)
Definition sigma_tensor (gd : GaussianDiffusion) (t : list Z) : Tensor :=
  tmap xexp (tmap (xmul (Fin (1 / 2)))
                  (coef_tensor (posterior_log_variance_clipped gd) t 4)).

(** The per-example loss in the spec's words: the mean over the [n] non-batch
    positions of the squared difference of two batch entries. *)
Definition mean_squared_error (n : nat) (a b : list xreal) : xreal :=
  xdiv (fold_left xadd (zip_with squared_difference a b) (Fin 0)) (Fin (INR n)).

(** [k] timesteps counting down from [i]. *)
Fixpoint down_from (i : Z) (k : nat) : list Z :=
  match k with
  | O => []
  | S k' => i :: down_from (i - 1) k'
  end.

(** [T-1, T-2, ..., 0] *)
Definition countdown (T : nat) : list Z := down_from (Z.of_nat T - 1) T.

(** The chain of reverse steps in the spec's words: one [p_sample] per
    timestep of [ts], each on the output of the one before. *)
Fixpoint reverse_steps {rng : Type} (gd : GaussianDiffusion) (denoise_fn : denoiser)
         (noise_fn : noise_source rng) (B H W C : nat)
         (ts : list Z) (img : Tensor) : M rng Tensor :=
  match ts with
  | [] => ret img
  | i :: ts' =>
      img' <- p_sample gd denoise_fn img (fill_t [B; H; W; C] i) noise_fn true false ;;
      reverse_steps gd denoise_fn noise_fn B H W C ts' img'
  end.


(** A computation that leaves the record of calls as it is. *)
Definition keeps_calls {rng A} (c : M rng A) : Prop :=
  forall w, calls (snd (c w)) = calls w.

(** What the code does at one recorded call at timestep [j] of a table with
    [T] timesteps: repeated noise exactly in the first [repeat_noise_steps]
    steps. *)
Definition noise_rule (T : nat) (B : nat) (repeat_noise_steps : Z)
           (call : list Z * bool) : Prop :=
  exists j, fst call = repeat j B /\
            snd call = (Z.of_nat T - j <=? repeat_noise_steps)%Z.

(** The rule C3 states for one recorded call at timestep [j], read with
    either count of the steps remaining ([j] or [j + 1]): more than
    [repeat_noise_steps] remaining asks for repeated noise, fewer for
    independent noise. *)
Definition claimed_noise_rule (repeat_noise_steps : Z) (call : list Z * bool) : Prop :=
  forall j, In j (fst call) ->
    ((repeat_noise_steps < j)%Z -> snd call = true) /\
    ((j + 1 < repeat_noise_steps)%Z -> snd call = false).

(** The schedule kinds [get_beta_schedule] knows. *)
Definition supported_schedule (kind : string) : Prop :=
  In kind ["quad"; "linear"; "warmup10"; "warmup50"; "const"; "jsd"]%string.

Definition between (a b x : R) : Prop := Rmin a b <= x <= Rmax a b.

(** A value as [tf.clip_by_value x (-1) 1] leaves it: within [-1, 1], or NaN. *)
Definition clipped_value (x : xreal) : Prop :=
  match x with
  | Fin v => -1 <= v <= 1
  | NaN => True
  | PInf | NInf => False
  end.

(** Zero, or NaN: what a zero weight leaves of any value. *)
Definition zero_or_nan (x : xreal) : Prop :=
  match x with
  | Fin v => v = 0
  | NaN => True
  | PInf | NInf => False
  end.

Definition clipped_tensor (x : Tensor) : Prop :=
  Forall (Forall clipped_value) (rows x).

(** The mix of two latents in [interpolate], with weight [lam] on the
    second. *)
Definition mix (lam : R) (xt1 xt2 : Tensor) : Tensor :=
  tadd (tmap (xmul (Fin (1 - lam))) xt1) (tmap (xmul (Fin lam)) xt2).

(** ** Concrete collaborators *)

(** [tf.zeros] *)
Definition zeros (s : list nat) : Tensor :=
  {| shape := s;
     rows := repeat (repeat (Fin 0) (numel (tl s))) (hd 0%nat s) |}.

(** A random source that draws zeros, and the identity as denoiser. *)
Definition zero_noise : noise_source unit := fun s st => (zeros s, st).
Definition identity_denoiser : denoiser := fun x _ => x.

(** * Properties *)

(** ** Extended-real arithmetic on finite values *)

Lemma Rsign_pos (r : R) : 0 < r -> Rsign r = Gt.
Proof. intros H; unfold Rsign; destruct (Rlt_dec 0 r); [reflexivity | contradiction]. Qed.

Lemma Rsign_zero : Rsign 0 = Eq.
Proof.
  unfold Rsign; destruct (Rlt_dec 0 0) as [H | _]; [lra |].
  destruct (Rlt_dec 0 0) as [H | _]; [lra | reflexivity].
Qed.

Lemma xdiv_fin (a b : R) : b <> 0 -> xdiv (Fin a) (Fin b) = Fin (a / b).
Proof. intros H; simpl; destruct (Req_dec_T b 0); [contradiction | reflexivity]. Qed.

Lemma xdiv_pos_zero (a : R) : 0 < a -> xdiv (Fin a) (Fin 0) = PInf.
Proof.
  intros H; simpl; destruct (Req_dec_T 0 0) as [_ | N]; [| contradiction N; reflexivity].
  rewrite Rsign_pos by assumption; reflexivity.
Qed.

Lemma xsqrt_fin (a : R) : 0 <= a -> xsqrt (Fin a) = Fin (sqrt a).
Proof. intros H; simpl; destruct (Rlt_dec a 0); [lra | reflexivity]. Qed.

#[local] Arguments xdiv : simpl never.
#[local] Arguments xsqrt : simpl never.
#[local] Arguments xlog : simpl never.
#[local] Arguments np_sqrt : simpl never.
#[local] Arguments np_log : simpl never.

(** ** The cumulative product *)

Lemma cumprod_cumprod_from (l : list R) : cumprod l = cumprod_from 1 l.
Proof. destruct l as [| a l]; simpl; [reflexivity | now rewrite Rmult_1_l]. Qed.

Lemma cumprod_from_length (l : list R) : forall acc, length (cumprod_from acc l) = length l.
Proof. induction l as [| a l IH]; intros acc; simpl; [reflexivity | now rewrite IH]. Qed.

Lemma removelast_cons_length {A} (l : list A) (a : A) :
  length (a :: removelast l) = Nat.max 1 (length l).
Proof.
  induction l as [| b l IH] in a |- *; [reflexivity |].
  change (removelast (b :: l)) with (match l with [] => [] | _ => b :: removelast l end).
  destruct l as [| c l]; [reflexivity |].
  specialize (IH b). simpl in *. lia.
Qed.

(** Entry [t] of the running product is the previous entry times factor [t]. *)
Lemma cumprod_from_nth (l : list R) : forall acc t, (t < length l)%nat ->
  nth t (cumprod_from acc l) 0 =
  nth t (acc :: removelast (cumprod_from acc l)) 0 * nth t l 0.
Proof.
  induction l as [| a l IH]; intros acc t Ht; simpl in Ht; [lia |].
  destruct t as [| t]; [reflexivity |].
  assert (Hl : (t < length l)%nat) by lia.
  specialize (IH (acc * a) t Hl).
  destruct l as [| b l]; [simpl in Hl; lia |].
  exact IH.
Qed.

Lemma cumprod_from_prev_range (l : list R) : forall acc t,
  0 <= acc <= 1 -> Forall (fun a => 0 <= a <= 1) l -> (t < length l)%nat ->
  0 <= nth t (acc :: removelast (cumprod_from acc l)) 0 <= 1.
Proof.
  induction l as [| a l IH]; intros acc t Hacc Hl Ht; simpl in Ht; [lia |].
  destruct t as [| t]; [exact Hacc |].
  inversion Hl as [| ? ? Ha Hl']; subst.
  assert (Hlt : (t < length l)%nat) by lia.
  assert (Hacc' : 0 <= acc * a <= 1) by nra.
  specialize (IH (acc * a) t Hacc' Hl' Hlt).
  destruct l as [| b l]; [simpl in Hlt; lia |].
  exact IH.
Qed.

Lemma cumprod_from_decreasing (l : list R) : forall acc,
  0 < acc -> Forall (fun a => 0 < a < 1) l ->
  Forall (fun x => 0 < x < acc) (cumprod_from acc l) /\
  StronglySorted Rgt (cumprod_from acc l).
Proof.
  induction l as [| a l IH]; intros acc Hacc Hl; simpl.
  - split; constructor.
  - inversion Hl as [| ? ? Ha Hl']; subst.
    assert (Hacc' : 0 < acc * a) by nra.
    destruct (IH (acc * a) Hacc' Hl') as [Hb Hs].
    split.
    + constructor; [nra |].
      eapply Forall_impl; [| exact Hb]. intros x Hx; simpl in Hx; nra.
    + constructor; [exact Hs |].
      eapply Forall_impl; [| exact Hb]. intros x Hx; unfold Rgt; lra.
Qed.

Lemma np_alphas_nth (bs : list R) (t : nat) :
  (t < length bs)%nat -> nth t (np_alphas bs) 0 = 1 - nth t bs 0.
Proof.
  intros Ht. unfold np_alphas.
  rewrite (nth_indep _ 0 (1 - 0)) by (rewrite length_map; exact Ht).
  apply (map_nth (fun b => 1 - b)).
Qed.

Lemma np_alphas_cumprod_length (bs : list R) :
  length (np_alphas_cumprod bs) = length bs.
Proof.
  unfold np_alphas_cumprod. rewrite cumprod_cumprod_from, cumprod_from_length.
  unfold np_alphas. apply length_map.
Qed.

Lemma np_alphas_cumprod_prev_length (bs : list R) :
  length (np_alphas_cumprod_prev bs) = Nat.max 1 (length bs).
Proof.
  unfold np_alphas_cumprod_prev.
  rewrite removelast_cons_length, np_alphas_cumprod_length. reflexivity.
Qed.

Lemma betas_to_alphas_range (bs : list R) :
  Forall (fun b => 0 < b) bs -> Forall (fun b => b <= 1) bs ->
  Forall (fun a => 0 <= a <= 1) (np_alphas bs).
Proof.
  intros Hp Hq. unfold np_alphas. apply Forall_map.
  rewrite Forall_forall in *. intros b Hb.
  specialize (Hp b Hb); specialize (Hq b Hb); simpl in *; lra.
Qed.

(** The facts about index [t] that the posterior coefficients rest on. *)
Lemma coefficients_at (bs : list R) (t : nat) :
  Forall (fun b => 0 < b) bs -> Forall (fun b => b <= 1) bs ->
  (t < length bs)%nat ->
  let b := nth t bs 0 in
  let p := nth t (np_alphas_cumprod_prev bs) 0 in
  let a := nth t (np_alphas_cumprod bs) 0 in
  0 < b <= 1 /\ 0 <= p <= 1 /\ a = p * (1 - b).
Proof.
  intros Hp Hq Ht b p a.
  assert (Hb : 0 < b <= 1).
  { rewrite Forall_forall in Hp, Hq.
    split; [apply Hp | apply Hq]; apply nth_In; exact Ht. }
  assert (Hal : (t < length (np_alphas bs))%nat)
    by (unfold np_alphas; rewrite length_map; exact Ht).
  split; [exact Hb |]. split.
  - unfold p, np_alphas_cumprod_prev, np_alphas_cumprod.
    rewrite cumprod_cumprod_from.
    apply cumprod_from_prev_range; [lra | | exact Hal].
    apply betas_to_alphas_range; assumption.
  - unfold a, p, np_alphas_cumprod_prev, np_alphas_cumprod.
    rewrite cumprod_cumprod_from.
    rewrite cumprod_from_nth by exact Hal.
    rewrite np_alphas_nth by exact Ht. reflexivity.
Qed.

Lemma zip_with3_nth {A B C D} (f : A -> B -> C -> D) (dA : A) (dB : B) (dC : C) (dD : D) :
  forall (l : list A) (m : list B) (n : list C) (t : nat),
  (t < length l)%nat -> (t < length m)%nat -> (t < length n)%nat ->
  nth t (zip_with3 f l m n) dD = f (nth t l dA) (nth t m dB) (nth t n dC).
Proof.
  induction l as [| a l IH]; intros m n t Hl Hm Hn; simpl in Hl; [lia |].
  destruct m as [| b m]; simpl in Hm; [lia |].
  destruct n as [| c n]; simpl in Hn; [lia |].
  destruct t as [| t]; simpl; [reflexivity |].
  apply IH; lia.
Qed.

(** ** Construction *)

Lemma in_range_split (bs : list R) :
  Forall in_range bs <->
  Forall (fun b => 0 < b) bs /\ Forall (fun b => b <= 1) bs.
Proof.
  unfold in_range; rewrite !Forall_forall; split.
  - intros H; split; intros b Hb; apply (H b Hb).
  - intros [Hp Hq] b Hb; split; [apply Hp | apply Hq]; exact Hb.
Qed.

Lemma init_inversion (bs : list R) (lt : string) (gd : GaussianDiffusion) :
  GaussianDiffusion_init bs lt = Ok gd ->
  Forall in_range bs /\ bs <> [] /\ gd = init_attributes bs lt.
Proof.
  unfold GaussianDiffusion_init.
  destruct (betas_in_range_dec bs) as [Hr | Hr]; [| discriminate].
  destruct (Nat.eqb (length (np_alphas_cumprod_prev bs)) (length bs)) eqn:E;
    [| discriminate].
  intros H; injection H as <-.
  split; [apply in_range_split; exact Hr |]. split; [| reflexivity].
  intros ->. discriminate E.
Qed.

Lemma init_accepts (bs : list R) (lt : string) :
  bs <> [] -> Forall in_range bs ->
  GaussianDiffusion_init bs lt = Ok (init_attributes bs lt).
Proof.
  intros Hne Hr. unfold GaussianDiffusion_init.
  destruct (betas_in_range_dec bs) as [_ | N];
    [| contradiction N; apply in_range_split; exact Hr].
  rewrite np_alphas_cumprod_prev_length.
  destruct bs as [| b bs]; [contradiction Hne; reflexivity |].
  simpl length. rewrite Nat.max_r by lia. now rewrite Nat.eqb_refl.
Qed.

(** C8.  The constructor raises an assertion error when the beta sequence is
    empty or holds a value outside (0,1]; on every other sequence it succeeds
    and keeps the betas as they were given. *)
Theorem init_fails_or_keeps_betas (bs : list R) (lt : string) :
  (bs = [] \/ Exists (fun b => ~ in_range b) bs ->
   GaussianDiffusion_init bs lt = Err AssertionError) /\
  (bs <> [] -> Forall in_range bs ->
   exists gd, GaussianDiffusion_init bs lt = Ok gd /\
              np_betas gd = bs /\ betas gd = map Fin bs /\
              num_timesteps gd = length bs).
Proof.
  split.
  - intros H. unfold GaussianDiffusion_init.
    destruct (betas_in_range_dec bs) as [Hr | _]; [| reflexivity].
    destruct H as [-> | Hex]; [reflexivity |].
    apply in_range_split in Hr. apply Exists_exists in Hex.
    destruct Hex as [b [Hb Hn]]. rewrite Forall_forall in Hr.
    contradiction (Hn (Hr b Hb)).
  - intros Hne Hr. exists (init_attributes bs lt).
    split; [apply init_accepts; assumption |]. repeat split.
Qed.

Lemma init_fails_or_keeps_betas_witness :
  GaussianDiffusion_init [] "noisepred" = Err AssertionError /\
  GaussianDiffusion_init [1 / 2; 2] "noisepred" = Err AssertionError /\
  exists gd, GaussianDiffusion_init [1 / 2; 1] "noisepred" = Ok gd /\
             np_betas gd = [1 / 2; 1] /\ betas gd = [Fin (1 / 2); Fin 1] /\
             num_timesteps gd = 2%nat.
Proof.
  split; [| split].
  - apply (init_fails_or_keeps_betas [] "noisepred"). left; reflexivity.
  - apply (init_fails_or_keeps_betas [1 / 2; 2] "noisepred"). right.
    apply Exists_cons_tl, Exists_cons_hd. unfold in_range; lra.
  - apply (init_fails_or_keeps_betas [1 / 2; 1] "noisepred");
      [discriminate | repeat constructor; lra].
Defined.

(** ** The cumulative product of the alphas *)

(** C4 as stated fails: the schedule 1/3, 1/2, 1 (the [jsd] schedule for
    T = 3) is accepted, and the last entry of [alphas_cumprod] is 0. *)
Lemma alphas_cumprod_reaches_zero :
  (exists gd, GaussianDiffusion_init [1 / 3; 1 / 2; 1] "noisepred" = Ok gd /\
              alphas_cumprod gd = map Fin (np_alphas_cumprod [1 / 3; 1 / 2; 1])) /\
  ~ (StronglySorted Rgt (np_alphas_cumprod [1 / 3; 1 / 2; 1]) /\
     Forall in_unit (np_alphas_cumprod [1 / 3; 1 / 2; 1])).
Proof.
  split.
  - eexists; split; [apply init_accepts | reflexivity];
      [discriminate | repeat constructor; lra].
  - intros [_ H]. simpl in H.
    inversion H as [| ? ? _ H1]; subst.
    inversion H1 as [| ? ? _ H2]; subst.
    inversion H2 as [| ? ? H3 _]; subst.
    unfold in_unit in H3. lra.
Qed.

(** C4, amended.  Over the reals (exact arithmetic): when every beta lies
    in (0,1), strictly below 1, the stored [alphas_cumprod] is the
    cumulative product of [1 - betas], it is strictly decreasing, and every
    entry lies in (0,1]. *)
Theorem alphas_cumprod_strictly_decreasing (bs : list R) (lt : string)
        (gd : GaussianDiffusion) :
  GaussianDiffusion_init bs lt = Ok gd ->
  Forall (fun b => b < 1) bs ->
  alphas_cumprod gd = map Fin (np_alphas_cumprod bs) /\
  np_alphas_cumprod bs = cumprod (map (fun b => 1 - b) bs) /\
  StronglySorted Rgt (np_alphas_cumprod bs) /\
  Forall in_unit (np_alphas_cumprod bs).
Proof.
  intros Hinit Hlt.
  destruct (init_inversion _ _ _ Hinit) as [Hr [_ ->]].
  split; [reflexivity |]. split; [reflexivity |].
  assert (Hal : Forall (fun a => 0 < a < 1) (np_alphas bs)).
  { unfold np_alphas. apply Forall_map. rewrite Forall_forall in *.
    intros b Hb. specialize (Hr b Hb); specialize (Hlt b Hb).
    unfold in_range in Hr; simpl; lra. }
  unfold np_alphas_cumprod. rewrite cumprod_cumprod_from.
  destruct (cumprod_from_decreasing (np_alphas bs) 1 Rlt_0_1 Hal) as [Hb Hs].
  split; [exact Hs |].
  eapply Forall_impl; [| exact Hb]. intros a Ha; unfold in_unit; simpl in Ha; lra.
Qed.

Lemma alphas_cumprod_strictly_decreasing_witness :
  StronglySorted Rgt (np_alphas_cumprod [1 / 10; 1 / 5]) /\
  Forall in_unit (np_alphas_cumprod [1 / 10; 1 / 5]).
Proof.
  assert (Hinit : GaussianDiffusion_init [1 / 10; 1 / 5] "noisepred"
                  = Ok (init_attributes [1 / 10; 1 / 5] "noisepred")).
  { apply init_accepts; [discriminate | repeat constructor; lra]. }
  assert (Hlt : Forall (fun b => b < 1) [1 / 10; 1 / 5])
    by (repeat constructor; lra).
  exact (proj2 (proj2
    (alphas_cumprod_strictly_decreasing [1 / 10; 1 / 5] "noisepred" _ Hinit Hlt))).
Defined.

(** ** The posterior variance *)

Lemma posterior_variance_at (bs : list R) (lt : string)
        (gd : GaussianDiffusion) (t : nat) :
  GaussianDiffusion_init bs lt = Ok gd ->
  (t < num_timesteps gd)%nat ->
  exists b p a v,
    nth t (betas gd) NaN = Fin b /\
    nth t (alphas_cumprod_prev gd) NaN = Fin p /\
    nth t (alphas_cumprod gd) NaN = Fin a /\
    nth t (posterior_variance gd) NaN = Fin v /\
    v = b * (1 - p) / (1 - a) /\
    v <= b.
Proof.
  intros Hinit Ht.
  destruct (init_inversion _ _ _ Hinit) as [Hr [Hne ->]].
  cbn [init_attributes num_timesteps betas alphas_cumprod_prev alphas_cumprod
       posterior_variance] in Ht |- *.
  apply in_range_split in Hr. destruct Hr as [Hp Hq].
  destruct (coefficients_at bs t Hp Hq Ht) as [Hb [Hpr Ha]].
  set (b := nth t bs 0) in *.
  set (p := nth t (np_alphas_cumprod_prev bs) 0) in *.
  set (a := nth t (np_alphas_cumprod bs) 0) in *.
  assert (Hac : (t < length (np_alphas_cumprod bs))%nat)
    by (rewrite np_alphas_cumprod_length; exact Ht).
  assert (Hacp : (t < length (np_alphas_cumprod_prev bs))%nat)
    by (rewrite np_alphas_cumprod_prev_length; lia).
  assert (Hden : 0 < 1 - a) by (rewrite Ha; nra).
  exists b, p, a, (b * (1 - p) / (1 - a)).
  repeat split.
  - rewrite (nth_indep _ NaN (Fin 0)) by (rewrite length_map; exact Ht).
    apply (map_nth Fin).
  - rewrite (nth_indep _ NaN (Fin 0)) by (rewrite length_map; exact Hacp).
    apply (map_nth Fin).
  - rewrite (nth_indep _ NaN (Fin 0)) by (rewrite length_map; exact Hac).
    apply (map_nth Fin).
  - unfold np_posterior_variance.
    rewrite (zip_with3_nth _ 0 0 0) by assumption.
    fold b p a. apply xdiv_fin. lra.
  - apply (Rmult_le_reg_r (1 - a)); [exact Hden |].
    unfold Rdiv. rewrite Rmult_assoc, Rinv_l by lra. nra.
Qed.

(** C5, amended.  Over the reals (exact arithmetic): for every accepted
    beta sequence and every index [t] below [T], [posterior_variance[t]] is
    the finite value
    [betas[t] * (1 - alphas_cumprod_prev[t]) / (1 - alphas_cumprod[t])],
    and it is at most [betas[t]]. *)
Theorem posterior_variance_le_beta (bs : list R) (lt : string)
        (gd : GaussianDiffusion) (t : nat) :
  GaussianDiffusion_init bs lt = Ok gd ->
  (t < num_timesteps gd)%nat ->
  exists b p a v,
    nth t (betas gd) NaN = Fin b /\
    nth t (alphas_cumprod_prev gd) NaN = Fin p /\
    nth t (alphas_cumprod gd) NaN = Fin a /\
    nth t (posterior_variance gd) NaN = Fin v /\
    v = b * (1 - p) / (1 - a) /\
    v <= b.
Proof. exact (posterior_variance_at bs lt gd t). Qed.

Lemma posterior_variance_le_beta_witness :
  exists b p a v,
    nth 1 (betas (init_attributes [1 / 2; 1] "noisepred")) NaN = Fin b /\
    nth 1 (alphas_cumprod_prev (init_attributes [1 / 2; 1] "noisepred")) NaN = Fin p /\
    nth 1 (alphas_cumprod (init_attributes [1 / 2; 1] "noisepred")) NaN = Fin a /\
    nth 1 (posterior_variance (init_attributes [1 / 2; 1] "noisepred")) NaN = Fin v /\
    v = b * (1 - p) / (1 - a) /\
    v <= b.
Proof.
  apply (posterior_variance_le_beta [1 / 2; 1] "noisepred" _ 1).
  - apply init_accepts; [discriminate | repeat constructor; lra].
  - simpl. lia.
Defined.

Section Float64Tables.

Import PrimFloat.
#[local] Open Scope float_scope.
#[local] Set Warnings "-inexact-float".

(** C5 as stated fails in the float64 arithmetic of the code: the one-step
    schedule [1e-20] passes the range assertion, [1 - 1e-20] rounds to 1, so
    [alphas_cumprod[0]] is 1 and [posterior_variance[0]] is [0 / 0], a NaN,
    which is not at most [betas[0]]. *)
Lemma posterior_variance_nan_in_float64 :
  Float64.betas_in_range [1e-20] = true /\
  Float64.np_alphas_cumprod [1e-20] = [1] /\
  map is_nan (Float64.np_posterior_variance [1e-20]) = [true] /\
  zip_with leb (Float64.np_posterior_variance [1e-20]) [1e-20] = [false].
Proof. repeat split; reflexivity. Qed.

(** In float64 the cumulative product can also tie: two betas of [1e-17]
    are accepted and leave [alphas_cumprod] at [1, 1]. *)
Lemma alphas_cumprod_ties_in_float64 :
  Float64.betas_in_range [1e-17; 1e-17] = true /\
  Float64.np_alphas_cumprod [1e-17; 1e-17] = [1; 1].
Proof. split; reflexivity. Qed.

End Float64Tables.

(** ** [normal_kl] *)

(** C10.  The KL divergence of a normal distribution from itself is zero:
    for all real [m] and [v], [normal_kl m v m v = 0]. *)
Theorem normal_kl_self (m v : R) :
  normal_kl (Fin m) (Fin v) (Fin m) (Fin v) = Fin 0.
Proof.
  unfold normal_kl, squared_difference. simpl. f_equal.
  replace (v - v) with 0 by lra. rewrite exp_0. lra.
Qed.

(** ** Shapes and broadcasting *)

Lemma zip_with_length {A B C} (f : A -> B -> C) (l : list A) : forall m,
  length (zip_with f l m) = Nat.min (length l) (length m).
Proof.
  induction l as [| a l IH]; intros [| b m]; simpl; try reflexivity.
  now rewrite IH.
Qed.

Lemma Forall_zip_with {A B C} (f : A -> B -> C) (P : A -> Prop) (Q : B -> Prop)
      (S : C -> Prop) :
  (forall a b, P a -> Q b -> S (f a b)) ->
  forall l m, Forall P l -> Forall Q m -> Forall S (zip_with f l m).
Proof.
  intros Hf l; induction l as [| a l IH]; intros [| b m] Hl Hm; simpl;
    try constructor.
  - inversion Hl; inversion Hm; subst; auto.
  - inversion Hl; inversion Hm; subst; auto.
Qed.

Lemma brow_singleton (f : xreal -> xreal -> xreal) (a : xreal) (rb : list xreal) :
  brow f [a] rb = map (f a) rb.
Proof. reflexivity. Qed.

Lemma brow_same_length (f : xreal -> xreal -> xreal) (ra rb : list xreal) :
  length ra = length rb -> brow f ra rb = zip_with f ra rb.
Proof.
  intros H. destruct ra as [| a [| a' ra]]; destruct rb as [| b [| b' rb]];
    simpl in H; try discriminate; reflexivity.
Qed.

Lemma brow_length_same (f : xreal -> xreal -> xreal) (ra rb : list xreal) :
  length ra = length rb -> length (brow f ra rb) = length rb.
Proof.
  intros H. rewrite brow_same_length by exact H.
  rewrite zip_with_length, H. apply Nat.min_id.
Qed.

Lemma bshape_same (s : list nat) : bshape s s = s.
Proof.
  unfold bshape. induction s as [| a s IH]; simpl; [reflexivity |].
  rewrite IH. destruct (Nat.eqb a 1); reflexivity.
Qed.

Lemma bshape_ones (rest : list nat) :
  zip_with (fun a b => if Nat.eqb a 1 then b else a)
           (repeat 1%nat (length rest)) rest = rest.
Proof. induction rest as [| a rest IH]; simpl; [reflexivity | now rewrite IH]. Qed.

Lemma bshape_coef (b0 : nat) (rest : list nat) :
  bshape (b0 :: repeat 1%nat (length rest)) (b0 :: rest) = b0 :: rest.
Proof.
  unfold bshape. simpl. rewrite bshape_ones.
  destruct (Nat.eqb b0 1); reflexivity.
Qed.

Lemma numel_ones (n : nat) : numel (repeat 1%nat n) = 1%nat.
Proof. induction n as [| n IH]; simpl; [reflexivity | rewrite IH; reflexivity]. Qed.

Lemma same_shape_refl (s : list nat) : same_shape s s = true.
Proof. unfold same_shape. destruct (shape_eq_dec s s); [reflexivity | contradiction]. Qed.

Lemma same_shape_true (s1 s2 : list nat) : same_shape s1 s2 = true -> s1 = s2.
Proof. unfold same_shape. destruct (shape_eq_dec s1 s2); [auto | discriminate]. Qed.

Lemma has_shape_bcast2_same (f : xreal -> xreal -> xreal) (x y : Tensor) (s : list nat) :
  has_shape x s -> has_shape y s -> has_shape (bcast2 f x y) s.
Proof.
  intros [Hs [Hl Hr]] [Hs' [Hl' Hr']]. unfold has_shape, bcast2; simpl.
  rewrite Hs, Hs', bshape_same. split; [reflexivity |]. split.
  - rewrite zip_with_length, Hl, Hl'. apply Nat.min_id.
  - eapply Forall_zip_with; [| exact Hr | exact Hr'].
    intros ra rb Ha Hb; simpl in *. rewrite brow_length_same; congruence.
Qed.

Lemma has_shape_bcast2_coef (f : xreal -> xreal -> xreal) (c x : Tensor)
      (b0 : nat) (rest : list nat) :
  has_shape c (b0 :: repeat 1%nat (length rest)) -> has_shape x (b0 :: rest) ->
  has_shape (bcast2 f c x) (b0 :: rest).
Proof.
  intros [Hs [Hl Hr]] [Hs' [Hl' Hr']]. unfold has_shape, bcast2; simpl in *.
  rewrite Hs, Hs', bshape_coef. split; [reflexivity |]. split.
  - rewrite zip_with_length, Hl, Hl'. apply Nat.min_id.
  - eapply Forall_zip_with; [| exact Hr | exact Hr'].
    intros ra rb Ha Hb; simpl in *. rewrite numel_ones in Ha.
    destruct ra as [| a [| a' ra]]; simpl in Ha; try discriminate.
    rewrite brow_singleton, length_map. exact Hb.
Qed.

Lemma has_shape_tmap (f : xreal -> xreal) (x : Tensor) (s : list nat) :
  has_shape x s -> has_shape (tmap f x) s.
Proof.
  intros [Hs [Hl Hr]]. unfold has_shape, tmap; simpl.
  split; [exact Hs |]. split; [now rewrite length_map |].
  apply Forall_map. eapply Forall_impl; [| exact Hr].
  intros r Hlen; simpl. now rewrite length_map.
Qed.

(** ** [_extract] *)

Lemma gather_ok (a : list xreal) (t : list Z) :
  Forall (valid_index (length a)) t ->
  gather a t = Ok (map (fun i => nth (Z.to_nat i) a NaN) t).
Proof.
  induction t as [| i t IH]; intros H; simpl; [reflexivity |].
  inversion H as [| ? ? Hi Ht]; subst. unfold valid_index in Hi.
  replace (0 <=? i)%Z with true by (symmetry; apply Z.leb_le; lia).
  replace (i <? Z.of_nat (length a))%Z with true by (symmetry; apply Z.ltb_lt; lia).
  simpl. now rewrite (IH Ht).
Qed.

Lemma rank_minus_one {A} (b0 : A) (rest : list A) :
  (length (b0 :: rest) - 1)%nat = length rest.
Proof. simpl. apply Nat.sub_0_r. Qed.

Lemma extract_ok (a : list xreal) (t : list Z) (b0 : nat) (rest : list nat) :
  length t = b0 -> Forall (valid_index (length a)) t ->
  _extract a t (b0 :: rest) = Ok (coef_tensor a t (length (b0 :: rest))).
Proof.
  intros Hl Hv. unfold _extract. rewrite Hl, Nat.eqb_refl. simpl.
  rewrite (gather_ok _ _ Hv). unfold coef_tensor. simpl.
  rewrite map_map, Hl. reflexivity.
Qed.

Lemma has_shape_coef_tensor (a : list xreal) (t : list Z) (rest : list nat) :
  has_shape (coef_tensor a t (S (length rest)))
            (length t :: repeat 1%nat (length rest)).
Proof.
  unfold has_shape, coef_tensor; simpl. rewrite Nat.sub_0_r.
  split; [reflexivity |]. split; [apply length_map |].
  apply Forall_map. apply Forall_forall. intros i _. simpl.
  now rewrite numel_ones.
Qed.

(** ** The forward step and its inverse *)

Lemma cumprod_from_pos (l : list R) : forall acc t,
  0 < acc -> (t < length l)%nat ->
  (forall j, (j <= t)%nat -> 0 < nth j l 0) ->
  0 < nth t (cumprod_from acc l) 0.
Proof.
  induction l as [| a l IH]; intros acc t Hacc Ht Hj; simpl in Ht; [lia |].
  assert (Ha : 0 < a) by (apply (Hj 0%nat); lia).
  destruct t as [| t]; simpl; [nra |].
  apply IH; [nra | lia |].
  intros j Hle. apply (Hj (S j)). lia.
Qed.

(** The cumulative product at [t] is positive when no beta up to [t] is 1. *)
Lemma np_alphas_cumprod_pos (bs : list R) (t : nat) :
  (t < length bs)%nat ->
  (forall j, (j <= t)%nat -> nth j bs 0 < 1) ->
  0 < nth t (np_alphas_cumprod bs) 0.
Proof.
  intros Ht Hj. unfold np_alphas_cumprod. rewrite cumprod_cumprod_from.
  apply cumprod_from_pos; [lra | unfold np_alphas; rewrite length_map; exact Ht |].
  intros j Hle. rewrite np_alphas_nth by lia. specialize (Hj j Hle). lra.
Qed.

Lemma sqrt_round_trip (a x n : R) :
  0 < a <= 1 ->
  sqrt (1 / a) * (sqrt a * x + sqrt (1 - a) * n) - sqrt (1 / a - 1) * n = x.
Proof.
  intros Ha.
  assert (Hinv : 0 < 1 / a) by (apply Rdiv_lt_0_compat; lra).
  assert (H1 : sqrt (1 / a) * sqrt a = 1).
  { rewrite <- sqrt_mult by lra.
    replace (1 / a * a) with 1 by (field; lra). apply sqrt_1. }
  assert (H2 : sqrt (1 / a) * sqrt (1 - a) = sqrt (1 / a - 1)).
  { rewrite <- sqrt_mult by lra. f_equal. field; lra. }
  rewrite Rmult_plus_distr_l, <- !Rmult_assoc, H1, H2. lra.
Qed.

(** One batch entry of the round trip, for finite data. *)
Lemma round_trip_row (a : R) (xr nr : list xreal) :
  0 < a <= 1 -> length xr = length nr ->
  Forall is_fin xr -> Forall is_fin nr ->
  brow xsub
    (brow xmul [Fin (sqrt (1 / a))]
       (brow xadd (brow xmul [Fin (sqrt a)] xr)
                  (brow xmul [Fin (sqrt (1 - a))] nr)))
    (brow xmul [Fin (sqrt (1 / a - 1))] nr) = xr.
Proof.
  intros Ha Hlen Hx Hn.
  rewrite !brow_singleton.
  rewrite (brow_same_length xadd) by (rewrite !length_map; exact Hlen).
  rewrite (brow_same_length xsub)
    by (rewrite !length_map, zip_with_length, !length_map, Hlen; apply Nat.min_id).
  revert nr Hlen Hn. induction Hx as [| x xr Hfx Hx IH]; intros nr Hlen Hn.
  - reflexivity.
  - destruct nr as [| n nr]; [discriminate |].
    inversion Hn as [| ? ? Hfn Hn']; subst.
    destruct x as [x | | |]; try contradiction.
    destruct n as [n | | |]; try contradiction.
    simpl. rewrite sqrt_round_trip by exact Ha.
    f_equal. apply IH; [simpl in Hlen; lia | exact Hn'].
Qed.

Lemma nth_map_default {A B} (f : A -> B) (l : list A) (n : nat) (d : A) (d' : B) :
  (n < length l)%nat -> nth n (map f l) d' = f (nth n l d).
Proof.
  intros H. rewrite (nth_indep _ d' (f d)) by (rewrite length_map; exact H).
  apply map_nth.
Qed.

(** The whole batch of the round trip. *)
Lemma round_trip_rows (g1 g2 G1 G2 : Z -> xreal) (k : nat) (t : list Z) :
  forall X N : list (list xreal),
  Forall (fun i => exists a, 0 < a <= 1 /\
            g1 i = Fin (sqrt a) /\ g2 i = Fin (sqrt (1 - a)) /\
            G1 i = Fin (sqrt (1 / a)) /\ G2 i = Fin (sqrt (1 / a - 1))) t ->
  length X = length t -> length N = length t ->
  Forall (fun r => length r = k) X -> Forall (fun r => length r = k) N ->
  Forall (Forall is_fin) X -> Forall (Forall is_fin) N ->
  zip_with (brow xsub)
    (zip_with (brow xmul) (map (fun i => [G1 i]) t)
       (zip_with (brow xadd)
          (zip_with (brow xmul) (map (fun i => [g1 i]) t) X)
          (zip_with (brow xmul) (map (fun i => [g2 i]) t) N)))
    (zip_with (brow xmul) (map (fun i => [G2 i]) t) N) = X.
Proof.
  induction t as [| i t IH]; intros X N Hc HX HN HkX HkN HfX HfN.
  - destruct X; [reflexivity | discriminate].
  - destruct X as [| xr X]; [discriminate |].
    destruct N as [| nr N]; [discriminate |].
    inversion Hc as [| ? ? [a [Ha [E1 [E2 [E3 E4]]]]] Hc']; subst.
    inversion HkX; inversion HkN; inversion HfX; inversion HfN; subst.
    cbn [map zip_with]. rewrite E1, E2, E3, E4. f_equal.
    + apply round_trip_row; [exact Ha | congruence | assumption | assumption].
    + apply (IH X N); auto.
Qed.

(** The four tables the round trip reads, at an index whose cumulative
    product is positive. *)
Lemma round_trip_tables (bs : list R) (lt : string) (i : Z) :
  Forall in_range bs ->
  valid_index (length bs) i ->
  (forall j, (j <= Z.to_nat i)%nat -> nth j bs 0 < 1) ->
  let gd := init_attributes bs lt in
  exists a, 0 < a <= 1 /\
    nth (Z.to_nat i) (sqrt_alphas_cumprod gd) NaN = Fin (sqrt a) /\
    nth (Z.to_nat i) (sqrt_one_minus_alphas_cumprod gd) NaN = Fin (sqrt (1 - a)) /\
    nth (Z.to_nat i) (sqrt_recip_alphas_cumprod gd) NaN = Fin (sqrt (1 / a)) /\
    nth (Z.to_nat i) (sqrt_recipm1_alphas_cumprod gd) NaN = Fin (sqrt (1 / a - 1)).
Proof.
  intros Hr Hv Hj gd. unfold valid_index in Hv.
  assert (Ht : (Z.to_nat i < length bs)%nat) by lia.
  pose proof (np_alphas_cumprod_pos bs _ Ht Hj) as Hpos.
  apply in_range_split in Hr. destruct Hr as [Hp Hq].
  destruct (coefficients_at bs _ Hp Hq Ht) as [Hb [Hpr Ha]].
  set (a := nth (Z.to_nat i) (np_alphas_cumprod bs) 0) in *.
  assert (Hle : a <= 1) by (rewrite Ha; nra).
  assert (Hinv : 0 < 1 / a) by (apply Rdiv_lt_0_compat; lra).
  assert (Hm1 : 0 <= 1 / a - 1).
  { replace (1 / a - 1) with ((1 - a) / a) by (field; lra).
    apply Rmult_le_pos; [lra | left; apply Rinv_0_lt_compat; lra]. }
  assert (Hlen : (Z.to_nat i < length (np_alphas_cumprod bs))%nat)
    by (rewrite np_alphas_cumprod_length; exact Ht).
  exists a. split; [lra |].
  unfold gd; cbn [init_attributes sqrt_alphas_cumprod sqrt_one_minus_alphas_cumprod
                  sqrt_recip_alphas_cumprod sqrt_recipm1_alphas_cumprod].
  rewrite !(nth_map_default _ _ _ 0) by exact Hlen. fold a.
  unfold np_sqrt. rewrite (xdiv_fin 1 a) by lra. cbn [xsub].
  rewrite !xsqrt_fin by lra. repeat split.
Qed.

Section RoundTrip.

Context {rng : Type}.
Variable random_normal : noise_source rng.

(** The one-step schedule [1] (the [jsd] schedule for T = 1) is accepted;
    [alphas_cumprod] is then 0, its reciprocal is an infinity, and the
    reconstruction of the one-pixel image 1 from noise 0 is NaN. *)
Lemma beta_one_reconstruction (w : world rng) :
  let x_start := {| shape := [1; 1; 1; 1]%nat; rows := [[Fin 1]] |} in
  let noise := {| shape := [1; 1; 1; 1]%nat; rows := [[Fin 0]] |} in
  exists gd x_t,
    GaussianDiffusion_init [1] "noisepred" = Ok gd /\
    q_sample random_normal gd x_start [0%Z] (Some noise) w = (Ok x_t, w) /\
    predict_start_from_noise gd x_t [0%Z] noise
    = Ok {| shape := [1; 1; 1; 1]%nat; rows := [[NaN]] |}.
Proof.
  intros x_start noise.
  exists (init_attributes [1] "noisepred").
  exists {| shape := [1; 1; 1; 1]%nat; rows := [[Fin 0]] |}.
  split; [apply init_accepts; [discriminate | repeat constructor; lra] |].
  assert (E0 : 1 - 1 = 0) by lra.
  assert (T1 : np_sqrt (1 - 1) = Fin 0)
    by (unfold np_sqrt; rewrite E0, xsqrt_fin, sqrt_0 by lra; reflexivity).
  assert (T2 : np_sqrt (1 - (1 - 1)) = Fin 1).
  { unfold np_sqrt. replace (1 - (1 - 1)) with 1 by lra.
    rewrite xsqrt_fin, sqrt_1 by lra. reflexivity. }
  assert (T3 : xdiv (Fin 1) (Fin (1 - 1)) = PInf)
    by (rewrite E0; apply xdiv_pos_zero; lra).
  split.
  - unfold q_sample, x_start, noise. cbn. rewrite T1, T2.
    unfold tadd, tmul, bcast2. cbn. repeat f_equal. lra.
  - unfold predict_start_from_noise, noise. cbn. rewrite T3.
    unfold xsqrt, tsub, tmul, bcast2. cbn. rewrite Rsign_zero. reflexivity.
Qed.

(** C1, amended.  When no beta up to index [t[i]] equals 1, for every batch
    entry [i], reconstructing the start from [q_sample x_start t noise] with
    the same [t] and [noise] gives back [x_start], for finite [x_start] and
    [noise] of one shape. *)
Theorem predict_start_inverts_q_sample (bs : list R) (lt : string)
        (gd : GaussianDiffusion) (x_start noise : Tensor) (t : list Z)
        (b0 : nat) (rest : list nat) (w : world rng) :
  GaussianDiffusion_init bs lt = Ok gd ->
  has_shape x_start (b0 :: rest) -> has_shape noise (b0 :: rest) ->
  finite_tensor x_start -> finite_tensor noise ->
  length t = b0 ->
  Forall (fun i => valid_index (num_timesteps gd) i /\
                   forall j, (j <= Z.to_nat i)%nat -> nth j bs 0 < 1) t ->
  exists x_t,
    q_sample random_normal gd x_start t (Some noise) w = (Ok x_t, w) /\
    predict_start_from_noise gd x_t t noise = Ok x_start.
Proof.
  intros Hinit Hx Hn Hfx Hfn Hlen Ht.
  destruct (init_inversion _ _ _ Hinit) as [Hr [_ ->]].
  cbn [init_attributes num_timesteps] in Ht.
  assert (Hv : forall tab : list xreal, length tab = length bs ->
                 Forall (valid_index (length tab)) t).
  { intros tab ->. eapply Forall_impl; [| exact Ht]. intros i [H _]; exact H. }
  assert (Lac := np_alphas_cumprod_length bs).
  destruct Hx as [Hsx [Hlx Hrx]]. destruct Hn as [Hsn [Hln Hrn]].
  eexists. split.
  - unfold q_sample. cbn [bind ret M_monad lift assert].
    rewrite Hsn, Hsx, same_shape_refl. cbn [ret raise M_monad].
    rewrite !extract_ok; try exact Hlen;
      try (apply Hv; cbn [init_attributes sqrt_alphas_cumprod
                          sqrt_one_minus_alphas_cumprod];
           rewrite length_map; exact Lac).
    reflexivity.
  - unfold predict_start_from_noise, tadd, tmul, tsub, bcast2, coef_tensor.
    cbn [shape rows].
    rewrite Hsn, Hsx, !Hlen, !rank_minus_one, !bshape_coef, bshape_same.
    rewrite same_shape_refl. cbn [bind ret result_monad assert].
    rewrite !extract_ok; try exact Hlen;
      try (apply Hv; cbn [init_attributes sqrt_recip_alphas_cumprod
                          sqrt_recipm1_alphas_cumprod];
           rewrite length_map; exact Lac).
    unfold coef_tensor. cbn [shape rows].
    rewrite !Hlen, !rank_minus_one, !bshape_coef, bshape_same.
    destruct x_start as [sx X]. cbn [shape rows] in *. subst sx. do 2 f_equal.
    simpl in Hlx, Hln.
    apply (round_trip_rows _ _ _ _ (numel rest)); try assumption; try congruence.
    eapply Forall_impl; [| exact Ht]. intros i [Hi Hj].
    apply (round_trip_tables bs lt i Hr Hi Hj).
Qed.

End RoundTrip.

(** C1 as stated fails, at the schedule [1]: the reconstruction is NaN, not
    the start image. *)
Lemma round_trip_fails_at_beta_one :
  let x_start := {| shape := [1; 1; 1; 1]%nat; rows := [[Fin 1]] |} in
  let noise := {| shape := [1; 1; 1; 1]%nat; rows := [[Fin 0]] |} in
  let random_normal : noise_source unit := fun s st => (empty_tensor, st) in
  let w := mkWorld tt [] in
  exists gd x_t,
    GaussianDiffusion_init [1] "noisepred" = Ok gd /\
    has_shape x_start [1; 1; 1; 1]%nat /\ has_shape noise [1; 1; 1; 1]%nat /\
    q_sample random_normal gd x_start [0%Z] (Some noise) w = (Ok x_t, w) /\
    predict_start_from_noise gd x_t [0%Z] noise <> Ok x_start.
Proof.
  intros x_start noise random_normal w.
  destruct (beta_one_reconstruction random_normal w)
    as [gd [x_t [Hinit [Hq Hp]]]].
  exists gd, x_t. split; [exact Hinit |].
  split; [repeat split; repeat constructor |].
  split; [repeat split; repeat constructor |].
  split; [exact Hq |].
  unfold noise, x_start. rewrite Hp. discriminate.
Qed.

Lemma predict_start_inverts_q_sample_witness :
  let x_start := {| shape := [1; 1; 1; 1]%nat; rows := [[Fin 1]] |} in
  let noise := {| shape := [1; 1; 1; 1]%nat; rows := [[Fin 0]] |} in
  let random_normal : noise_source unit := fun s st => (empty_tensor, st) in
  let w := mkWorld tt [] in
  exists x_t,
    q_sample random_normal (init_attributes [1 / 2] "noisepred")
             x_start [0%Z] (Some noise) w = (Ok x_t, w) /\
    predict_start_from_noise (init_attributes [1 / 2] "noisepred")
                             x_t [0%Z] noise = Ok x_start.
Proof.
  intros x_start noise random_normal w.
  apply (predict_start_inverts_q_sample random_normal [1 / 2] "noisepred"
           (init_attributes [1 / 2] "noisepred") x_start noise [0%Z]
           1%nat [1; 1; 1]%nat w).
  - apply init_accepts; [discriminate | repeat constructor; lra].
  - repeat split; repeat constructor.
  - repeat split; repeat constructor.
  - repeat constructor.
  - repeat constructor.
  - reflexivity.
  - constructor; [| constructor]. split.
    + unfold valid_index; simpl; lia.
    + intros j Hj. assert (j = 0%nat) as -> by (simpl in Hj; lia). simpl; lra.
Defined.

(** ** Well-formed coefficient tables *)

Lemma zip_with3_length {A B C D} (f : A -> B -> C -> D) (l : list A) :
  forall (m : list B) (n : list C),
  length l = length m -> length l = length n ->
  length (zip_with3 f l m n) = length l.
Proof.
  induction l as [| a l IH]; intros [| b m] [| c n] Hm Hn; simpl in *;
    try discriminate; try reflexivity.
  f_equal. apply IH; lia.
Qed.

Lemma init_tables_complete (bs : list R) (lt : string) (gd : GaussianDiffusion) :
  GaussianDiffusion_init bs lt = Ok gd -> tables_complete gd.
Proof.
  intros Hinit. destruct (init_inversion _ _ _ Hinit) as [_ [Hne ->]].
  assert (Hpos : (0 < length bs)%nat)
    by (destruct bs; [contradiction Hne; reflexivity | simpl; lia]).
  assert (Lac := np_alphas_cumprod_length bs).
  assert (Lacp : length (np_alphas_cumprod_prev bs) = length bs)
    by (rewrite np_alphas_cumprod_prev_length; lia).
  assert (Lal : length (np_alphas bs) = length bs)
    by (unfold np_alphas; apply length_map).
  unfold tables_complete, np_posterior_variance; cbn.
  rewrite ?length_map. unfold np_posterior_variance.
  rewrite !zip_with3_length; try congruence.
  repeat split; try assumption; congruence.
Qed.

(** ** Running the state-and-error monad *)

Lemma M_bind_ok {rng A B} (c : M rng A) (k : A -> M rng B) (w w' : world rng) (a : A) :
  c w = (Ok a, w') -> (x <- c ;; k x) w = k a w'.
Proof. intros Hc. cbn [bind M_monad]. rewrite Hc. reflexivity. Qed.

Lemma M_bind_err {rng A B} (c : M rng A) (k : A -> M rng B) (w w' : world rng)
      (e : error) :
  c w = (Err e, w') -> (x <- c ;; k x) w = (Err e, w').
Proof. intros Hc. cbn [bind M_monad]. rewrite Hc. reflexivity. Qed.

Lemma M_assert_true {rng} (b : bool) (w : world rng) :
  b = true -> assert (m := M rng) b w = (Ok tt, w).
Proof. intros ->. reflexivity. Qed.

(** Run the first computation of a bind, given by [tac], and continue. *)
Ltac run_bind tac :=
  etransitivity; [apply M_bind_ok; tac | cbv beta].

Ltac run_assert tac :=
  run_bind ltac:(apply M_assert_true; tac).

(** ** One reverse step *)

Lemma extract_table (a : list xreal) (T : nat) (t : list Z) (b0 : nat)
      (rest : list nat) :
  length a = T -> length t = b0 -> Forall (valid_index T) t ->
  _extract a t (b0 :: rest) = Ok (coef_tensor a t (S (length rest))).
Proof. intros <- Hl Hv. now apply extract_ok. Qed.

Lemma has_shape_coef (a : list xreal) (t : list Z) (b0 : nat) (rest : list nat) :
  length t = b0 ->
  has_shape (coef_tensor a t (S (length rest))) (b0 :: repeat 1%nat (length rest)).
Proof. intros <-. apply has_shape_coef_tensor. Qed.

(** [a * x + b * y] and [a * x - b * y] for coefficient tensors [a], [b]. *)
Lemma has_shape_affine (f : xreal -> xreal -> xreal) (a b : list xreal)
      (t : list Z) (x y : Tensor) (b0 : nat) (rest : list nat) :
  length t = b0 -> has_shape x (b0 :: rest) -> has_shape y (b0 :: rest) ->
  has_shape (bcast2 f (tmul (coef_tensor a t (S (length rest))) x)
                      (tmul (coef_tensor b t (S (length rest))) y))
            (b0 :: rest).
Proof.
  intros Hl Hx Hy. apply has_shape_bcast2_same;
    apply has_shape_bcast2_coef; auto using has_shape_coef.
Qed.

Section Step.

Context {rng : Type}.
Variable random_normal : noise_source rng.
Variable gd : GaussianDiffusion.
Hypothesis Hgd : tables_complete gd.

Lemma predict_start_ok (x n : Tensor) (t : list Z) (b0 : nat) (rest : list nat) :
  has_shape x (b0 :: rest) -> has_shape n (b0 :: rest) ->
  length t = b0 -> Forall (valid_index (num_timesteps gd)) t ->
  exists r, predict_start_from_noise gd x t n = Ok r /\ has_shape r (b0 :: rest).
Proof.
  intros Hx Hn Hl Hv.
  destruct Hgd as [_ [_ [_ [H3 [H4 _]]]]].
  pose proof Hx as [Hsx _]. pose proof Hn as [Hsn _].
  unfold predict_start_from_noise. rewrite Hsx, Hsn, same_shape_refl.
  cbn [bind ret result_monad assert].
  rewrite (extract_table _ _ _ _ _ H3 Hl Hv), (extract_table _ _ _ _ _ H4 Hl Hv).
  eexists; split; [reflexivity |].
  apply has_shape_affine; assumption.
Qed.

Lemma q_posterior_ok (x0 xt : Tensor) (t : list Z) (b0 : nat) (rest : list nat) :
  has_shape x0 (b0 :: rest) -> has_shape xt (b0 :: rest) ->
  length t = b0 -> Forall (valid_index (num_timesteps gd)) t ->
  exists mean,
    q_posterior gd x0 xt t
    = Ok (mean,
          coef_tensor (posterior_variance gd) t (S (length rest)),
          coef_tensor (posterior_log_variance_clipped gd) t (S (length rest))) /\
    has_shape mean (b0 :: rest).
Proof.
  intros Hx0 Hxt Hl Hv.
  destruct Hgd as [_ [_ [_ [_ [_ [H5 [H6 [H7 H8]]]]]]]].
  pose proof Hx0 as [Hs0 _]. pose proof Hxt as [Hst _].
  pose proof (has_shape_affine xadd (posterior_mean_coef1 gd)
                (posterior_mean_coef2 gd) t x0 xt b0 rest Hl Hx0 Hxt) as Hm.
  unfold q_posterior. rewrite Hs0, Hst, same_shape_refl.
  cbn [bind ret result_monad assert].
  rewrite (extract_table _ _ _ _ _ H7 Hl Hv), (extract_table _ _ _ _ _ H8 Hl Hv),
          (extract_table _ _ _ _ _ H5 Hl Hv), (extract_table _ _ _ _ _ H6 Hl Hv).
  eexists; split; [| exact Hm].
  unfold tadd. rewrite (proj1 Hm).
  unfold coef_tensor. cbn [shape hd_eqb]. rewrite Hl, Nat.eqb_refl.
  reflexivity.
Qed.

Lemma p_mean_variance_ok (denoise_fn : denoiser) (x : Tensor) (t : list Z)
      (clip_denoised : bool) (B H W C : nat) :
  loss_type gd = "noisepred"%string ->
  has_shape x [B; H; W; C] -> has_shape (denoise_fn x t) [B; H; W; C] ->
  length t = B -> Forall (valid_index (num_timesteps gd)) t ->
  exists mean,
    p_mean_variance gd denoise_fn x t clip_denoised
    = Ok (mean,
          coef_tensor (posterior_variance gd) t 4,
          coef_tensor (posterior_log_variance_clipped gd) t 4) /\
    has_shape mean [B; H; W; C].
Proof.
  intros Hlt Hx Hd Hl Hv.
  destruct (predict_start_ok x (denoise_fn x t) t B [H; W; C] Hx Hd Hl Hv)
    as [r [Hr Hsr]].
  set (r' := if clip_denoised then tmap (xclip (-1) 1) r else r).
  assert (Hsr' : has_shape r' [B; H; W; C])
    by (unfold r'; destruct clip_denoised; [apply has_shape_tmap |]; exact Hsr).
  destruct (q_posterior_ok r' x t B [H; W; C] Hsr' Hx Hl Hv) as [mean [Hq Hsm]].
  exists mean. split; [| exact Hsm].
  unfold p_mean_variance. rewrite Hlt. cbn [String.eqb Ascii.eqb Bool.eqb].
  rewrite Hr. cbn [bind ret result_monad]. fold r'. rewrite Hq.
  cbn [bind ret result_monad].
  destruct Hsm as [-> _]. destruct Hsr' as [-> _]. destruct Hx as [-> _].
  rewrite same_shape_refl. unfold coef_tensor. cbn [shape hd length andb assert].
  rewrite Hl, !same_shape_refl. reflexivity.
Qed.

End Step.

Lemma zip_with_nth {A B C} (f : A -> B -> C) (dA : A) (dB : B) (dC : C) :
  forall (l : list A) (m : list B) (i : nat),
  (i < length l)%nat -> (i < length m)%nat ->
  nth i (zip_with f l m) dC = f (nth i l dA) (nth i m dB).
Proof.
  induction l as [| a l IH]; intros [| b m] i Hl Hm; simpl in *; try lia.
  destruct i as [| i]; [reflexivity | apply IH; lia].
Qed.

Lemma xadd_fin_zero (m : xreal) (z : R) : z = 0 -> xadd m (Fin z) = m.
Proof. intros ->. destruct m; simpl; [f_equal; lra | reflexivity ..]. Qed.

(** A batch entry whose noise is scaled by zero is left as it was. *)
Lemma row_plus_zero (mr nr : list xreal) (z : R) :
  z = 0 -> length mr = length nr -> Forall is_fin nr ->
  brow xadd mr (brow xmul [Fin z] nr) = mr.
Proof.
  intros Hz Hlen Hn. rewrite brow_singleton.
  rewrite brow_same_length by (rewrite length_map; exact Hlen).
  revert mr Hlen. induction Hn as [| n nr Hfn Hn IH]; intros [| m mr] Hlen;
    simpl in Hlen; try discriminate; [reflexivity |].
  destruct n as [n | | |]; try contradiction.
  simpl. rewrite xadd_fin_zero by (subst z; lra). f_equal. apply IH. lia.
Qed.

(** The clipped log-variance is finite at every timestep. *)
Lemma posterior_log_variance_finite (bs : list R) (lt : string)
      (gd : GaussianDiffusion) (t : nat) :
  GaussianDiffusion_init bs lt = Ok gd -> (t < num_timesteps gd)%nat ->
  exists l, nth t (posterior_log_variance_clipped gd) NaN = Fin l.
Proof.
  intros Hinit Ht.
  destruct (posterior_variance_at bs lt gd t Hinit Ht)
    as [b [p [a [v [_ [_ [_ [Hv _]]]]]]]].
  pose proof (init_tables_complete _ _ _ Hinit) as [_ [_ [_ [_ [_ [H5 _]]]]]].
  destruct (init_inversion _ _ _ Hinit) as [_ [_ ->]].
  cbn [init_attributes posterior_log_variance_clipped posterior_variance
       num_timesteps] in *.
  rewrite (nth_map_default _ _ _ NaN) by (rewrite H5; exact Ht).
  rewrite Hv. cbn [xmax]. unfold xlog.
  assert (Hpos : 0 < Rmax v 1e-20).
  { eapply Rlt_le_trans; [| apply Rmax_r]. lra. }
  rewrite (Rsign_pos _ Hpos). eexists; reflexivity.
Qed.

Lemma has_shape_tf_repeat (n : Tensor) (b0 : nat) (rest : list nat) :
  has_shape n (1%nat :: rest) -> has_shape (tf_repeat n b0) (b0 :: rest).
Proof.
  intros [Hs [Hl Hr]]. unfold has_shape, tf_repeat; simpl in *.
  rewrite Hs. simpl. rewrite Nat.add_0_r. split; [reflexivity |].
  destruct (rows n) as [| r [| r' rs]]; simpl in Hl; try discriminate.
  simpl. rewrite app_nil_r, repeat_length. split; [reflexivity |].
  inversion Hr; subst. apply Forall_forall. intros r0 Hin.
  apply repeat_spec in Hin. subst. assumption.
Qed.

Lemma finite_tf_repeat (n : Tensor) (b0 : nat) :
  finite_tensor n -> finite_tensor (tf_repeat n b0).
Proof.
  unfold finite_tensor, tf_repeat; simpl. intros Hf.
  apply Forall_forall. intros r Hin. apply in_flat_map in Hin.
  destruct Hin as [r0 [Hin0 Hrep]]. apply repeat_spec in Hrep. subst.
  rewrite Forall_forall in Hf. auto.
Qed.

Section Sampling.

Context {rng : Type}.
Variable gd : GaussianDiffusion.
Hypothesis Hgd : tables_complete gd.
Hypothesis Hloss : loss_type gd = "noisepred"%string.
Variable denoise_fn : denoiser.
Variable noise_fn : noise_source rng.
Hypothesis Hnoise : noise_shaped noise_fn.
Variables B H W C : nat.
Hypothesis Hdenoise : shape_preserving denoise_fn [B; H; W; C].

Lemma noise_like_ok (repeat_noise : bool) (w : world rng) :
  exists n w',
    noise_like [B; H; W; C] noise_fn repeat_noise w = (Ok n, w') /\
    has_shape n [B; H; W; C] /\ calls w' = calls w /\
    (noise_finite noise_fn -> finite_tensor n).
Proof.
  unfold noise_like, draw. destruct repeat_noise; cbn [bind ret M_monad tl].
  - pose proof (Hnoise [1; H; W; C]%nat (rng_state w)) as Hs.
    destruct (noise_fn [1; H; W; C]%nat (rng_state w)) as [n st] eqn:E.
    simpl in Hs. eexists; eexists. split; [reflexivity |].
    split; [apply has_shape_tf_repeat; exact Hs |]. split; [reflexivity |].
    intros Hf. apply finite_tf_repeat.
    specialize (Hf [1; H; W; C]%nat (rng_state w)). rewrite E in Hf. exact Hf.
  - pose proof (Hnoise [B; H; W; C] (rng_state w)) as Hs.
    destruct (noise_fn [B; H; W; C] (rng_state w)) as [n st] eqn:E.
    simpl in Hs. eexists; eexists. split; [reflexivity |].
    split; [exact Hs |]. split; [reflexivity |].
    intros Hf. specialize (Hf [B; H; W; C] (rng_state w)).
    rewrite E in Hf. exact Hf.
Qed.

Lemma has_shape_mask (t : list Z) :
  has_shape (mask_tensor t) [length t; 1; 1; 1]%nat.
Proof.
  unfold has_shape, mask_tensor; simpl. split; [reflexivity |].
  split; [apply length_map |]. apply Forall_map, Forall_forall. now intros.
Qed.

(** One reverse step on well-shaped input succeeds; its value is the mean
    plus the masked, scaled noise; it is recorded in [calls]. *)
Lemma p_sample_ok (x : Tensor) (t : list Z) (clip_denoised repeat_noise : bool)
      (w : world rng) :
  has_shape x [B; H; W; C] -> length t = B ->
  Forall (valid_index (num_timesteps gd)) t ->
  exists mean pv noise w',
    p_mean_variance gd denoise_fn x t clip_denoised
    = Ok (mean, pv, coef_tensor (posterior_log_variance_clipped gd) t 4) /\
    has_shape mean [B; H; W; C] /\
    has_shape noise [B; H; W; C] /\
    (noise_finite noise_fn -> finite_tensor noise) /\
    noise_like [B; H; W; C] noise_fn repeat_noise
               (mkWorld (rng_state w) (calls w ++ [(t, repeat_noise)]))
    = (Ok noise, w') /\
    p_sample gd denoise_fn x t noise_fn clip_denoised repeat_noise w
    = (Ok (tadd mean (tmul (tmul (mask_tensor t) (sigma_tensor gd t)) noise)), w') /\
    has_shape (tadd mean (tmul (tmul (mask_tensor t) (sigma_tensor gd t)) noise))
              [B; H; W; C] /\
    calls w' = calls w ++ [(t, repeat_noise)].
Proof.
  intros Hx Hl Hv.
  destruct (p_mean_variance_ok gd Hgd denoise_fn x t clip_denoised B H W C
              Hloss Hx (Hdenoise x t Hx) Hl Hv) as [mean [Hpmv Hsm]].
  destruct (noise_like_ok repeat_noise
              (mkWorld (rng_state w) (calls w ++ [(t, repeat_noise)])))
    as [noise [w' [Hnl [Hsn [Hc Hfin]]]]].
  exists mean, (coef_tensor (posterior_variance gd) t 4), noise, w'.
  assert (Hout : has_shape
            (tadd mean (tmul (tmul (mask_tensor t) (sigma_tensor gd t)) noise))
            [B; H; W; C]).
  { apply has_shape_bcast2_same; [exact Hsm |].
    apply (has_shape_bcast2_coef xmul _ noise B [H; W; C]); [| exact Hsn].
    apply has_shape_bcast2_same.
    - rewrite <- Hl. apply has_shape_mask.
    - unfold sigma_tensor. do 2 apply has_shape_tmap.
      apply (has_shape_coef _ t B [H; W; C] Hl). }
  repeat (split; [assumption |]).
  split; [| split; [exact Hout | exact Hc]].
  unfold p_sample, record_call, lift. cbn [bind ret M_monad].
  rewrite Hpmv. destruct Hx as [Hsx _]. rewrite Hsx, Hnl.
  destruct Hsn as [Hsn _]. rewrite Hsn, same_shape_refl.
  cbn [assert ret M_monad]. unfold nonzero_mask. cbn [hd length].
  rewrite Hl, Nat.eqb_refl. cbn [ret result_monad].
  unfold mask_tensor, sigma_tensor. rewrite Hl. reflexivity.
Qed.

End Sampling.

(** C6.  [p_sample] returns [mean + mask * exp(0.5 * log_variance) * noise],
    with [mean] and [log_variance] from [p_mean_variance] and [mask] 0 for the
    batch entries whose [t] is 0 and 1 for the others; an error of
    [p_mean_variance] is passed on.  For a batch entry with [t = 0] the
    returned entry is the entry of [mean], whatever noise was drawn. *)
Theorem p_sample_mean_plus_masked_noise {rng : Type} (bs : list R)
        (gd : GaussianDiffusion) (denoise_fn : denoiser)
        (noise_fn : noise_source rng) (B H W C : nat) (x : Tensor) (t : list Z)
        (clip_denoised repeat_noise : bool) (w : world rng) :
  (forall e, p_mean_variance gd denoise_fn x t clip_denoised = Err e ->
             fst (p_sample gd denoise_fn x t noise_fn clip_denoised repeat_noise w)
             = Err e) /\
  (GaussianDiffusion_init bs "noisepred" = Ok gd ->
   shape_preserving denoise_fn [B; H; W; C] ->
   noise_shaped noise_fn -> noise_finite noise_fn ->
   has_shape x [B; H; W; C] -> length t = B ->
   Forall (valid_index (num_timesteps gd)) t ->
   exists mean pv log_variance noise w' out,
     p_mean_variance gd denoise_fn x t clip_denoised = Ok (mean, pv, log_variance) /\
     noise_like (shape x) noise_fn repeat_noise
                (mkWorld (rng_state w) (calls w ++ [(t, repeat_noise)]))
     = (Ok noise, w') /\
     out = tadd mean
                (tmul (tmul (mask_tensor t)
                            (tmap xexp (tmap (xmul (Fin (1 / 2))) log_variance)))
                      noise) /\
     p_sample gd denoise_fn x t noise_fn clip_denoised repeat_noise w = (Ok out, w') /\
     rows (mask_tensor t) = map (fun i => [if Z.eqb i 0 then Fin 0 else Fin 1]) t /\
     forall i, (i < B)%nat -> nth i t 1%Z = 0%Z ->
               nth i (rows out) [] = nth i (rows mean) []).
Proof.
  split.
  - intros e He. unfold p_sample, record_call, lift. cbn [bind M_monad].
    rewrite He. reflexivity.
  - intros Hinit Hd Hn Hfin Hx Hl Hv.
    pose proof (init_tables_complete _ _ _ Hinit) as Hgd.
    assert (Hloss : loss_type gd = "noisepred"%string)
      by (destruct (init_inversion _ _ _ Hinit) as [_ [_ ->]]; reflexivity).
    destruct (p_sample_ok gd Hgd Hloss denoise_fn noise_fn Hn B H W C Hd
                x t clip_denoised repeat_noise w Hx Hl Hv)
      as [mean [pv [noise [w' [Hpmv [Hsm [Hsn [Hf [Hnl [Hps [Hout Hc]]]]]]]]]]].
    specialize (Hf Hfin).
    exists mean, pv, (coef_tensor (posterior_log_variance_clipped gd) t 4),
           noise, w'.
    eexists. split; [exact Hpmv |].
    split; [rewrite (proj1 Hx); exact Hnl |].
    split; [reflexivity |]. split; [exact Hps |]. split.
    + unfold mask_tensor; cbn [rows]. apply map_ext. intros i.
      destruct (Z.eqb i 0); do 2 f_equal; lra.
    + intros i Hi Hti.
      destruct Hsm as [_ [Hlm Hrm]]. destruct Hsn as [_ [Hln Hrn]].
      simpl in Hlm, Hln, Hrm, Hrn.
      assert (Hit : (i < length t)%nat) by lia.
      assert (H0 : (Z.to_nat 0 < num_timesteps gd)%nat)
        by (destruct Hgd as [Hpos _]; simpl; exact Hpos).
      destruct (posterior_log_variance_finite bs _ gd _ Hinit H0) as [l Hlv].
      unfold tadd, tmul, bcast2, sigma_tensor, tmap, mask_tensor, coef_tensor.
      cbn [rows shape].
      rewrite (zip_with_nth _ [] [] []);
        [| lia | rewrite !zip_with_length, !length_map; lia].
      rewrite (zip_with_nth _ [] [] []);
        [| rewrite !zip_with_length, !length_map; lia | lia].
      rewrite (zip_with_nth _ [] [] []); [| rewrite !length_map; lia ..].
      rewrite !map_map.
      rewrite !(nth_map_default _ _ _ 1%Z) by exact Hit.
      rewrite Hti. cbn [Z.eqb map]. rewrite Hlv. cbn [xmul xexp brow map].
      unfold finite_tensor in Hf. rewrite Forall_forall in Hrm, Hrn, Hf.
      apply row_plus_zero.
      * lra.
      * rewrite Hrm, Hrn; [reflexivity | apply nth_In; lia ..].
      * apply Hf. apply nth_In; lia.
Qed.

(** ** The training loss *)

Lemma q_sample_ok {rng : Type} (random_normal : noise_source rng)
      (gd : GaussianDiffusion) (x n : Tensor) (t : list Z) (b0 : nat)
      (rest : list nat) (w : world rng) :
  tables_complete gd ->
  has_shape x (b0 :: rest) -> has_shape n (b0 :: rest) ->
  length t = b0 -> Forall (valid_index (num_timesteps gd)) t ->
  exists x_t,
    q_sample random_normal gd x t (Some n) w = (Ok x_t, w) /\
    has_shape x_t (b0 :: rest).
Proof.
  intros Hgd Hx Hn Hl Hv.
  destruct Hgd as [_ [H1 [H2 _]]].
  pose proof Hx as [Hsx _]. pose proof Hn as [Hsn _].
  unfold q_sample. cbn [bind ret M_monad lift assert].
  rewrite Hsn, Hsx, same_shape_refl. cbn [ret raise M_monad].
  rewrite (extract_table _ _ _ _ _ H1 Hl Hv), (extract_table _ _ _ _ _ H2 Hl Hv).
  eexists; split; [reflexivity |].
  apply has_shape_affine; assumption.
Qed.

(** C7.  With loss kind 'noisepred', [p_losses] on [x_start] of shape
    [B,H,W,C] and [t] of length [B] draws the noise when none is supplied,
    forms [x_noisy = q_sample x_start t noise], and returns a vector of
    length [B] whose entry [i] is the mean over the [H*W*C] positions of the
    squared difference between [noise] and [denoise_fn x_noisy t]. *)
Theorem p_losses_noisepred {rng : Type} (random_normal : noise_source rng)
        (bs : list R) (gd : GaussianDiffusion) (denoise_fn : denoiser)
        (B H W C : nat) (x_start : Tensor) (t : list Z) (noise : option Tensor)
        (w : world rng) :
  GaussianDiffusion_init bs "noisepred" = Ok gd ->
  has_shape x_start [B; H; W; C] -> length t = B ->
  Forall (valid_index (num_timesteps gd)) t ->
  shape_preserving denoise_fn [B; H; W; C] ->
  noise_shaped random_normal ->
  (forall n, noise = Some n -> has_shape n [B; H; W; C]) ->
  let drawn := random_normal [B; H; W; C] (rng_state w) in
  let noise_used := match noise with Some n => n | None => fst drawn end in
  let w' := match noise with
            | Some _ => w
            | None => mkWorld (snd drawn) (calls w)
            end in
  exists x_noisy losses,
    q_sample random_normal gd x_start t (Some noise_used) w' = (Ok x_noisy, w') /\
    p_losses random_normal gd denoise_fn x_start t noise w = (Ok losses, w') /\
    length losses = B /\
    forall i, (i < B)%nat ->
      nth i losses NaN
      = mean_squared_error (H * W * C)
          (nth i (rows noise_used) []) (nth i (rows (denoise_fn x_noisy t)) []).
Proof.
  intros Hinit Hx Hl Hv Hd Hrn Hn drawn noise_used w'.
  pose proof (init_tables_complete _ _ _ Hinit) as Hgd.
  assert (Hloss : loss_type gd = "noisepred"%string)
    by (destruct (init_inversion _ _ _ Hinit) as [_ [_ ->]]; reflexivity).
  assert (Hnu : has_shape noise_used [B; H; W; C]).
  { unfold noise_used. destruct noise as [n |]; [apply Hn; reflexivity |].
    apply Hrn. }
  destruct (q_sample_ok random_normal gd x_start noise_used t B [H; W; C] w'
              Hgd Hx Hnu Hl Hv) as [x_noisy [Hq Hsq]].
  pose proof (Hd x_noisy t Hsq) as Hrec.
  set (x_recon := denoise_fn x_noisy t) in *.
  pose proof (has_shape_bcast2_same squared_difference _ _ _ Hnu Hrec) as Hsd.
  exists x_noisy, (meanflat (bcast2 squared_difference noise_used x_recon)).
  split; [exact Hq |].
  assert (Hlen : length (meanflat (bcast2 squared_difference noise_used x_recon)) = B).
  { unfold meanflat. rewrite length_map. destruct Hsd as [_ [Hlr _]]. exact Hlr. }
  split; [| split; [exact Hlen |]].
  - unfold p_losses. rewrite (proj1 Hx).
    run_assert ltac:(rewrite Hl; apply Nat.eqb_refl).
    run_bind ltac:(instantiate (1 := w'); instantiate (1 := noise_used);
                   unfold noise_used, w', drawn, draw;
                   destruct noise as [n |]; [reflexivity |];
                   destruct (random_normal [B; H; W; C] (rng_state w));
                   reflexivity).
    run_assert ltac:(rewrite (proj1 Hnu); apply same_shape_refl).
    run_bind ltac:(exact Hq).
    fold x_recon.
    run_assert ltac:(rewrite (proj1 Hsq); apply same_shape_refl).
    run_assert ltac:(rewrite (proj1 Hrec); cbn [firstn length Nat.eqb];
                     rewrite same_shape_refl; reflexivity).
    rewrite Hloss. cbn [String.eqb Ascii.eqb Bool.eqb].
    run_bind ltac:(run_assert ltac:(rewrite (proj1 Hrec); apply same_shape_refl);
                   reflexivity).
    run_assert ltac:(rewrite Hlen; apply Nat.eqb_refl).
    reflexivity.
  - intros i Hi. unfold meanflat, mean_squared_error, bcast2. cbn [rows].
    destruct Hnu as [_ [Hln Hrn']]. destruct Hrec as [_ [Hlr Hrr]].
    simpl in Hln, Hlr, Hrn', Hrr.
    rewrite (nth_map_default _ _ _ [])
      by (rewrite zip_with_length; lia).
    rewrite (zip_with_nth _ [] [] []) by lia.
    rewrite Forall_forall in Hrn', Hrr.
    assert (Ha : length (nth i (rows noise_used) []) = (H * (W * (C * 1)))%nat)
      by (apply Hrn', nth_In; lia).
    assert (Hb : length (nth i (rows x_recon) []) = (H * (W * (C * 1)))%nat)
      by (apply Hrr, nth_In; lia).
    rewrite brow_same_length by congruence.
    rewrite zip_with_length, Ha, Hb, Nat.min_id.
    do 3 f_equal. lia.
Qed.

(** ** The reverse loops *)

Lemma down_from_length (k : nat) : forall i, length (down_from i k) = k.
Proof. induction k as [| k IH]; intros i; simpl; [reflexivity | now rewrite IH]. Qed.

Lemma down_from_nth (k : nat) : forall i n, (n < k)%nat ->
  nth n (down_from i k) 0%Z = (i - Z.of_nat n)%Z.
Proof.
  induction k as [| k IH]; intros i n Hn; [lia |].
  destruct n as [| n]; simpl down_from; cbn [nth]; [lia |].
  rewrite IH by lia. lia.
Qed.

Lemma down_from_app (k1 : nat) : forall i k2,
  down_from i (k1 + k2) = down_from i k1 ++ down_from (i - Z.of_nat k1) k2.
Proof.
  induction k1 as [| k1 IH]; intros i k2.
  - simpl. f_equal. lia.
  - cbn [Nat.add down_from app]. rewrite IH. do 3 f_equal. lia.
Qed.

Lemma down_from_In (k : nat) : forall i j,
  In j (down_from i k) -> (i - Z.of_nat k < j <= i)%Z.
Proof.
  induction k as [| k IH]; intros i j Hin; simpl in Hin; [contradiction |].
  destruct Hin as [<- | Hin]; [lia |]. apply IH in Hin. lia.
Qed.

Section Loops.

Context {rng : Type}.
Variable gd : GaussianDiffusion.
Variable denoise_fn : denoiser.
Variable noise_fn : noise_source rng.
Variables B H W C : nat.

(** The loop of [p_sample_loop] started at [k - 1] is the chain of [k]
    steps, given fuel for [k + 1] tests of its condition. *)
Lemma sample_loop_unroll (k : nat) : forall fuel img w,
  (k < fuel)%nat ->
  while_loop fuel
    (fun '(i_, _) => (0 <=? i_)%Z)
    (fun '(i_, img_) =>
       img' <- p_sample gd denoise_fn img_ (fill_t [B; H; W; C] i_) noise_fn true false ;;
       ret ((i_ - 1)%Z, img'))
    ((Z.of_nat k - 1)%Z, img) w
  = (img' <- reverse_steps gd denoise_fn noise_fn B H W C
                           (down_from (Z.of_nat k - 1) k) img ;;
     ret ((-1)%Z, img')) w.
Proof.
  induction k as [| k IH]; intros fuel img w Hk;
    (destruct fuel as [| fuel]; [lia |]); cbn [while_loop down_from reverse_steps].
  - reflexivity.
  - replace (0 <=? Z.of_nat (S k) - 1)%Z with true by (symmetry; apply Z.leb_le; lia).
    destruct (p_sample gd denoise_fn img (fill_t [B; H; W; C] (Z.of_nat (S k) - 1))
                       noise_fn true false w) as [[img' | e] w1] eqn:E.
    + assert (Hf : (k < fuel)%nat) by lia.
      specialize (IH fuel img' w1 Hf).
      cbn [bind ret M_monad] in IH |- *. rewrite E.
      replace (Z.of_nat (S k) - 1 - 1)%Z with (Z.of_nat k - 1)%Z by lia.
      exact IH.
    + cbn [bind M_monad]. rewrite E. reflexivity.
Qed.

Hypothesis Hgd : tables_complete gd.
Hypothesis Hloss : loss_type gd = "noisepred"%string.
Hypothesis Hnoise : noise_shaped noise_fn.
Hypothesis Hdenoise : shape_preserving denoise_fn [B; H; W; C].

Lemma fill_t_valid (i : Z) :
  (0 <= i < Z.of_nat (num_timesteps gd))%Z ->
  length (fill_t [B; H; W; C] i) = B /\
  Forall (valid_index (num_timesteps gd)) (fill_t [B; H; W; C] i).
Proof.
  intros Hi. unfold fill_t; cbn [hd]. split; [apply repeat_length |].
  apply Forall_forall. intros j Hj. apply repeat_spec in Hj. subst. exact Hi.
Qed.

(** A chain of steps through valid timesteps succeeds, keeps the shape and
    records one call per timestep. *)
Lemma reverse_steps_ok (ts : list Z) : forall img w,
  has_shape img [B; H; W; C] ->
  Forall (valid_index (num_timesteps gd)) ts ->
  exists img' w',
    reverse_steps gd denoise_fn noise_fn B H W C ts img w = (Ok img', w') /\
    has_shape img' [B; H; W; C] /\
    calls w' = calls w ++ map (fun i => (fill_t [B; H; W; C] i, false)) ts.
Proof.
  induction ts as [| i ts IH]; intros img w Himg Hts.
  - exists img, w. cbn [reverse_steps map]. rewrite app_nil_r. auto.
  - inversion Hts as [| ? ? Hi Hts']; subst.
    destruct (fill_t_valid i Hi) as [Hl Hv].
    destruct (p_sample_ok gd Hgd Hloss denoise_fn noise_fn Hnoise B H W C Hdenoise
                img (fill_t [B; H; W; C] i) true false w Himg Hl Hv)
      as [mean [pv [noise [w1 [_ [_ [_ [_ [_ [Hps [Hout Hc]]]]]]]]]]].
    destruct (IH _ w1 Hout Hts') as [img' [w' [Hrun [Hs' Hc']]]].
    exists img', w'. split; [| split; [exact Hs' |]].
    + cbn [reverse_steps]. run_bind ltac:(exact Hps). exact Hrun.
    + rewrite Hc', Hc. cbn [map]. rewrite <- app_assoc. reflexivity.
Qed.

End Loops.

Lemma draw_run {rng : Type} (noise_fn : noise_source rng) (s : list nat)
      (w : world rng) :
  draw noise_fn s w
  = (Ok (fst (noise_fn s (rng_state w))),
     mkWorld (snd (noise_fn s (rng_state w))) (calls w)).
Proof. unfold draw. destruct (noise_fn s (rng_state w)); reflexivity. Qed.

(** The run of [p_sample_loop] on a supported configuration. *)
Lemma p_sample_loop_run {rng : Type} (gd : GaussianDiffusion)
      (denoise_fn : denoiser) (noise_fn : noise_source rng) (B H W C : nat)
      (fuel : nat) (w : world rng) :
  tables_complete gd -> loss_type gd = "noisepred"%string ->
  shape_preserving denoise_fn [B; H; W; C] -> noise_shaped noise_fn ->
  (num_timesteps gd < fuel)%nat ->
  let T := num_timesteps gd in
  let img_0 := fst (noise_fn [B; H; W; C] (rng_state w)) in
  let w0 := mkWorld (snd (noise_fn [B; H; W; C] (rng_state w))) (calls w) in
  exists img w',
    p_sample_loop gd fuel denoise_fn [B; H; W; C] noise_fn w = (Ok img, w') /\
    has_shape img [B; H; W; C] /\
    reverse_steps gd denoise_fn noise_fn B H W C (countdown T) img_0 w0
    = (Ok img, w') /\
    calls w' = calls w ++ map (fun i => (repeat i B, false)) (countdown T).
Proof.
  intros Hgd Hloss Hd Hn Hfuel T img_0 w0.
  assert (Hvalid : Forall (valid_index T) (countdown T)).
  { apply Forall_forall. intros j Hj. apply down_from_In in Hj.
    unfold valid_index. lia. }
  destruct (reverse_steps_ok gd denoise_fn noise_fn B H W C Hgd Hloss Hn Hd
              (countdown T) img_0 w0 (Hn _ _) Hvalid)
    as [img [w' [Hrun [Hs Hc]]]].
  exists img, w'. split; [| split; [exact Hs | split; [exact Hrun | exact Hc]]].
  unfold p_sample_loop.
  run_bind ltac:(apply draw_run).
  run_bind ltac:(rewrite sample_loop_unroll by exact Hfuel;
                 run_bind ltac:(exact Hrun); reflexivity).
  run_assert ltac:(rewrite (proj1 Hs); apply same_shape_refl).
  reflexivity.
Qed.

(** ** Unsupported loss kinds *)

Section Unsupported.

Context {rng : Type}.
Variable random_normal : noise_source rng.
Variable gd : GaussianDiffusion.
Hypothesis Hkind : String.eqb (loss_type gd) "noisepred" = false.

Lemma p_mean_variance_unsupported (denoise_fn : denoiser) (x : Tensor)
      (t : list Z) (clip_denoised : bool) :
  p_mean_variance gd denoise_fn x t clip_denoised
  = Err (NotImplementedError (loss_type gd)).
Proof. unfold p_mean_variance. rewrite Hkind. reflexivity. Qed.

Lemma p_sample_unsupported (denoise_fn : denoiser) (x : Tensor) (t : list Z)
      (noise_fn : noise_source rng) (clip_denoised repeat_noise : bool)
      (w : world rng) :
  p_sample gd denoise_fn x t noise_fn clip_denoised repeat_noise w
  = (Err (NotImplementedError (loss_type gd)),
     mkWorld (rng_state w) (calls w ++ [(t, repeat_noise)])).
Proof.
  unfold p_sample, record_call, lift. cbn [bind M_monad].
  rewrite p_mean_variance_unsupported. reflexivity.
Qed.

Hypothesis Hsteps : (0 < num_timesteps gd)%nat.

Lemma p_sample_loop_unsupported (fuel : nat) (denoise_fn : denoiser)
      (s : list nat) (noise_fn : noise_source rng) (w : world rng) :
  (0 < fuel)%nat ->
  fst (p_sample_loop gd fuel denoise_fn s noise_fn w)
  = Err (NotImplementedError (loss_type gd)).
Proof.
  intros Hf. destruct fuel as [| fuel]; [lia |].
  unfold p_sample_loop.
  rewrite (M_bind_ok _ _ _ _ _ (draw_run noise_fn s w)).
  erewrite M_bind_err; [reflexivity |]. cbn [while_loop].
  replace (0 <=? Z.of_nat (num_timesteps gd) - 1)%Z with true
    by (symmetry; apply Z.leb_le; lia).
  apply M_bind_err. apply M_bind_err. apply p_sample_unsupported.
Qed.



End Unsupported.

Section UnsupportedLoss.

Context {rng : Type}.
Variable random_normal : noise_source rng.
Variable gd : GaussianDiffusion.
Hypothesis Hkind : String.eqb (loss_type gd) "noisepred" = false.






End UnsupportedLoss.

(** ** The trajectory loops *)

Section Trajectory.

Context {rng : Type}.
Variable gd : GaussianDiffusion.
Variable denoise_fn : denoiser.
Variable noise_fn : noise_source rng.
Variables B H W C : nat.
Hypothesis Hgd : tables_complete gd.
Hypothesis Hloss : loss_type gd = "noisepred"%string.
Hypothesis Hnoise : noise_shaped noise_fn.
Hypothesis Hdenoise : shape_preserving denoise_fn [B; H; W; C].

(** A loop over [trajectory_body] whose condition [c] reads the last time:
    started at time [i], it makes [k] steps when [c] holds on the [k] times
    from [i] down and fails on the next. *)
Lemma trajectory_loop_run (flag : bool) (c : Z -> bool) (k : nat) :
  forall fuel times imgs w i,
  (k < fuel)%nat -> last times 0%Z = i ->
  (i < Z.of_nat (num_timesteps gd))%Z -> (-1 <= i - Z.of_nat k)%Z ->
  (forall j, (i - Z.of_nat k < j <= i)%Z -> c j = true) ->
  c (i - Z.of_nat k)%Z = false ->
  has_shape (last imgs empty_tensor) [B; H; W; C] ->
  exists times' imgs' w',
    while_loop fuel (fun '(times_, _) => c (last times_ 0%Z))
               (trajectory_body gd denoise_fn [B; H; W; C] noise_fn flag)
               (times, imgs) w
    = (Ok (times', imgs'), w') /\
    times' = times ++ down_from (i - 1) k /\
    last times' 0%Z = (i - Z.of_nat k)%Z /\
    length imgs' = (length imgs + k)%nat /\
    has_shape (last imgs' empty_tensor) [B; H; W; C] /\
    calls w' = calls w ++ map (fun j => (fill_t [B; H; W; C] j, flag)) (down_from i k).
Proof.
  induction k as [| k IH]; intros fuel times imgs w i Hf Hlast Hi Hlow Hc Hstop Himg;
    (destruct fuel as [| fuel]; [lia |]); cbn [while_loop].
  - replace (i - Z.of_nat 0)%Z with i in * by lia.
    rewrite Hlast, Hstop. exists times, imgs, w. cbn [down_from map].
    rewrite !app_nil_r, Nat.add_0_r.
    split; [reflexivity |]. split; [reflexivity |]. split; [exact Hlast |].
    split; [reflexivity |]. split; [exact Himg | reflexivity].
  - rewrite Hlast, (Hc i) by lia.
    assert (Hrange : (0 <= i < Z.of_nat (num_timesteps gd))%Z) by lia.
    destruct (fill_t_valid gd B H W C i Hrange) as [Hl Hv].
    destruct (p_sample_ok gd Hgd Hloss denoise_fn noise_fn Hnoise B H W C Hdenoise
                (last imgs empty_tensor) (fill_t [B; H; W; C] i) true flag w
                Himg Hl Hv)
      as [mean [pv [noise [w1 [_ [_ [_ [_ [_ [Hps [Hout Hcalls]]]]]]]]]]].
    set (img' := tadd mean (tmul (tmul (mask_tensor (fill_t [B; H; W; C] i))
                                       (sigma_tensor gd (fill_t [B; H; W; C] i)))
                                 noise)) in *.
    destruct (IH fuel (times ++ [(i - 1)%Z]) (imgs ++ [img']) w1 (i - 1)%Z)
      as [times' [imgs' [w' [Hrun [Ht [Hl' [Hn' [Hs' Hc']]]]]]]].
    + lia.
    + apply last_last.
    + lia.
    + lia.
    + intros j Hj. apply Hc. lia.
    + rewrite <- Hstop. f_equal. lia.
    + rewrite last_last. exact Hout.
    + exists times', imgs', w'.
      split; [| split; [| split; [| split; [| split]]]].
      * run_bind ltac:(unfold trajectory_body; rewrite Hlast;
                       run_bind ltac:(exact Hps); reflexivity).
        exact Hrun.
      * rewrite Ht, <- app_assoc. reflexivity.
      * rewrite Hl'. lia.
      * rewrite Hn', length_app. simpl. lia.
      * exact Hs'.
      * rewrite Hc', Hcalls, <- app_assoc. reflexivity.
Qed.

(** The run of [p_sample_loop_trajectory] when [repeat_noise_steps] does not
    exceed the number of timesteps: [T] steps, the first [repeat_noise_steps]
    of them with repeated noise. *)
Lemma p_sample_loop_trajectory_run (fuel : nat) (repeat_noise_steps : Z)
      (w : world rng) :
  let T := num_timesteps gd in
  (repeat_noise_steps <= Z.of_nat T)%Z -> (T < fuel)%nat ->
  exists times imgs w',
    p_sample_loop_trajectory gd fuel denoise_fn [B; H; W; C] noise_fn
                             repeat_noise_steps w
    = (Ok (times, imgs), w') /\
    times = down_from (Z.of_nat T - 1) (S T) /\
    length imgs = S T /\
    calls w' = calls w ++
               map (fun j => (repeat j B, (Z.of_nat T - j <=? repeat_noise_steps)%Z))
                   (countdown T).
Proof.
  intros T Hr Hfuel.
  set (k1 := Z.to_nat repeat_noise_steps).
  set (k2 := (T - k1)%nat).
  assert (Hk1 : (k1 <= T)%nat) by (unfold k1; lia).
  destruct (noise_like_ok noise_fn Hnoise B H W C (0 <=? repeat_noise_steps)%Z w)
    as [img_0 [w0 [Hnl [Hs0 [Hc0 _]]]]].
  assert (Hon : forall j, (Z.of_nat T - 1 - Z.of_nat k1 < j <= Z.of_nat T - 1)%Z ->
                 (Z.of_nat T - j <=? repeat_noise_steps)%Z = true).
  { intros j Hj. apply Z.leb_le. unfold k1 in Hj. lia. }
  assert (Hoff : (Z.of_nat T - (Z.of_nat T - 1 - Z.of_nat k1)
                  <=? repeat_noise_steps)%Z = false).
  { apply Z.leb_gt. unfold k1. lia. }
  destruct (trajectory_loop_run true
              (fun j => (Z.of_nat T - j <=? repeat_noise_steps)%Z) k1
              fuel [(Z.of_nat T - 1)%Z] [img_0] w0 (Z.of_nat T - 1)%Z
              ltac:(lia) eq_refl ltac:(lia) ltac:(lia) Hon Hoff Hs0)
    as [times1 [imgs1 [w1 [Hrun1 [Ht1 [Hl1 [Hn1 [Hs1 Hc1]]]]]]]].
  assert (Hpos : forall j, (Z.of_nat T - 1 - Z.of_nat k1 - Z.of_nat k2 < j
                            <= Z.of_nat T - 1 - Z.of_nat k1)%Z ->
                  (0 <=? j)%Z = true).
  { intros j Hj. apply Z.leb_le. unfold k2 in Hj. lia. }
  assert (Hneg : (0 <=? Z.of_nat T - 1 - Z.of_nat k1 - Z.of_nat k2)%Z = false).
  { apply Z.leb_gt. unfold k2. lia. }
  destruct (trajectory_loop_run false (fun j => (0 <=? j)%Z) k2
              fuel times1 imgs1 w1 (Z.of_nat T - 1 - Z.of_nat k1)%Z
              ltac:(unfold k2; lia) Hl1 ltac:(lia) ltac:(unfold k2; lia)
              Hpos Hneg Hs1)
    as [times2 [imgs2 [w2 [Hrun2 [Ht2 [Hl2 [Hn2 [Hs2 Hc2]]]]]]]].
  exists times2, imgs2, w2. split; [| split; [| split]].
  - unfold p_sample_loop_trajectory.
    run_bind ltac:(exact Hnl).
    run_bind ltac:(exact Hrun1).
    run_bind ltac:(exact Hrun2).
    run_assert ltac:(rewrite (proj1 Hs2); apply same_shape_refl).
    reflexivity.
  - rewrite Ht2, Ht1.
    change ([(Z.of_nat T - 1)%Z] ++ down_from (Z.of_nat T - 1 - 1) k1)
      with (down_from (Z.of_nat T - 1) (S k1)).
    replace (S T) with (S k1 + k2)%nat by (unfold k2; lia).
    rewrite (down_from_app (S k1)). do 2 f_equal. lia.
  - rewrite Hn2, Hn1. simpl. unfold k2. lia.
  - rewrite Hc2, Hc1, Hc0, <- app_assoc. f_equal.
    replace (countdown T) with (down_from (Z.of_nat T - 1) (k1 + k2))
      by (unfold countdown; f_equal; unfold k2; lia).
    rewrite down_from_app, map_app. f_equal.
    + apply map_ext_in. intros j Hj. apply down_from_In in Hj.
      unfold fill_t; cbn [hd]. f_equal. symmetry. apply Z.leb_le.
      unfold k1 in Hj. lia.
    + apply map_ext_in. intros j Hj. apply down_from_In in Hj.
      unfold fill_t; cbn [hd]. f_equal. symmetry. apply Z.leb_gt.
      unfold k1 in Hj. lia.
Qed.

End Trajectory.

Lemma zero_noise_shaped : noise_shaped zero_noise.
Proof.
  intros s st. unfold has_shape, zero_noise, zeros; simpl.
  split; [reflexivity |]. split; [apply repeat_length |].
  apply Forall_forall. intros r Hr. apply repeat_spec in Hr. subst.
  apply repeat_length.
Defined.

Lemma zero_noise_finite : noise_finite zero_noise.
Proof.
  intros s st. unfold finite_tensor, zero_noise, zeros; simpl.
  apply Forall_forall. intros r Hr. apply repeat_spec in Hr. subst.
  apply Forall_forall. intros x Hx. apply repeat_spec in Hx. subst. exact I.
Defined.

Lemma identity_shape_preserving (s : list nat) :
  shape_preserving identity_denoiser s.
Proof. intros x t Hx. exact Hx. Defined.

Lemma init_loss_type (bs : list R) (lt : string) (gd : GaussianDiffusion) :
  GaussianDiffusion_init bs lt = Ok gd -> loss_type gd = lt.
Proof. intros Hinit. destruct (init_inversion _ _ _ Hinit) as [_ [_ ->]]. reflexivity. Qed.

(** ** [p_sample_loop] *)

(** C2 as stated fails: a table built with another loss kind is a
    [GaussianDiffusion], and on it the loop raises at its first step. *)
Lemma p_sample_loop_fails_on_other_loss_type :
  exists gd,
    GaussianDiffusion_init [1 / 2] "mse" = Ok gd /\
    shape_preserving identity_denoiser [1; 1; 1; 1]%nat /\
    noise_shaped zero_noise /\
    (forall fuel, exists e,
        fst (p_sample_loop gd fuel identity_denoiser [1; 1; 1; 1]%nat zero_noise
                           (mkWorld tt [])) = Err e) /\
    fst (p_sample_loop gd 2 identity_denoiser [1; 1; 1; 1]%nat zero_noise
                       (mkWorld tt [])) = Err (NotImplementedError "mse").
Proof.
  exists (init_attributes [1 / 2] "mse").
  split; [apply init_accepts; [discriminate | repeat constructor; lra] |].
  split; [apply identity_shape_preserving |].
  split; [apply zero_noise_shaped |].
  assert (Hfail : forall fuel, (0 < fuel)%nat ->
            fst (p_sample_loop (init_attributes [1 / 2] "mse") fuel identity_denoiser
                               [1; 1; 1; 1]%nat zero_noise (mkWorld tt []))
            = Err (NotImplementedError "mse")).
  { intros fuel Hf.
    apply (p_sample_loop_unsupported (init_attributes [1 / 2] "mse"));
      [reflexivity | simpl; lia | exact Hf]. }
  split.
  - intros [| fuel].
    + exists FuelExhausted. reflexivity.
    + eexists. apply Hfail. lia.
  - apply Hfail. lia.
Qed.

(** C2, amended.  On a table built with loss kind 'noisepred' from a beta
    sequence of length [T > 0], for every shape [B,H,W,C], [p_sample_loop]
    draws one tensor of that shape, makes exactly [T] reverse steps at
    [t = T-1, ..., 0], each on the output of the one before, and returns a
    tensor of shape [B,H,W,C]. *)
Theorem p_sample_loop_performs_T_steps {rng : Type} (bs : list R)
        (gd : GaussianDiffusion) (denoise_fn : denoiser)
        (noise_fn : noise_source rng) (B H W C : nat) (fuel : nat)
        (w : world rng) :
  GaussianDiffusion_init bs "noisepred" = Ok gd ->
  shape_preserving denoise_fn [B; H; W; C] -> noise_shaped noise_fn ->
  (num_timesteps gd < fuel)%nat ->
  let T := num_timesteps gd in
  let img_0 := fst (noise_fn [B; H; W; C] (rng_state w)) in
  let w0 := mkWorld (snd (noise_fn [B; H; W; C] (rng_state w))) (calls w) in
  exists img w',
    p_sample_loop gd fuel denoise_fn [B; H; W; C] noise_fn w = (Ok img, w') /\
    has_shape img [B; H; W; C] /\
    reverse_steps gd denoise_fn noise_fn B H W C (countdown T) img_0 w0
    = (Ok img, w') /\
    (0 < T)%nat /\ length (countdown T) = T /\
    (forall n, (n < T)%nat -> nth n (countdown T) 0%Z = (Z.of_nat T - 1 - Z.of_nat n)%Z) /\
    calls w' = calls w ++ map (fun i => (repeat i B, false)) (countdown T).
Proof.
  intros Hinit Hd Hn Hfuel T img_0 w0.
  pose proof (init_tables_complete _ _ _ Hinit) as Hgd.
  destruct (p_sample_loop_run gd denoise_fn noise_fn B H W C fuel w Hgd
              (init_loss_type _ _ _ Hinit) Hd Hn Hfuel)
    as [img [w' [Hrun [Hs [Hsteps Hc]]]]].
  exists img, w'. repeat (split; [assumption |]).
  split; [exact (proj1 Hgd) |].
  split; [apply down_from_length |].
  split; [intros n Hlt; apply down_from_nth; exact Hlt | exact Hc].
Qed.

Lemma p_sample_loop_performs_T_steps_witness :
  exists img w',
    p_sample_loop (init_attributes [1 / 2; 1 / 2] "noisepred") 3 identity_denoiser
                  [1; 1; 1; 1]%nat zero_noise (mkWorld tt []) = (Ok img, w') /\
    has_shape img [1; 1; 1; 1]%nat /\
    calls w' = [([1%Z], false); ([0%Z], false)].
Proof.
  destruct (p_sample_loop_performs_T_steps [1 / 2; 1 / 2]
              (init_attributes [1 / 2; 1 / 2] "noisepred")
              identity_denoiser zero_noise 1 1 1 1 3 (mkWorld tt []))
    as [img [w' [Hrun [Hs [_ [_ [_ [_ Hc]]]]]]]].
  - apply init_accepts; [discriminate | repeat constructor; lra].
  - apply identity_shape_preserving.
  - apply zero_noise_shaped.
  - simpl. lia.
  - exists img, w'. split; [exact Hrun |]. split; [exact Hs | exact Hc].
Defined.

(** ** [p_sample_loop_trajectory] *)

(** C3 as stated fails.  With four timesteps and [repeat_noise_steps = 1],
    the step at [t = 2] draws independent noise although more than one step
    remains; with [repeat_noise_steps = 3], the step at [t = 1] repeats the
    noise although fewer than three steps remain. *)
Lemma trajectory_noise_rule_fails :
  let bs := [1 / 2; 1 / 2; 1 / 2; 1 / 2] in
  let run r := p_sample_loop_trajectory (init_attributes bs "noisepred") 5
                 identity_denoiser [2; 1; 1; 1]%nat zero_noise r (mkWorld tt []) in
  GaussianDiffusion_init bs "noisepred" = Ok (init_attributes bs "noisepred") /\
  (exists out w', run 1%Z = (Ok out, w') /\
                  In ([2%Z; 2%Z], false) (calls w') /\
                  ~ Forall (claimed_noise_rule 1) (calls w')) /\
  (exists out w', run 3%Z = (Ok out, w') /\
                  In ([1%Z; 1%Z], true) (calls w') /\
                  ~ Forall (claimed_noise_rule 3) (calls w')).
Proof.
  intros bs run.
  assert (Hinit : GaussianDiffusion_init bs "noisepred"
                  = Ok (init_attributes bs "noisepred"))
    by (apply init_accepts; [discriminate | repeat constructor; lra]).
  pose proof (init_tables_complete _ _ _ Hinit) as Hgd.
  split; [exact Hinit |]. split.
  - destruct (p_sample_loop_trajectory_run (init_attributes bs "noisepred")
                identity_denoiser zero_noise 2 1 1 1 Hgd eq_refl zero_noise_shaped
                (identity_shape_preserving _) 5 1%Z (mkWorld tt []))
      as [times [imgs [w' [Hrun [_ [_ Hc]]]]]]; [simpl; lia | simpl; lia |].
    exists (times, imgs), w'. split; [exact Hrun |].
    assert (Hcalls : calls w' = [([3%Z; 3%Z], true); ([2%Z; 2%Z], false);
                                 ([1%Z; 1%Z], false); ([0%Z; 0%Z], false)])
      by (rewrite Hc; reflexivity).
    rewrite Hcalls. split; [simpl; auto |].
    intros Hall. rewrite Forall_forall in Hall.
    destruct (Hall ([2%Z; 2%Z], false) ltac:(simpl; auto) 2%Z ltac:(simpl; auto))
      as [Hrep _].
    discriminate Hrep. lia.
  - destruct (p_sample_loop_trajectory_run (init_attributes bs "noisepred")
                identity_denoiser zero_noise 2 1 1 1 Hgd eq_refl zero_noise_shaped
                (identity_shape_preserving _) 5 3%Z (mkWorld tt []))
      as [times [imgs [w' [Hrun [_ [_ Hc]]]]]]; [simpl; lia | simpl; lia |].
    exists (times, imgs), w'. split; [exact Hrun |].
    assert (Hcalls : calls w' = [([3%Z; 3%Z], true); ([2%Z; 2%Z], true);
                                 ([1%Z; 1%Z], true); ([0%Z; 0%Z], false)])
      by (rewrite Hc; reflexivity).
    rewrite Hcalls. split; [simpl; auto |].
    intros Hall. rewrite Forall_forall in Hall.
    destruct (Hall ([1%Z; 1%Z], true) ltac:(simpl; auto) 1%Z ltac:(simpl; auto))
      as [_ Hind].
    discriminate Hind. lia.
Qed.

(** *** Every call of the trajectory loops follows the rule *)

Section Calls.

Context {rng : Type}.

Lemma keeps_calls_ret {A} (a : A) : keeps_calls (rng := rng) (ret a).
Proof. intros w. reflexivity. Qed.

Lemma keeps_calls_raise {A} (e : error) : keeps_calls (rng := rng) (A := A) (raise e).
Proof. intros w. reflexivity. Qed.

Lemma keeps_calls_lift {A} (c : result A) : keeps_calls (rng := rng) (lift c).
Proof. intros w. reflexivity. Qed.

Lemma keeps_calls_assert (b : bool) : keeps_calls (rng := rng) (assert b).
Proof. intros w. destruct b; reflexivity. Qed.

Lemma keeps_calls_draw (noise_fn : noise_source rng) (s : list nat) :
  keeps_calls (draw noise_fn s).
Proof. intros w. rewrite draw_run. reflexivity. Qed.

Lemma keeps_calls_bind {A B} (c : M rng A) (k : A -> M rng B) :
  keeps_calls c -> (forall a, keeps_calls (k a)) -> keeps_calls (x <- c ;; k x).
Proof.
  intros Hc Hk w. cbn [bind M_monad]. specialize (Hc w).
  destruct (c w) as [[a | e] w1]; simpl in Hc |- *.
  - rewrite Hk. exact Hc.
  - exact Hc.
Qed.

Lemma keeps_calls_noise_like (s : list nat) (noise_fn : noise_source rng)
      (repeat_noise : bool) :
  keeps_calls (noise_like s noise_fn repeat_noise).
Proof.
  unfold noise_like. destruct repeat_noise; [| apply keeps_calls_draw].
  apply keeps_calls_bind; [apply keeps_calls_draw |].
  intros n. destruct s; [apply keeps_calls_raise | apply keeps_calls_ret].
Qed.

Variable gd : GaussianDiffusion.
Variable denoise_fn : denoiser.
Variable noise_fn : noise_source rng.

(** Whatever its outcome, [p_sample] records exactly its own call. *)
Lemma p_sample_calls (x : Tensor) (t : list Z) (clip_denoised repeat_noise : bool)
      (w : world rng) :
  calls (snd (p_sample gd denoise_fn x t noise_fn clip_denoised repeat_noise w))
  = calls w ++ [(t, repeat_noise)].
Proof.
  unfold p_sample.
  rewrite (M_bind_ok (record_call t repeat_noise) _ w
             (mkWorld (rng_state w) (calls w ++ [(t, repeat_noise)])) tt eq_refl).
  match goal with |- calls (snd (?c ?w1)) = _ =>
    enough (Hk : keeps_calls c) by (rewrite Hk; reflexivity) end.
  apply keeps_calls_bind; [apply keeps_calls_lift |].
  intros [[mean pv] lv].
  apply keeps_calls_bind; [apply keeps_calls_noise_like |]. intros noise.
  apply keeps_calls_bind; [apply keeps_calls_assert |]. intros _.
  apply keeps_calls_bind; [apply keeps_calls_lift |]. intros mask.
  apply keeps_calls_ret.
Qed.

Variable s : list nat.

(** The calls a loop over [trajectory_body] records: each carries the
    loop's flag and a time on which the loop's condition held, and the
    times do not rise. *)
Lemma trajectory_loop_calls (flag : bool) (c : Z -> bool) (fuel : nat) :
  forall times imgs w,
  let run := while_loop fuel (fun '(times_, _) => c (last times_ 0%Z))
                        (trajectory_body gd denoise_fn s noise_fn flag)
                        (times, imgs) w in
  exists new,
    calls (snd run) = calls w ++ new /\
    Forall (fun call => exists j, fst call = fill_t s j /\ snd call = flag /\
                                  c j = true /\ (j <= last times 0)%Z) new /\
    forall times' imgs', fst run = Ok (times', imgs') ->
                         c (last times' 0%Z) = false /\
                         (last times' 0 <= last times 0)%Z.
Proof.
  induction fuel as [| fuel' IH]; intros times imgs w; cbn [while_loop].
  - exists []. rewrite app_nil_r. split; [reflexivity |].
    split; [constructor | discriminate].
  - destruct (c (last times 0%Z)) eqn:Ec.
    + pose proof (p_sample_calls (last imgs empty_tensor)
                    (fill_t s (last times 0%Z)) true flag w) as Hcall.
      destruct (p_sample gd denoise_fn (last imgs empty_tensor)
                         (fill_t s (last times 0%Z)) noise_fn true flag w)
        as [[img' | e] w1] eqn:Eps; simpl in Hcall.
      * assert (Hbody : trajectory_body gd denoise_fn s noise_fn flag (times, imgs) w
                        = (Ok (times ++ [(last times 0 - 1)%Z], imgs ++ [img']), w1)).
        { unfold trajectory_body. run_bind ltac:(exact Eps). reflexivity. }
        rewrite (M_bind_ok _ _ _ _ _ Hbody).
        destruct (IH (times ++ [(last times 0 - 1)%Z]) (imgs ++ [img']) w1)
          as [new [Hc [Hall Hend]]].
        rewrite last_last in Hall, Hend.
        exists ((fill_t s (last times 0%Z), flag) :: new).
        split; [rewrite Hc, Hcall, <- app_assoc; reflexivity |]. split.
        -- constructor.
           ++ exists (last times 0%Z). simpl. repeat split; [exact Ec | lia].
           ++ eapply Forall_impl; [| exact Hall].
              intros call [j [H1 [H2 [H3 H4]]]]. exists j.
              repeat split; try assumption. lia.
        -- intros times' imgs' Hok. destruct (Hend times' imgs' Hok).
           split; [assumption | lia].
      * assert (Hbody : trajectory_body gd denoise_fn s noise_fn flag (times, imgs) w
                        = (Err e, w1)).
        { unfold trajectory_body. apply M_bind_err. exact Eps. }
        rewrite (M_bind_err _ _ _ _ _ Hbody).
        exists [(fill_t s (last times 0%Z), flag)]. simpl.
        split; [exact Hcall |]. split; [| discriminate].
        constructor; [| constructor].
        exists (last times 0%Z). simpl. repeat split; [exact Ec | lia].
    + exists []. simpl. rewrite app_nil_r. split; [reflexivity |].
      split; [constructor |]. intros times' imgs' Hok.
      injection Hok as <- <-. split; [exact Ec | lia].
Qed.

End Calls.

(** Every call [p_sample_loop_trajectory] records follows [noise_rule],
    whatever the configuration and the outcome of the run. *)
Lemma p_sample_loop_trajectory_calls {rng : Type} (gd : GaussianDiffusion)
      (denoise_fn : denoiser) (noise_fn : noise_source rng) (B H W C : nat)
      (fuel : nat) (repeat_noise_steps : Z) (w : world rng) :
  exists new,
    calls (snd (p_sample_loop_trajectory gd fuel denoise_fn [B; H; W; C] noise_fn
                                         repeat_noise_steps w))
    = calls w ++ new /\
    Forall (noise_rule (num_timesteps gd) B repeat_noise_steps) new.
Proof.
  unfold p_sample_loop_trajectory.
  pose proof (keeps_calls_noise_like [B; H; W; C] noise_fn
                (0 <=? repeat_noise_steps)%Z w) as Hk0.
  cbn [bind M_monad].
  destruct (noise_like [B; H; W; C] noise_fn (0 <=? repeat_noise_steps)%Z w)
    as [[img_0 | e] w0]; simpl in Hk0;
    [| exists []; simpl; rewrite app_nil_r; split; [exact Hk0 | constructor]].
  destruct (trajectory_loop_calls gd denoise_fn noise_fn [B; H; W; C] true
              (fun j => (Z.of_nat (num_timesteps gd) - j <=? repeat_noise_steps)%Z)
              fuel [(Z.of_nat (num_timesteps gd) - 1)%Z] [img_0] w0)
    as [new1 [Hc1 [Hall1 Hend1]]].
  assert (Hrule1 : Forall (noise_rule (num_timesteps gd) B repeat_noise_steps) new1).
  { eapply Forall_impl; [| exact Hall1].
    intros call [j [H1 [H2 [H3 _]]]]. exists j. rewrite H1, H2, H3. split; reflexivity. }
  destruct (while_loop fuel _ (trajectory_body gd denoise_fn [B; H; W; C] noise_fn true)
                       _ w0) as [[[times1 imgs1] | e] w1]; simpl in Hc1;
    [| exists new1; simpl; split; [rewrite Hc1, Hk0; reflexivity | exact Hrule1]].
  destruct (Hend1 times1 imgs1 eq_refl) as [Hoff _].
  apply Z.leb_gt in Hoff.
  destruct (trajectory_loop_calls gd denoise_fn noise_fn [B; H; W; C] false
              (fun j => (0 <=? j)%Z) fuel times1 imgs1 w1)
    as [new2 [Hc2 [Hall2 _]]].
  assert (Hrule2 : Forall (noise_rule (num_timesteps gd) B repeat_noise_steps) new2).
  { eapply Forall_impl; [| exact Hall2].
    intros call [j [H1 [H2 [_ H4]]]]. exists j. rewrite H1, H2.
    split; [reflexivity |]. symmetry. apply Z.leb_gt. lia. }
  exists (new1 ++ new2).
  split; [| apply Forall_app; split; assumption].
  destruct (while_loop fuel _ (trajectory_body gd denoise_fn [B; H; W; C] noise_fn false)
                       _ w1) as [[[times2 imgs2] | e] w2]; simpl in Hc2.
  - rewrite app_assoc, <- Hk0, <- Hc1, <- Hc2.
    destruct (same_shape (shape (last imgs2 empty_tensor)) [B; H; W; C]); reflexivity.
  - simpl. rewrite app_assoc, <- Hk0, <- Hc1, <- Hc2. reflexivity.
Qed.

(** C3, amended.  Every step of the trajectory loops, at timestep [t],
    calls [p_sample] with [repeat_noise = true] exactly when
    [T - t <= repeat_noise_steps], that is in the first [repeat_noise_steps]
    steps, and with [repeat_noise = false] in every later step; this holds
    of every call made, whatever the configuration and the outcome.  On a
    table built with loss kind 'noisepred' and with
    [repeat_noise_steps <= T], the loops make [T] steps at
    [t = T-1, ..., 0] and return the [T + 1] times visited and the [T + 1]
    images. *)
Theorem trajectory_repeats_noise_in_first_steps {rng : Type} (bs : list R)
        (gd : GaussianDiffusion) (denoise_fn : denoiser)
        (noise_fn : noise_source rng) (B H W C : nat) (fuel : nat)
        (repeat_noise_steps : Z) (w : world rng) :
  let T := num_timesteps gd in
  let run := p_sample_loop_trajectory gd fuel denoise_fn [B; H; W; C] noise_fn
                                      repeat_noise_steps w in
  (exists new,
      calls (snd run) = calls w ++ new /\
      Forall (noise_rule T B repeat_noise_steps) new) /\
  (GaussianDiffusion_init bs "noisepred" = Ok gd ->
   shape_preserving denoise_fn [B; H; W; C] -> noise_shaped noise_fn ->
   (repeat_noise_steps <= Z.of_nat T)%Z ->
   (T < fuel)%nat ->
   exists times imgs w',
     run = (Ok (times, imgs), w') /\
     times = down_from (Z.of_nat T - 1) (S T) /\
     length imgs = S T /\
     calls w' = calls w ++
                map (fun t => (repeat t B, (Z.of_nat T - t <=? repeat_noise_steps)%Z))
                    (countdown T)).
Proof.
  intros T run. split.
  - apply p_sample_loop_trajectory_calls.
  - intros Hinit Hd Hn Hr Hfuel.
    exact (p_sample_loop_trajectory_run gd denoise_fn noise_fn B H W C
             (init_tables_complete _ _ _ Hinit) (init_loss_type _ _ _ Hinit)
             Hn Hd fuel repeat_noise_steps w Hr Hfuel).
Qed.

Lemma trajectory_repeats_noise_in_first_steps_witness :
  exists times imgs w',
    p_sample_loop_trajectory (init_attributes [1 / 2; 1 / 2; 1 / 2] "noisepred") 4
                             identity_denoiser [2; 1; 1; 1]%nat zero_noise 2
                             (mkWorld tt [])
    = (Ok (times, imgs), w') /\
    times = [2; 1; 0; -1]%Z /\
    calls w' = [([2; 2]%Z, true); ([1; 1]%Z, true); ([0; 0]%Z, false)].
Proof.
  destruct (proj2 (trajectory_repeats_noise_in_first_steps [1 / 2; 1 / 2; 1 / 2]
                     (init_attributes [1 / 2; 1 / 2; 1 / 2] "noisepred")
                     identity_denoiser zero_noise 2 1 1 1 4 2 (mkWorld tt [])))
    as [times [imgs [w' [Hrun [Ht [_ Hc]]]]]].
  - apply init_accepts; [discriminate | repeat constructor; lra].
  - apply identity_shape_preserving.
  - apply zero_noise_shaped.
  - simpl. lia.
  - simpl. lia.
  - exists times, imgs, w'. split; [exact Hrun |]. split; [exact Ht | exact Hc].
Defined.

(** ** Unsupported loss kinds, on a constructed table *)



(** ** Instances of the step and the loss *)

Lemma p_sample_mean_plus_masked_noise_witness :
  exists mean pv log_variance out w',
    p_mean_variance (init_attributes [1 / 2] "noisepred") identity_denoiser
                    (zeros [1; 1; 1; 1]%nat) [0%Z] true
    = Ok (mean, pv, log_variance) /\
    p_sample (init_attributes [1 / 2] "noisepred") identity_denoiser
             (zeros [1; 1; 1; 1]%nat) [0%Z] zero_noise true false (mkWorld tt [])
    = (Ok out, w') /\
    nth 0 (rows out) [] = nth 0 (rows mean) [].
Proof.
  destruct (proj2 (p_sample_mean_plus_masked_noise [1 / 2]
                     (init_attributes [1 / 2] "noisepred") identity_denoiser
                     zero_noise 1 1 1 1 (zeros [1; 1; 1; 1]%nat) [0%Z] true false
                     (mkWorld tt [])))
    as [mean [pv [lv [noise [w' [out [Hpmv [_ [_ [Hps [_ Hrow]]]]]]]]]]].
  - apply init_accepts; [discriminate | repeat constructor; lra].
  - apply identity_shape_preserving.
  - apply zero_noise_shaped.
  - apply zero_noise_finite.
  - apply (zero_noise_shaped [1; 1; 1; 1]%nat tt).
  - reflexivity.
  - constructor; [| constructor]. unfold valid_index; simpl; lia.
  - exists mean, pv, lv, out, w'. split; [exact Hpmv |]. split; [exact Hps |].
    apply Hrow; [lia | reflexivity].
Defined.

Lemma p_losses_noisepred_witness :
  exists x_noisy losses,
    p_losses zero_noise (init_attributes [1 / 2] "noisepred") identity_denoiser
             (zeros [1; 1; 1; 1]%nat) [0%Z] None (mkWorld tt [])
    = (Ok losses, mkWorld tt []) /\
    length losses = 1%nat /\
    nth 0 losses NaN
    = mean_squared_error 1 [Fin 0] (nth 0 (rows (identity_denoiser x_noisy [0%Z])) []).
Proof.
  destruct (p_losses_noisepred zero_noise [1 / 2]
              (init_attributes [1 / 2] "noisepred") identity_denoiser 1 1 1 1
              (zeros [1; 1; 1; 1]%nat) [0%Z] None (mkWorld tt []))
    as [x_noisy [losses [_ [Hrun [Hlen Hval]]]]].
  - apply init_accepts; [discriminate | repeat constructor; lra].
  - apply (zero_noise_shaped [1; 1; 1; 1]%nat tt).
  - reflexivity.
  - constructor; [| constructor]. unfold valid_index; simpl; lia.
  - apply identity_shape_preserving.
  - apply zero_noise_shaped.
  - discriminate.
  - exists x_noisy, losses. split; [exact Hrun |]. split; [exact Hlen |].
    apply (Hval 0%nat). lia.
Defined.

(** * Further properties of the code *)

(** ** Beta schedules *)

Lemma removelast_snoc {A} (l : list A) (x : A) : removelast (l ++ [x]) = l.
Proof. apply removelast_last. Qed.

(** [linspace] with at least two samples: the interpolated samples but the
    last, then [stop]. *)
Lemma linspace_unfold (start stop : R) (m : nat) :
  linspace start stop (S (S m))
  = map (fun i => INR i * ((stop - start) / INR (S m)) + start) (seq 0 (S m))
    ++ [stop].
Proof.
  unfold linspace.
  replace (S (S m) - 1)%nat with (S m) by lia.
  rewrite (seq_S (S m) 0), map_app. cbn [map]. rewrite removelast_snoc.
  reflexivity.
Qed.

Lemma linspace_length (start stop : R) (n : nat) :
  length (linspace start stop n) = n.
Proof.
  destruct n as [| [| m]]; try reflexivity.
  rewrite linspace_unfold, length_app, length_map, length_seq. simpl. lia.
Qed.

Lemma scaled_ones_length (b : R) (n : nat) : length (scaled_ones b n) = n.
Proof. unfold scaled_ones. now rewrite length_map, repeat_length. Qed.

Lemma py_int_div (T d : Z) :
  (0 <= T)%Z -> (0 < d)%Z -> py_int (IZR T * (1 / IZR d)) = (T / d)%Z.
Proof.
  intros HT Hd.
  assert (Hdr : 0 < IZR d) by (apply IZR_lt; exact Hd).
  assert (HTr : 0 <= IZR T) by (apply IZR_le; exact HT).
  assert (Hr : 0 <= IZR T * (1 / IZR d)).
  { apply Rmult_le_pos; [exact HTr |]. unfold Rdiv. rewrite Rmult_1_l.
    left. apply Rinv_0_lt_compat. exact Hdr. }
  unfold py_int. destruct (Rle_dec 0 (IZR T * (1 / IZR d))) as [_ | N];
    [| contradiction].
  symmetry. apply Int_part_spec.
  pose proof (Z.mul_div_le T d Hd) as Hlo.
  pose proof (Z.mul_succ_div_gt T d Hd) as Hhi.
  apply IZR_le in Hlo. apply IZR_lt in Hhi.
  rewrite mult_IZR in Hlo. rewrite mult_IZR, succ_IZR in Hhi.
  set (q := IZR (T / d)) in *.
  replace (IZR T * (1 / IZR d)) with (IZR T / IZR d) by (field; lra).
  split.
  - apply (Rmult_lt_reg_r (IZR d)); [exact Hdr |].
    replace ((IZR T / IZR d - 1) * IZR d) with (IZR T - IZR d) by (field; lra).
    lra.
  - apply (Rmult_le_reg_r (IZR d)); [exact Hdr |].
    replace (IZR T / IZR d * IZR d) with (IZR T) by (field; lra).
    lra.
Qed.

Lemma warmup_beta_ok (beta_start beta_end : R) (T d : Z) :
  (0 <= T)%Z -> (0 < d)%Z ->
  _warmup_beta beta_start beta_end T (1 / IZR d)
  = Ok (linspace beta_start beta_end (Z.to_nat (T / d))
        ++ skipn (Z.to_nat (T / d)) (scaled_ones beta_end (Z.to_nat T))).
Proof.
  intros HT Hd. unfold _warmup_beta.
  replace (T <? 0)%Z with false by (symmetry; apply Z.ltb_ge; exact HT).
  rewrite (py_int_div T d HT Hd).
  assert (Hq : (0 <= T / d <= T)%Z).
  { split; [apply Z.div_pos; lia |]. apply Z.div_le_upper_bound; nia. }
  replace (T / d <? 0)%Z with false by (symmetry; apply Z.ltb_ge; lia).
  replace (T / d <=? T)%Z with true by (symmetry; apply Z.leb_le; lia).
  reflexivity.
Qed.

Lemma warmup_beta_length (beta_start beta_end : R) (T d : Z) :
  (0 <= T)%Z -> (0 < d)%Z ->
  length (linspace beta_start beta_end (Z.to_nat (T / d))
          ++ skipn (Z.to_nat (T / d)) (scaled_ones beta_end (Z.to_nat T)))
  = Z.to_nat T.
Proof.
  intros HT Hd.
  assert (Hq : (0 <= T / d <= T)%Z).
  { split; [apply Z.div_pos; lia |]. apply Z.div_le_upper_bound; nia. }
  rewrite length_app, linspace_length, length_skipn, scaled_ones_length. lia.
Qed.

(** X1.  [get_beta_schedule] raises the unsupported-schedule error on a kind
    it does not know, whatever the other arguments; on each kind it knows it
    raises a value error for a negative length and otherwise returns exactly
    [T] betas: its final assertion never fails. *)
Theorem get_beta_schedule_total (kind : string) (beta_start beta_end : R) (T : Z) :
  (~ supported_schedule kind ->
   get_beta_schedule kind beta_start beta_end T = Err (NotImplementedError kind)) /\
  (supported_schedule kind -> (T < 0)%Z ->
   get_beta_schedule kind beta_start beta_end T = Err ValueError) /\
  (supported_schedule kind -> (0 <= T)%Z ->
   exists betas, get_beta_schedule kind beta_start beta_end T = Ok betas /\
                 length betas = Z.to_nat T).
Proof.
  unfold supported_schedule, get_beta_schedule, checked_length.
  split; [| split].
  - intros Hn.
    repeat match goal with
    | |- context [String.eqb kind ?k] =>
        destruct (String.eqb_spec kind k) as [-> | _];
        [exfalso; apply Hn; simpl; tauto |]
    end.
    reflexivity.
  - intros Hs Hneg.
    assert (Hlt : (T <? 0)%Z = true) by (apply Z.ltb_lt; exact Hneg).
    simpl in Hs.
    destruct Hs as [<- | [<- | [<- | [<- | [<- | [<- | []]]]]]]; cbn [String.eqb Ascii.eqb Bool.eqb];
      unfold _warmup_beta; rewrite Hlt; reflexivity.
  - intros Hs Hpos.
    assert (Hlt : (T <? 0)%Z = false) by (apply Z.ltb_ge; exact Hpos).
    assert (Hlen : forall n, n = Z.to_nat T -> (Z.of_nat n =? T)%Z = true)
      by (intros n ->; apply Z.eqb_eq; lia).
    simpl in Hs.
    destruct Hs as [<- | [<- | [<- | [<- | [<- | [<- | []]]]]]]; cbn [String.eqb Ascii.eqb Bool.eqb].
    + rewrite Hlt. rewrite Hlen by (now rewrite length_map, linspace_length).
      eexists; split; [reflexivity |]. now rewrite length_map, linspace_length.
    + rewrite Hlt. rewrite Hlen by apply linspace_length.
      eexists; split; [reflexivity | apply linspace_length].
    + rewrite (warmup_beta_ok beta_start beta_end T 10 Hpos) by lia.
      rewrite Hlen by (apply warmup_beta_length; lia).
      eexists; split; [reflexivity | apply warmup_beta_length; lia].
    + rewrite (warmup_beta_ok beta_start beta_end T 2 Hpos) by lia.
      rewrite Hlen by (apply warmup_beta_length; lia).
      eexists; split; [reflexivity | apply warmup_beta_length; lia].
    + rewrite Hlt. rewrite Hlen by apply scaled_ones_length.
      eexists; split; [reflexivity | apply scaled_ones_length].
    + rewrite Hlt. rewrite Hlen by (now rewrite length_map, linspace_length).
      eexists; split; [reflexivity |]. now rewrite length_map, linspace_length.
Qed.

Lemma get_beta_schedule_total_witness :
  get_beta_schedule "cosine" (1 / 10) (1 / 5) 4 = Err (NotImplementedError "cosine") /\
  get_beta_schedule "linear" (1 / 10) (1 / 5) (-1) = Err ValueError /\
  exists betas, get_beta_schedule "warmup10" (1 / 10) (1 / 5) 25 = Ok betas /\
                length betas = 25%nat.
Proof.
  split; [| split].
  - apply (proj1 (get_beta_schedule_total "cosine" (1 / 10) (1 / 5) 4)).
    unfold supported_schedule. simpl.
    intros [H | [H | [H | [H | [H | [H | []]]]]]]; discriminate H.
  - apply (proj1 (proj2 (get_beta_schedule_total "linear" (1 / 10) (1 / 5) (-1))));
      [unfold supported_schedule; simpl; tauto | lia].
  - apply (proj2 (proj2 (get_beta_schedule_total "warmup10" (1 / 10) (1 / 5) 25)));
      [unfold supported_schedule; simpl; tauto | lia].
Defined.

(** The betas each known kind returns for a length [T >= 0]. *)
Lemma get_beta_schedule_values (beta_start beta_end : R) (T : Z) :
  (0 <= T)%Z ->
  let n := Z.to_nat T in
  get_beta_schedule "quad" beta_start beta_end T
  = Ok (map (fun x => x ^ 2) (linspace (sqrt beta_start) (sqrt beta_end) n)) /\
  get_beta_schedule "linear" beta_start beta_end T
  = Ok (linspace beta_start beta_end n) /\
  get_beta_schedule "warmup10" beta_start beta_end T
  = Ok (linspace beta_start beta_end (Z.to_nat (T / 10))
        ++ skipn (Z.to_nat (T / 10)) (scaled_ones beta_end n)) /\
  get_beta_schedule "warmup50" beta_start beta_end T
  = Ok (linspace beta_start beta_end (Z.to_nat (T / 2))
        ++ skipn (Z.to_nat (T / 2)) (scaled_ones beta_end n)) /\
  get_beta_schedule "const" beta_start beta_end T = Ok (scaled_ones beta_end n) /\
  get_beta_schedule "jsd" beta_start beta_end T
  = Ok (map (fun x => 1 / x) (linspace (IZR T) 1 n)).
Proof.
  intros Hpos n.
  assert (Hlt : (T <? 0)%Z = false) by (apply Z.ltb_ge; exact Hpos).
  assert (Hlen : forall m, m = Z.to_nat T -> (Z.of_nat m =? T)%Z = true)
    by (intros m ->; apply Z.eqb_eq; lia).
  unfold get_beta_schedule, checked_length. cbn [String.eqb Ascii.eqb Bool.eqb].
  rewrite Hlt.
  rewrite (warmup_beta_ok beta_start beta_end T 10 Hpos) by lia.
  rewrite (warmup_beta_ok beta_start beta_end T 2 Hpos) by lia.
  rewrite !Hlen; try (apply warmup_beta_length; lia);
    try (now rewrite length_map, linspace_length);
    try apply linspace_length; try apply scaled_ones_length.
  repeat split.
Qed.

Lemma between_refl_l (a b : R) : between a b a.
Proof. unfold between. split; [apply Rmin_l | apply Rmax_l]. Qed.

Lemma between_refl_r (a b : R) : between a b b.
Proof. unfold between. split; [apply Rmin_r | apply Rmax_r]. Qed.

Lemma between_convex (a b lam : R) :
  0 <= lam <= 1 -> between a b (lam * (b - a) + a).
Proof.
  intros Hl. unfold between, Rmin, Rmax.
  destruct (Rle_dec a b); split; nra.
Qed.

(** Every sample of [linspace] lies between its two ends. *)
Lemma linspace_between (start stop : R) (n : nat) :
  Forall (between start stop) (linspace start stop n).
Proof.
  destruct n as [| [| m]].
  - constructor.
  - constructor; [apply between_refl_l | constructor].
  - rewrite linspace_unfold. apply Forall_app. split.
    + apply Forall_map, Forall_forall. intros i Hi. apply in_seq in Hi.
      assert (Hm : 0 < INR (S m)) by (apply lt_0_INR; lia).
      assert (Hi' : 0 <= INR i <= INR (S m)).
      { split; [apply pos_INR | apply le_INR; lia]. }
      replace (INR i * ((stop - start) / INR (S m)) + start)
        with (INR i / INR (S m) * (stop - start) + start) by (field; lra).
      apply between_convex. split.
      * apply Rmult_le_pos; [lra | left; apply Rinv_0_lt_compat; exact Hm].
      * apply (Rmult_le_reg_r (INR (S m))); [exact Hm |].
        replace (INR i / INR (S m) * INR (S m)) with (INR i) by (field; lra).
        lra.
    + constructor; [apply between_refl_r | constructor].
Qed.

Lemma between_square (a b y : R) :
  0 <= a -> 0 <= b -> between (sqrt a) (sqrt b) y -> between a b (y ^ 2).
Proof.
  intros Ha Hb [Hlo Hhi].
  pose proof (sqrt_pos a) as Hsa. pose proof (sqrt_pos b) as Hsb.
  pose proof (sqrt_sqrt a Ha) as Ea. pose proof (sqrt_sqrt b Hb) as Eb.
  unfold between, Rmin, Rmax in *.
  destruct (Rle_dec a b) as [Hab | Hab].
  - pose proof (sqrt_le_1 a b Ha Hb Hab) as Hs.
    destruct (Rle_dec (sqrt a) (sqrt b)); [| contradiction].
    split; nra.
  - assert (Hba : b <= a) by lra.
    pose proof (sqrt_le_1 b a Hb Ha Hba) as Hs.
    destruct (Rle_dec (sqrt a) (sqrt b)); split; nra.
Qed.

Lemma scaled_ones_between (a b : R) (n : nat) :
  Forall (between a b) (scaled_ones b n).
Proof.
  unfold scaled_ones. apply Forall_map, Forall_forall. intros o Ho.
  apply repeat_spec in Ho. subst. rewrite Rmult_1_r. apply between_refl_r.
Qed.

Lemma Forall_skipn {A} (P : A -> Prop) (n : nat) (l : list A) :
  Forall P l -> Forall P (skipn n l).
Proof.
  intros H. rewrite <- (firstn_skipn n l) in H.
  apply Forall_app in H. apply H.
Qed.

(** X2.  Over the reals (exact arithmetic): for the kinds 'quad', 'linear',
    'warmup10', 'warmup50' and 'const', with [beta_start] and [beta_end] in
    (0,1] and [T > 0], every beta returned lies between [beta_start] and
    [beta_end], and the schedule is therefore accepted by the constructor,
    which builds a table of [T] timesteps from it.  (In float64 the 'quad'
    schedule squares a rounded root and can leave the interval by one unit
    in the last place.) *)
Theorem interpolating_schedules_accepted (kind : string) (beta_start beta_end : R)
        (T : Z) (lt : string) :
  In kind ["quad"; "linear"; "warmup10"; "warmup50"; "const"]%string ->
  0 < beta_start <= 1 -> 0 < beta_end <= 1 -> (0 < T)%Z ->
  exists betas gd,
    get_beta_schedule kind beta_start beta_end T = Ok betas /\
    Forall (between beta_start beta_end) betas /\
    GaussianDiffusion_init betas lt = Ok gd /\
    num_timesteps gd = Z.to_nat T.
Proof.
  intros Hk Hs He HT.
  destruct (get_beta_schedule_values beta_start beta_end T ltac:(lia))
    as [Hquad [Hlin [Hw10 [Hw50 [Hconst _]]]]].
  assert (Hwarm : forall d, (0 < d)%Z ->
            Forall (between beta_start beta_end)
              (linspace beta_start beta_end (Z.to_nat (T / d))
               ++ skipn (Z.to_nat (T / d)) (scaled_ones beta_end (Z.to_nat T)))).
  { intros d Hd. apply Forall_app. split; [apply linspace_between |].
    apply Forall_skipn, scaled_ones_between. }
  assert (Hmain : exists betas,
             get_beta_schedule kind beta_start beta_end T = Ok betas /\
             Forall (between beta_start beta_end) betas /\
             length betas = Z.to_nat T).
  { simpl in Hk. destruct Hk as [<- | [<- | [<- | [<- | [<- | []]]]]].
    - eexists; split; [exact Hquad |]. split.
      + apply Forall_map. eapply Forall_impl; [| apply linspace_between].
        intros y Hy. apply between_square; [lra | lra | exact Hy].
      + now rewrite length_map, linspace_length.
    - eexists; split; [exact Hlin |].
      split; [apply linspace_between | apply linspace_length].
    - eexists; split; [exact Hw10 |].
      split; [apply Hwarm; lia | apply warmup_beta_length; lia].
    - eexists; split; [exact Hw50 |].
      split; [apply Hwarm; lia | apply warmup_beta_length; lia].
    - eexists; split; [exact Hconst |].
      split; [apply scaled_ones_between | apply scaled_ones_length]. }
  destruct Hmain as [betas [Hget [Hbetween Hlen]]].
  exists betas, (init_attributes betas lt).
  split; [exact Hget |]. split; [exact Hbetween |]. split; [| exact Hlen].
  apply init_accepts.
  - intros ->. simpl in Hlen. lia.
  - eapply Forall_impl; [| exact Hbetween].
    intros b [Hlo Hhi]. unfold in_range, Rmin, Rmax in *.
    destruct (Rle_dec beta_start beta_end); lra.
Qed.

Lemma interpolating_schedules_accepted_witness :
  exists betas gd,
    get_beta_schedule "linear" (1 / 10000) (1 / 50) 4 = Ok betas /\
    Forall (between (1 / 10000) (1 / 50)) betas /\
    GaussianDiffusion_init betas "noisepred" = Ok gd /\
    num_timesteps gd = 4%nat.
Proof.
  apply (interpolating_schedules_accepted "linear" (1 / 10000) (1 / 50) 4 "noisepred").
  - simpl. tauto.
  - lra.
  - lra.
  - lia.
Defined.

(** The samples of the 'jsd' branch: [T, T-1, ..., 1]. *)
Lemma linspace_countdown (n : nat) :
  linspace (INR n) 1 n = map (fun i => INR n - INR i) (seq 0 n).
Proof.
  destruct n as [| [| m]].
  - reflexivity.
  - simpl. f_equal. lra.
  - rewrite linspace_unfold, (seq_S (S m) 0), map_app. cbn [map Nat.add]. f_equal.
    + apply map_ext_in. intros i _.
      assert (Hm : 0 < INR (S m)) by (apply lt_0_INR; lia).
      rewrite (S_INR (S m)). field. lra.
    + rewrite (S_INR (S m)). f_equal. lra.
Qed.

(** The running product of [1 - 1/(N-i)] telescopes. *)
Lemma cumprod_from_telescope (N : R) (m : nat) : forall k acc t,
  INR (k + m) <= N -> acc = (N - INR k) / N -> (t < m)%nat ->
  nth t (cumprod_from acc (map (fun i => 1 - 1 / (N - INR i)) (seq k m))) 0
  = (N - INR k - INR t - 1) / N.
Proof.
  induction m as [| m IH]; intros k acc t Hk Hacc Ht; [lia |].
  rewrite plus_INR, S_INR in Hk. pose proof (pos_INR m) as Hm.
  pose proof (pos_INR k) as Hk0.
  cbn [seq map cumprod_from].
  assert (Hhead : acc * (1 - 1 / (N - INR k)) = (N - INR (S k)) / N).
  { rewrite Hacc, S_INR. field. split; lra. }
  destruct t as [| t]; cbn [nth].
  - rewrite Hhead, S_INR. simpl. f_equal. lra.
  - rewrite (IH (S k) _ t); [| rewrite plus_INR, S_INR; lra | exact Hhead | lia].
    rewrite !S_INR. f_equal. lra.
Qed.

(** X3.  The 'jsd' schedule of length [T > 0] has the betas
    [1/T, 1/(T-1), ..., 1]; the constructor accepts it, and the cumulative
    product it derives is [alphas_cumprod[t] = (T - 1 - t) / T], which
    reaches 0 at the last timestep. *)
Theorem jsd_schedule_alphas_cumprod (beta_start beta_end : R) (T : Z) (lt : string) :
  (0 < T)%Z ->
  exists betas gd,
    get_beta_schedule "jsd" beta_start beta_end T = Ok betas /\
    GaussianDiffusion_init betas lt = Ok gd /\
    num_timesteps gd = Z.to_nat T /\
    forall t, (t < Z.to_nat T)%nat ->
      nth t betas 0 = 1 / (IZR T - INR t) /\
      nth t (alphas_cumprod gd) NaN = Fin ((IZR T - 1 - INR t) / IZR T).
Proof.
  intros HT.
  destruct (get_beta_schedule_values beta_start beta_end T ltac:(lia))
    as [_ [_ [_ [_ [_ Hjsd]]]]].
  set (n := Z.to_nat T) in *.
  assert (HN : IZR T = INR n)
    by (unfold n; rewrite INR_IZR_INZ, Z2Nat.id by lia; reflexivity).
  assert (Hn : (0 < n)%nat) by (unfold n; lia).
  rewrite HN, linspace_countdown, map_map in Hjsd.
  set (betas := map (fun i => 1 / (INR n - INR i)) (seq 0 n)) in *.
  assert (Hlen : length betas = n)
    by (unfold betas; now rewrite length_map, length_seq).
  assert (Hnth : forall t, (t < n)%nat -> nth t betas 0 = 1 / (INR n - INR t)).
  { intros t Ht. unfold betas.
    rewrite (nth_map_default _ _ _ 0%nat) by (rewrite length_seq; exact Ht).
    rewrite seq_nth by exact Ht. reflexivity. }
  assert (Hrange : Forall in_range betas).
  { unfold betas. apply Forall_map, Forall_forall. intros i Hi.
    apply in_seq in Hi. unfold in_range.
    assert (Hd : 1 <= INR n - INR i).
    { assert (Hle : INR (S i) <= INR n) by (apply le_INR; lia).
      rewrite S_INR in Hle. lra. }
    split.
    - apply Rdiv_lt_0_compat; lra.
    - apply (Rmult_le_reg_r (INR n - INR i)); [lra |].
      replace (1 / (INR n - INR i) * (INR n - INR i)) with 1 by (field; lra).
      lra. }
  exists betas, (init_attributes betas lt).
  split; [exact Hjsd |].
  split; [apply init_accepts; [intros E; rewrite E in Hlen; simpl in Hlen; lia
                              | exact Hrange] |].
  split; [exact Hlen |].
  intros t Ht. rewrite HN. split; [apply Hnth; exact Ht |].
  cbn [init_attributes alphas_cumprod].
  rewrite (nth_map_default _ _ _ 0)
    by (rewrite np_alphas_cumprod_length, Hlen; exact Ht).
  f_equal. unfold np_alphas_cumprod. rewrite cumprod_cumprod_from.
  unfold np_alphas, betas. rewrite map_map.
  rewrite (cumprod_from_telescope (INR n) n 0 1 t);
    [simpl; f_equal; lra | simpl; lra | simpl; field; apply not_0_INR; lia | exact Ht].
Qed.

Lemma jsd_schedule_alphas_cumprod_witness :
  exists betas gd,
    get_beta_schedule "jsd" 0 0 3 = Ok betas /\
    GaussianDiffusion_init betas "noisepred" = Ok gd /\
    nth 2 betas 0 = 1 / (3 - INR 2) /\
    nth 2 (alphas_cumprod gd) NaN = Fin ((3 - 1 - INR 2) / 3).
Proof.
  destruct (jsd_schedule_alphas_cumprod 0 0 3 "noisepred") as [betas [gd [Hget [Hinit [_ Hval]]]]].
  - lia.
  - exists betas, gd. split; [exact Hget |]. split; [exact Hinit |].
    apply (Hval 2%nat). simpl. lia.
Defined.

Lemma skipn_repeat_sub {A} (a : A) (n : nat) : forall w,
  skipn w (repeat a n) = repeat a (n - w).
Proof.
  induction n as [| n IH]; intros [| w]; simpl; try reflexivity. apply IH.
Qed.

Lemma skipn_scaled_ones (b : R) (w n : nat) :
  skipn w (scaled_ones b n) = repeat b (n - w).
Proof.
  unfold scaled_ones. rewrite skipn_map, skipn_repeat_sub, map_repeat.
  now rewrite Rmult_1_r.
Qed.

(** X4.  The warmup schedules ramp linearly from [beta_start] to [beta_end]
    over the first [T / 10] (warmup10) or [T / 2] (warmup50) entries, the
    quotient rounded down, and hold [beta_end] on all the others; a
    'warmup10' schedule shorter than 10 is constant. *)
Theorem warmup_schedule_shape (beta_start beta_end : R) (T : Z) :
  (0 <= T)%Z ->
  let n := Z.to_nat T in
  let w10 := Z.to_nat (T / 10) in
  let w50 := Z.to_nat (T / 2) in
  get_beta_schedule "warmup10" beta_start beta_end T
  = Ok (linspace beta_start beta_end w10 ++ repeat beta_end (n - w10)) /\
  get_beta_schedule "warmup50" beta_start beta_end T
  = Ok (linspace beta_start beta_end w50 ++ repeat beta_end (n - w50)) /\
  ((T < 10)%Z ->
   get_beta_schedule "warmup10" beta_start beta_end T = Ok (repeat beta_end n)).
Proof.
  intros HT n w10 w50.
  destruct (get_beta_schedule_values beta_start beta_end T HT)
    as [_ [_ [Hw10 [Hw50 _]]]].
  rewrite skipn_scaled_ones in Hw10, Hw50.
  split; [exact Hw10 |]. split; [exact Hw50 |].
  intros Hlt. rewrite Hw10. rewrite Z.div_small by lia. simpl.
  rewrite Nat.sub_0_r. reflexivity.
Qed.

Lemma warmup_schedule_shape_witness :
  get_beta_schedule "warmup50" (1 / 10) (1 / 5) 5
  = Ok (linspace (1 / 10) (1 / 5) 2 ++ repeat (1 / 5) 3) /\
  get_beta_schedule "warmup10" (1 / 10) (1 / 5) 5 = Ok (repeat (1 / 5) 5).
Proof.
  destruct (warmup_schedule_shape (1 / 10) (1 / 5) 5) as [_ [H50 H10]]; [lia |].
  split; [exact H50 | apply H10; lia].
Defined.

Lemma nth_app_last {A} (l : list A) (x d : A) : nth (length l) (l ++ [x]) d = x.
Proof. rewrite app_nth2 by lia. now rewrite Nat.sub_diag. Qed.

(** X5.  The 'linear' schedule of length [T >= 2] is evenly spaced from
    [beta_start] to [beta_end], both ends included; of length 1 it is the
    single value [beta_start]. *)
Theorem linear_schedule_values (beta_start beta_end : R) (T : Z) :
  ((2 <= T)%Z ->
   exists betas,
     get_beta_schedule "linear" beta_start beta_end T = Ok betas /\
     (forall i, (i < Z.to_nat T)%nat ->
        nth i betas 0
        = beta_start + INR i * (beta_end - beta_start) / (IZR T - 1)) /\
     nth 0 betas 0 = beta_start /\
     nth (Z.to_nat T - 1) betas 0 = beta_end) /\
  get_beta_schedule "linear" beta_start beta_end 1 = Ok [beta_start].
Proof.
  split.
  - intros HT.
    destruct (get_beta_schedule_values beta_start beta_end T ltac:(lia))
      as [_ [Hlin _]].
    destruct (Z.to_nat T) as [| [| m]] eqn:En; try lia.
    assert (HTr : IZR T - 1 = INR (S m)).
    { replace T with (Z.of_nat (S (S m))) by lia.
      rewrite <- INR_IZR_INZ, (S_INR (S m)). lra. }
    assert (Hm : 0 < INR (S m)) by (apply lt_0_INR; lia).
    rewrite linspace_unfold in Hlin.
    eexists. split; [exact Hlin |].
    assert (Hval : forall i, (i < S (S m))%nat ->
              nth i (map (fun i0 => INR i0 * ((beta_end - beta_start) / INR (S m))
                                    + beta_start) (seq 0 (S m)) ++ [beta_end]) 0
              = beta_start + INR i * (beta_end - beta_start) / (IZR T - 1)).
    { intros i Hi. rewrite HTr.
      destruct (Nat.eq_dec i (S m)) as [-> | Hne].
      - replace (S m) with (length (map (fun i0 => INR i0 * ((beta_end - beta_start)
                                / INR (S m)) + beta_start) (seq 0 (S m)))) at 1
          by (now rewrite length_map, length_seq).
        rewrite nth_app_last. field. lra.
      - rewrite app_nth1 by (rewrite length_map, length_seq; lia).
        rewrite (nth_map_default _ _ _ 0%nat) by (rewrite length_seq; lia).
        rewrite seq_nth by lia. simpl Nat.add. field. lra. }
    split; [exact Hval |]. split.
    + rewrite Hval by lia. simpl. field. rewrite HTr. lra.
    + rewrite Hval by lia. replace (S (S m) - 1)%nat with (S m) by lia.
      rewrite HTr. field. lra.
  - destruct (get_beta_schedule_values beta_start beta_end 1 ltac:(lia))
      as [_ [Hlin _]].
    exact Hlin.
Qed.

Lemma linear_schedule_values_witness :
  exists betas,
    get_beta_schedule "linear" (1 / 10000) (1 / 50) 4 = Ok betas /\
    nth 0 betas 0 = 1 / 10000 /\ nth 3 betas 0 = 1 / 50.
Proof.
  destruct (proj1 (linear_schedule_values (1 / 10000) (1 / 50) 4))
    as [betas [Hget [_ [H0 H3]]]]; [lia |].
  exists betas. split; [exact Hget |]. split; [exact H0 | exact H3].
Defined.

(** ** The coefficient tables *)

(** The value and range facts of one timestep, with the tables read. *)
Lemma tables_at (bs : list R) (lt : string) (gd : GaussianDiffusion) (t : nat) :
  GaussianDiffusion_init bs lt = Ok gd -> (t < num_timesteps gd)%nat ->
  let b := nth t bs 0 in
  let p := nth t (np_alphas_cumprod_prev bs) 0 in
  let a := nth t (np_alphas_cumprod bs) 0 in
  0 < b <= 1 /\ 0 <= p <= 1 /\ a = p * (1 - b) /\ 0 <= a < 1 /\
  nth t (sqrt_alphas_cumprod gd) NaN = Fin (sqrt a) /\
  nth t (sqrt_one_minus_alphas_cumprod gd) NaN = Fin (sqrt (1 - a)) /\
  nth t (log_one_minus_alphas_cumprod gd) NaN = Fin (ln (1 - a)) /\
  nth t (posterior_variance gd) NaN = Fin (b * (1 - p) / (1 - a)) /\
  nth t (posterior_log_variance_clipped gd) NaN
  = Fin (ln (Rmax (b * (1 - p) / (1 - a)) 1e-20)) /\
  nth t (posterior_mean_coef1 gd) NaN = Fin (b * sqrt p / (1 - a)) /\
  nth t (posterior_mean_coef2 gd) NaN = Fin ((1 - p) * sqrt (1 - b) / (1 - a)).
Proof.
  intros Hinit Ht b p a.
  destruct (init_inversion _ _ _ Hinit) as [Hr [_ ->]].
  cbn [init_attributes num_timesteps] in Ht.
  apply in_range_split in Hr. destruct Hr as [Hp Hq].
  destruct (coefficients_at bs t Hp Hq Ht) as [Hb [Hpr Ha]].
  fold b p a in Hb, Hpr, Ha.
  assert (Har : 0 <= a < 1) by (rewrite Ha; nra).
  assert (Lac : (t < length (np_alphas_cumprod bs))%nat)
    by (rewrite np_alphas_cumprod_length; exact Ht).
  assert (Lacp : (t < length (np_alphas_cumprod_prev bs))%nat)
    by (rewrite np_alphas_cumprod_prev_length; lia).
  assert (Lal : (t < length (np_alphas bs))%nat)
    by (unfold np_alphas; rewrite length_map; exact Ht).
  assert (Lpv : (t < length (np_posterior_variance bs))%nat).
  { unfold np_posterior_variance. rewrite zip_with3_length;
      rewrite ?np_alphas_cumprod_length, ?np_alphas_cumprod_prev_length; lia. }
  assert (Epv : nth t (np_posterior_variance bs) NaN = Fin (b * (1 - p) / (1 - a))).
  { unfold np_posterior_variance. rewrite (zip_with3_nth _ 0 0 0) by assumption.
    fold b p a. apply xdiv_fin. lra. }
  repeat (split; [assumption |]).
  cbn [init_attributes sqrt_alphas_cumprod sqrt_one_minus_alphas_cumprod
       log_one_minus_alphas_cumprod posterior_variance
       posterior_log_variance_clipped posterior_mean_coef1 posterior_mean_coef2].
  rewrite !(nth_map_default _ _ _ 0) by exact Lac.
  rewrite (nth_map_default _ _ _ NaN) by exact Lpv.
  rewrite !(zip_with3_nth _ 0 0 0) by assumption.
  rewrite np_alphas_nth by exact Ht. rewrite Epv. fold b p a.
  unfold np_sqrt, np_log. rewrite !xsqrt_fin by lra.
  cbn [xmul xmax]. rewrite !xdiv_fin by lra.
  unfold xlog. rewrite !Rsign_pos; [repeat split | | lra].
  eapply Rlt_le_trans; [| apply Rmax_r]. lra.
Qed.

(** X6.  The forward process keeps unit variance: at every timestep the
    signal coefficient [sqrt_alphas_cumprod[t]] and the noise coefficient
    [sqrt_one_minus_alphas_cumprod[t]] are finite, the noise coefficient is
    positive, and their squares sum to 1. *)
Theorem forward_coefficients_unit_norm (bs : list R) (lt : string)
        (gd : GaussianDiffusion) (t : nat) :
  GaussianDiffusion_init bs lt = Ok gd -> (t < num_timesteps gd)%nat ->
  exists c s,
    nth t (sqrt_alphas_cumprod gd) NaN = Fin c /\
    nth t (sqrt_one_minus_alphas_cumprod gd) NaN = Fin s /\
    0 <= c < 1 /\ 0 < s <= 1 /\ c * c + s * s = 1.
Proof.
  intros Hinit Ht.
  destruct (tables_at bs lt gd t Hinit Ht)
    as [_ [_ [_ [Ha [Hc [Hs _]]]]]].
  set (a := nth t (np_alphas_cumprod bs) 0) in *.
  exists (sqrt a), (sqrt (1 - a)).
  split; [exact Hc |]. split; [exact Hs |].
  pose proof (sqrt_sqrt a ltac:(lra)) as Ea.
  pose proof (sqrt_sqrt (1 - a) ltac:(lra)) as Es.
  pose proof (sqrt_pos a) as Pa.
  pose proof (sqrt_lt_R0 (1 - a) ltac:(lra)) as Ps.
  repeat split; try lra; nra.
Qed.

Lemma forward_coefficients_unit_norm_witness :
  exists c s,
    nth 1 (sqrt_alphas_cumprod (init_attributes [1 / 2; 1] "noisepred")) NaN = Fin c /\
    nth 1 (sqrt_one_minus_alphas_cumprod (init_attributes [1 / 2; 1] "noisepred")) NaN
    = Fin s /\
    0 <= c < 1 /\ 0 < s <= 1 /\ c * c + s * s = 1.
Proof.
  apply (forward_coefficients_unit_norm [1 / 2; 1] "noisepred" _ 1).
  - apply init_accepts; [discriminate | repeat constructor; lra].
  - simpl. lia.
Defined.

Lemma first_timestep_tables (bs : list R) (lt : string)
      (gd : GaussianDiffusion) :
  GaussianDiffusion_init bs lt = Ok gd ->
  nth 0 (posterior_variance gd) NaN = Fin 0 /\
  nth 0 (posterior_log_variance_clipped gd) NaN = Fin (ln 1e-20) /\
  nth 0 (posterior_mean_coef1 gd) NaN = Fin 1 /\
  nth 0 (posterior_mean_coef2 gd) NaN = Fin 0.
Proof.
  intros Hinit.
  pose proof (init_tables_complete _ _ _ Hinit) as [Hpos _].
  destruct (tables_at bs lt gd 0 Hinit Hpos)
    as [Hb [_ [Ha [_ [_ [_ [_ [Hpv [Hplv [Hc1 Hc2]]]]]]]]]].
  assert (Hp : nth 0 (np_alphas_cumprod_prev bs) 0 = 1) by reflexivity.
  rewrite Hp in *.
  set (b := nth 0 bs 0) in *. set (a := nth 0 (np_alphas_cumprod bs) 0) in *.
  assert (Hden : 1 - a = b) by (rewrite Ha; lra).
  rewrite Hden in *.
  assert (Ev : b * (1 - 1) / b = 0) by (field; lra).
  rewrite Ev in *. split; [exact Hpv |]. split.
  - rewrite Hplv. do 2 f_equal. apply Rmax_right. lra.
  - split.
    + rewrite Hc1, sqrt_1. f_equal. field. lra.
    + rewrite Hc2. f_equal. field. lra.
Qed.

(** X7.  Over the reals (exact arithmetic) there is no timestep before 0:
    at index 0 the constructor's formulas give a posterior variance of
    exactly 0, a clamped logarithm [ln 1e-20], and a posterior mean with
    weight 1 on [x_start] and weight 0 on [x_t].  (In float64 the weight
    [b / (1 - (1 - b))] carries the rounding of [1 - b], and a first beta
    so small that [1 - b] rounds to 1 gives 0/0 there, see
    [Float64.np_posterior_variance].) *)
Theorem posterior_at_first_timestep (bs : list R) (lt : string)
        (gd : GaussianDiffusion) :
  GaussianDiffusion_init bs lt = Ok gd ->
  nth 0 (posterior_variance gd) NaN = Fin 0 /\
  nth 0 (posterior_log_variance_clipped gd) NaN = Fin (ln 1e-20) /\
  nth 0 (posterior_mean_coef1 gd) NaN = Fin 1 /\
  nth 0 (posterior_mean_coef2 gd) NaN = Fin 0.
Proof. exact (first_timestep_tables bs lt gd). Qed.

Lemma posterior_at_first_timestep_witness :
  nth 0 (posterior_variance (init_attributes [1 / 2; 1 / 4] "noisepred")) NaN = Fin 0 /\
  nth 0 (posterior_mean_coef1 (init_attributes [1 / 2; 1 / 4] "noisepred")) NaN = Fin 1.
Proof.
  destruct (posterior_at_first_timestep [1 / 2; 1 / 4] "noisepred"
              (init_attributes [1 / 2; 1 / 4] "noisepred"))
    as [Hpv [_ [Hc1 _]]].
  - apply init_accepts; [discriminate | repeat constructor; lra].
  - split; [exact Hpv | exact Hc1].
Defined.

(** X8.  Over the reals (exact arithmetic): at every timestep the posterior
    variance is finite and not negative, and the clipped log-variance is
    finite, at least [ln 1e-20], and the logarithm of the variance itself
    wherever the variance is at least [1e-20].  (In float64 a first beta so
    small that [1 - b] rounds to 1 makes the variance at index 0 a NaN,
    which [np.maximum] keeps, see [Float64.np_posterior_variance].) *)
Theorem posterior_log_variance_clipping (bs : list R) (lt : string)
        (gd : GaussianDiffusion) (t : nat) :
  GaussianDiffusion_init bs lt = Ok gd -> (t < num_timesteps gd)%nat ->
  exists v l,
    nth t (posterior_variance gd) NaN = Fin v /\
    nth t (posterior_log_variance_clipped gd) NaN = Fin l /\
    0 <= v /\ ln 1e-20 <= l /\ (1e-20 <= v -> l = ln v).
Proof.
  intros Hinit Ht.
  destruct (tables_at bs lt gd t Hinit Ht)
    as [Hb [Hp [Ha [Har [_ [_ [_ [Hpv [Hplv _]]]]]]]]].
  set (b := nth t bs 0) in *. set (p := nth t (np_alphas_cumprod_prev bs) 0) in *.
  set (a := nth t (np_alphas_cumprod bs) 0) in *.
  exists (b * (1 - p) / (1 - a)), (ln (Rmax (b * (1 - p) / (1 - a)) 1e-20)).
  split; [exact Hpv |]. split; [exact Hplv |].
  assert (Hv : 0 <= b * (1 - p) / (1 - a)).
  { apply Rmult_le_pos; [nra | left; apply Rinv_0_lt_compat; lra]. }
  split; [exact Hv |]. split.
  - destruct (Rle_lt_dec (b * (1 - p) / (1 - a)) 1e-20) as [Hle | Hgt].
    + rewrite Rmax_right by exact Hle. lra.
    + rewrite Rmax_left by lra. left. apply ln_increasing; lra.
  - intros Hge. now rewrite Rmax_left.
Qed.

Lemma posterior_log_variance_clipping_witness :
  exists v l,
    nth 1 (posterior_variance (init_attributes [1 / 2; 1 / 4] "noisepred")) NaN = Fin v /\
    nth 1 (posterior_log_variance_clipped (init_attributes [1 / 2; 1 / 4] "noisepred")) NaN
    = Fin l /\
    0 <= v /\ ln 1e-20 <= l /\ (1e-20 <= v -> l = ln v).
Proof.
  apply (posterior_log_variance_clipping [1 / 2; 1 / 4] "noisepred" _ 1).
  - apply init_accepts; [discriminate | repeat constructor; lra].
  - simpl. lia.
Defined.

(** X9.  The posterior mean is consistent with the forward process: the
    coefficients satisfy
    [coef1[t] + coef2[t] * sqrt(alphas_cumprod[t]) = sqrt(alphas_cumprod_prev[t])],
    so the posterior mean of a noise-free sample at step [t] is the
    noise-free sample one step earlier. *)
Theorem posterior_mean_consistent (bs : list R) (lt : string)
        (gd : GaussianDiffusion) (t : nat) :
  GaussianDiffusion_init bs lt = Ok gd -> (t < num_timesteps gd)%nat ->
  exists c1 c2 a p,
    nth t (posterior_mean_coef1 gd) NaN = Fin c1 /\
    nth t (posterior_mean_coef2 gd) NaN = Fin c2 /\
    nth t (alphas_cumprod gd) NaN = Fin a /\
    nth t (alphas_cumprod_prev gd) NaN = Fin p /\
    c1 + c2 * sqrt a = sqrt p.
Proof.
  intros Hinit Ht.
  destruct (posterior_variance_at bs lt gd t Hinit Ht)
    as [b0 [p0 [a0 [_ [Eb [Ep [Ea _]]]]]]].
  destruct (tables_at bs lt gd t Hinit Ht)
    as [Hb [Hp [Ha [Har [_ [_ [_ [_ [_ [Hc1 Hc2]]]]]]]]]].
  set (b := nth t bs 0) in *. set (p := nth t (np_alphas_cumprod_prev bs) 0) in *.
  set (a := nth t (np_alphas_cumprod bs) 0) in *.
  destruct (init_inversion _ _ _ Hinit) as [_ [_ Egd]].
  assert (Ea' : nth t (alphas_cumprod gd) NaN = Fin a).
  { rewrite Egd. cbn [init_attributes alphas_cumprod num_timesteps] in *.
    apply nth_map_default. rewrite np_alphas_cumprod_length.
    rewrite Egd in Ht. exact Ht. }
  assert (Ep' : nth t (alphas_cumprod_prev gd) NaN = Fin p).
  { rewrite Egd. cbn [init_attributes alphas_cumprod_prev num_timesteps] in *.
    apply nth_map_default. rewrite np_alphas_cumprod_prev_length.
    rewrite Egd in Ht. cbn [init_attributes num_timesteps] in Ht. lia. }
  exists (b * sqrt p / (1 - a)), ((1 - p) * sqrt (1 - b) / (1 - a)), a, p.
  repeat (split; [assumption |]).
  assert (Hsa : sqrt a = sqrt p * sqrt (1 - b))
    by (rewrite Ha; apply sqrt_mult; lra).
  pose proof (sqrt_sqrt (1 - b) ltac:(lra)) as Hal.
  rewrite Hsa.
  replace ((1 - p) * sqrt (1 - b) / (1 - a) * (sqrt p * sqrt (1 - b)))
    with ((1 - p) * (sqrt (1 - b) * sqrt (1 - b)) * sqrt p / (1 - a))
    by (field; lra).
  rewrite Hal. rewrite Ha. field. rewrite <- Ha. lra.
Qed.

Lemma posterior_mean_consistent_witness :
  exists c1 c2 a p,
    nth 1 (posterior_mean_coef1 (init_attributes [1 / 2; 1 / 4] "noisepred")) NaN = Fin c1 /\
    nth 1 (posterior_mean_coef2 (init_attributes [1 / 2; 1 / 4] "noisepred")) NaN = Fin c2 /\
    nth 1 (alphas_cumprod (init_attributes [1 / 2; 1 / 4] "noisepred")) NaN = Fin a /\
    nth 1 (alphas_cumprod_prev (init_attributes [1 / 2; 1 / 4] "noisepred")) NaN = Fin p /\
    c1 + c2 * sqrt a = sqrt p.
Proof.
  apply (posterior_mean_consistent [1 / 2; 1 / 4] "noisepred" _ 1).
  - apply init_accepts; [discriminate | repeat constructor; lra].
  - simpl. lia.
Defined.

Lemma nth_removelast {A} (l : list A) (d : A) : forall k,
  (S k < length l)%nat -> nth k (removelast l) d = nth k l d.
Proof.
  induction l as [| x l IH]; intros k Hk; simpl in Hk; [lia |].
  destruct l as [| y l]; [simpl in Hk; lia |].
  change (removelast (x :: y :: l)) with (x :: removelast (y :: l)).
  destruct k as [| k]; [reflexivity |].
  cbn [nth]. apply IH. simpl in *. lia.
Qed.

Lemma alphas_cumprod_prev_shift (bs : list R) (k : nat) :
  (S k < length bs)%nat ->
  nth (S k) (np_alphas_cumprod_prev bs) 0 = nth k (np_alphas_cumprod bs) 0.
Proof.
  intros Hk. unfold np_alphas_cumprod_prev. cbn [nth].
  apply nth_removelast. rewrite np_alphas_cumprod_length. exact Hk.
Qed.

(** X10.  The remark in the constructor holds after the first timestep:
    for [1 <= t < T], [alphas_cumprod_prev[t]] is [alphas_cumprod[t-1]],
    below 1, and [posterior_variance[t]] equals
    [1 / (1 / (1 - alphas_cumprod_prev[t]) + alphas[t] / betas[t])]. *)
Theorem posterior_variance_harmonic_form (bs : list R) (lt : string)
        (gd : GaussianDiffusion) (t : nat) :
  GaussianDiffusion_init bs lt = Ok gd ->
  (1 <= t < num_timesteps gd)%nat ->
  let b := nth t bs 0 in
  let p := nth t (np_alphas_cumprod_prev bs) 0 in
  p = nth (t - 1) (np_alphas_cumprod bs) 0 /\ 0 <= p < 1 /\
  nth t (posterior_variance gd) NaN = Fin (1 / (1 / (1 - p) + (1 - b) / b)).
Proof.
  intros Hinit [H1 Ht] b p.
  destruct (tables_at bs lt gd t Hinit Ht)
    as [Hb [Hp [Ha [Har [_ [_ [_ [Hpv _]]]]]]]].
  fold b p in Hb, Hp, Ha, Hpv.
  assert (HT : num_timesteps gd = length bs)
    by (destruct (init_inversion _ _ _ Hinit) as [_ [_ ->]]; reflexivity).
  destruct t as [| k]; [lia |].
  assert (Hk : (k < num_timesteps gd)%nat) by lia.
  destruct (tables_at bs lt gd k Hinit Hk) as [_ [_ [_ [Hprev _]]]].
  assert (Eshift : p = nth k (np_alphas_cumprod bs) 0)
    by (apply alphas_cumprod_prev_shift; lia).
  replace (S k - 1)%nat with k by lia.
  split; [exact Eshift |]. split; [rewrite Eshift; exact Hprev |].
  rewrite Hpv. f_equal.
  assert (Hp1 : p < 1) by (rewrite Eshift; apply Hprev).
  set (a := nth (S k) (np_alphas_cumprod bs) 0) in *.
  rewrite Ha. field. repeat split; nra.
Qed.

Lemma posterior_variance_harmonic_form_witness :
  nth 1 (posterior_variance (init_attributes [1 / 2; 1 / 4] "noisepred")) NaN
  = Fin (1 / (1 / (1 - nth 1 (np_alphas_cumprod_prev [1 / 2; 1 / 4]) 0)
              + (1 - nth 1 [1 / 2; 1 / 4] 0) / nth 1 [1 / 2; 1 / 4] 0)).
Proof.
  apply (posterior_variance_harmonic_form [1 / 2; 1 / 4] "noisepred" _ 1).
  - apply init_accepts; [discriminate | repeat constructor; lra].
  - simpl. lia.
Defined.

(** ** [_extract] and [noise_like] *)

Lemma gather_out_of_range (a : list xreal) (t : list Z) :
  Exists (fun i => ~ valid_index (length a) i) t ->
  gather a t = Err InvalidArgumentError.
Proof.
  induction t as [| i t IH]; intros Hex; [inversion Hex |].
  cbn [gather].
  destruct ((0 <=? i)%Z && (i <? Z.of_nat (length a))%Z)%bool eqn:E;
    [| reflexivity].
  apply andb_prop in E. destruct E as [E1 E2].
  apply Z.leb_le in E1. apply Z.ltb_lt in E2.
  inversion Hex as [? ? Hbad | ? ? Htail]; subst.
  - exfalso. apply Hbad. unfold valid_index. lia.
  - rewrite (IH Htail). reflexivity.
Qed.

(** X11.  [_extract] refuses a shape of rank 0 (index error), a batch size
    that differs from the length of [t] (assertion error) and any timestep
    outside the table (invalid-argument error, checked after the batch
    size); otherwise it returns a tensor of shape [B,1,...,1] whose entry
    [i] is the table entry at [t[i]]. *)
Theorem extract_behaviour (a : list xreal) (t : list Z) (b0 : nat) (rest : list nat) :
  _extract a t [] = Err IndexError /\
  (b0 <> length t -> _extract a t (b0 :: rest) = Err AssertionError) /\
  (b0 = length t -> Exists (fun i => ~ valid_index (length a) i) t ->
   _extract a t (b0 :: rest) = Err InvalidArgumentError) /\
  (b0 = length t -> Forall (valid_index (length a)) t ->
   exists c, _extract a t (b0 :: rest) = Ok c /\
             has_shape c (b0 :: repeat 1%nat (length rest)) /\
             forall i, (i < b0)%nat ->
               nth i (rows c) [] = [nth (Z.to_nat (nth i t 0%Z)) a NaN]).
Proof.
  split; [reflexivity |]. split; [| split].
  - intros Hne. unfold _extract.
    replace (Nat.eqb b0 (length t)) with false
      by (symmetry; apply Nat.eqb_neq; exact Hne).
    reflexivity.
  - intros -> Hex. unfold _extract. rewrite Nat.eqb_refl.
    cbn [assert bind ret result_monad]. rewrite (gather_out_of_range _ _ Hex).
    reflexivity.
  - intros Hb Hv. symmetry in Hb.
    exists (coef_tensor a t (S (length rest))).
    split; [apply (extract_ok a t b0 rest Hb Hv) |].
    split; [apply has_shape_coef; exact Hb |].
    intros i Hi. unfold coef_tensor. cbn [rows].
    rewrite (nth_map_default _ _ _ 0%Z) by lia. reflexivity.
Qed.

Lemma extract_behaviour_witness :
  _extract [Fin 1; Fin 2] [0%Z] [2; 3]%nat = Err AssertionError /\
  _extract [Fin 1; Fin 2] [0%Z; 2%Z] [2; 3]%nat = Err InvalidArgumentError /\
  exists c, _extract [Fin 1; Fin 2] [1%Z; 0%Z] [2; 3]%nat = Ok c /\
            nth 0 (rows c) [] = [Fin 2].
Proof.
  split; [| split].
  - apply (proj1 (proj2 (extract_behaviour [Fin 1; Fin 2] [0%Z] 2 [3%nat]))).
    simpl. lia.
  - apply (proj1 (proj2 (proj2 (extract_behaviour [Fin 1; Fin 2] [0%Z; 2%Z] 2 [3%nat]))));
      [reflexivity |].
    apply Exists_cons_tl, Exists_cons_hd. unfold valid_index. simpl. lia.
  - destruct (proj2 (proj2 (proj2 (extract_behaviour [Fin 1; Fin 2] [1%Z; 0%Z] 2 [3%nat]))))
      as [c [Hc [_ Hrow]]].
    + reflexivity.
    + repeat constructor; unfold valid_index; simpl; lia.
    + exists c. split; [exact Hc |]. apply (Hrow 0%nat). lia.
Defined.

(** X12.  With [repeat] set, [noise_like] makes one draw, of a single batch
    entry, and returns it at every batch position; on a shape of rank 0 it
    raises an index error after the draw. *)
Theorem noise_like_repeats_one_draw {rng : Type} (noise_fn : noise_source rng)
        (b : nat) (rest : list nat) (w : world rng) :
  noise_like [] noise_fn true w
  = (Err IndexError, mkWorld (snd (noise_fn [1%nat] (rng_state w))) (calls w)) /\
  (noise_shaped noise_fn ->
   exists row,
     rows (fst (noise_fn (1%nat :: rest) (rng_state w))) = [row] /\
     noise_like (b :: rest) noise_fn true w
     = (Ok {| shape := b :: rest; rows := repeat row b |},
        mkWorld (snd (noise_fn (1%nat :: rest) (rng_state w))) (calls w)) /\
     has_shape {| shape := b :: rest; rows := repeat row b |} (b :: rest)).
Proof.
  split.
  - unfold noise_like. cbn [tl].
    rewrite (M_bind_ok _ _ _ _ _ (draw_run noise_fn [1%nat] w)). reflexivity.
  - intros Hn. pose proof (Hn (1%nat :: rest) (rng_state w)) as Hs.
    destruct Hs as [Hshape [Hlen Hrows]]. cbn [hd tl] in Hlen, Hrows.
    destruct (rows (fst (noise_fn (1%nat :: rest) (rng_state w))))
      as [| row [| row' rs]] eqn:Er; simpl in Hlen; try discriminate.
    exists row. split; [reflexivity |].
    assert (Hrep : tf_repeat (fst (noise_fn (1%nat :: rest) (rng_state w))) b
                   = {| shape := b :: rest; rows := repeat row b |}).
    { unfold tf_repeat. rewrite Hshape, Er. cbn [hd tl flat_map].
      rewrite app_nil_r, Nat.mul_1_l. reflexivity. }
    split.
    + unfold noise_like. cbn [tl].
      rewrite (M_bind_ok _ _ _ _ _ (draw_run noise_fn (1%nat :: rest) w)).
      rewrite Hrep. reflexivity.
    + rewrite <- Hrep. apply has_shape_tf_repeat.
      unfold has_shape. cbn [hd tl]. rewrite Er. repeat split; assumption.
Qed.

Lemma noise_like_repeats_one_draw_witness :
  exists row,
    noise_like [3; 2]%nat zero_noise true (mkWorld tt [])
    = (Ok {| shape := [3; 2]%nat; rows := repeat row 3 |}, mkWorld tt []).
Proof.
  destruct (proj2 (noise_like_repeats_one_draw zero_noise 3 [2%nat] (mkWorld tt [])))
    as [row [_ [Hrun _]]].
  - apply zero_noise_shaped.
  - exists row. exact Hrun.
Defined.

(** ** The forward marginal and the posterior *)

Lemma xmul_one_l (v : xreal) : xmul (Fin 1) v = v.
Proof.
  destruct v as [a | | |]; simpl; try reflexivity.
  - f_equal. lra.
  - rewrite Rsign_pos by lra. reflexivity.
  - rewrite Rsign_pos by lra. reflexivity.
Qed.

Lemma rows_of_coef (a : list xreal) (t : list Z) (rank : nat) :
  rows (coef_tensor a t rank) = map (fun i => [nth (Z.to_nat i) a NaN]) t.
Proof. reflexivity. Qed.

Lemma zip_with_coef_nth (f : xreal -> xreal -> xreal) (g : Z -> xreal)
      (t : list Z) (X : list (list xreal)) (i : nat) :
  (i < length t)%nat -> (i < length X)%nat ->
  nth i (zip_with (brow f) (map (fun j => [g j]) t) X) []
  = map (f (g (nth i t 0%Z))) (nth i X []).
Proof.
  intros Ht HX.
  rewrite (zip_with_nth _ [] [] []) by (rewrite ?length_map; assumption).
  rewrite (nth_map_default _ _ _ 0%Z) by exact Ht. apply brow_singleton.
Qed.

Section Values.

Context {rng : Type}.
Variable random_normal : noise_source rng.
Variable gd : GaussianDiffusion.
Hypothesis Hgd : tables_complete gd.

(** The values behind [q_sample_ok], [predict_start_ok] and
    [q_posterior_ok]. *)
Lemma q_sample_value (x n : Tensor) (t : list Z) (b0 : nat) (rest : list nat)
      (w : world rng) :
  has_shape x (b0 :: rest) -> has_shape n (b0 :: rest) ->
  length t = b0 -> Forall (valid_index (num_timesteps gd)) t ->
  q_sample random_normal gd x t (Some n) w
  = (Ok (tadd (tmul (coef_tensor (sqrt_alphas_cumprod gd) t (S (length rest))) x)
              (tmul (coef_tensor (sqrt_one_minus_alphas_cumprod gd) t
                                 (S (length rest))) n)), w).
Proof.
  intros Hx Hn Hl Hv.
  destruct Hgd as [_ [H1 [H2 _]]].
  unfold q_sample. cbn [bind ret M_monad lift assert].
  rewrite (proj1 Hn), (proj1 Hx), same_shape_refl. cbn [ret raise M_monad].
  rewrite (extract_table _ _ _ _ _ H1 Hl Hv), (extract_table _ _ _ _ _ H2 Hl Hv).
  reflexivity.
Qed.

Lemma predict_start_value (x n : Tensor) (t : list Z) (b0 : nat) (rest : list nat) :
  has_shape x (b0 :: rest) -> has_shape n (b0 :: rest) ->
  length t = b0 -> Forall (valid_index (num_timesteps gd)) t ->
  predict_start_from_noise gd x t n
  = Ok (tsub (tmul (coef_tensor (sqrt_recip_alphas_cumprod gd) t (S (length rest))) x)
             (tmul (coef_tensor (sqrt_recipm1_alphas_cumprod gd) t
                                (S (length rest))) n)).
Proof.
  intros Hx Hn Hl Hv.
  destruct Hgd as [_ [_ [_ [H3 [H4 _]]]]].
  unfold predict_start_from_noise.
  rewrite (proj1 Hx), (proj1 Hn), same_shape_refl.
  cbn [bind ret result_monad assert].
  rewrite (extract_table _ _ _ _ _ H3 Hl Hv), (extract_table _ _ _ _ _ H4 Hl Hv).
  reflexivity.
Qed.

Lemma q_posterior_value (x0 xt : Tensor) (t : list Z) (b0 : nat) (rest : list nat) :
  has_shape x0 (b0 :: rest) -> has_shape xt (b0 :: rest) ->
  length t = b0 -> Forall (valid_index (num_timesteps gd)) t ->
  q_posterior gd x0 xt t
  = Ok (tadd (tmul (coef_tensor (posterior_mean_coef1 gd) t (S (length rest))) x0)
             (tmul (coef_tensor (posterior_mean_coef2 gd) t (S (length rest))) xt),
        coef_tensor (posterior_variance gd) t (S (length rest)),
        coef_tensor (posterior_log_variance_clipped gd) t (S (length rest))).
Proof.
  intros Hx0 Hxt Hl Hv.
  destruct Hgd as [_ [_ [_ [_ [_ [H5 [H6 [H7 H8]]]]]]]].
  pose proof (has_shape_affine xadd (posterior_mean_coef1 gd)
                (posterior_mean_coef2 gd) t x0 xt b0 rest Hl Hx0 Hxt) as Hm.
  unfold q_posterior. rewrite (proj1 Hx0), (proj1 Hxt), same_shape_refl.
  cbn [bind ret result_monad assert].
  rewrite (extract_table _ _ _ _ _ H7 Hl Hv), (extract_table _ _ _ _ _ H8 Hl Hv),
          (extract_table _ _ _ _ _ H5 Hl Hv), (extract_table _ _ _ _ _ H6 Hl Hv).
  unfold tadd. rewrite (proj1 Hm).
  unfold coef_tensor. cbn [shape hd_eqb]. rewrite Hl, Nat.eqb_refl.
  reflexivity.
Qed.

End Values.

Lemma tensor_ext (x y : Tensor) : shape x = shape y -> rows x = rows y -> x = y.
Proof. destruct x, y; simpl; intros -> ->; reflexivity. Qed.

(** Adding a finite coefficient times zero noise changes nothing. *)
Lemma row_plus_zero_noise (mr : list xreal) (s : R) (k : nat) :
  length mr = k ->
  brow xadd mr (brow xmul [Fin s] (repeat (Fin 0) k)) = mr.
Proof.
  intros Hlen. rewrite brow_singleton.
  rewrite brow_same_length by (rewrite length_map, repeat_length; exact Hlen).
  revert k Hlen. induction mr as [| m mr IH]; intros k Hlen;
    destruct k as [| k]; simpl in Hlen; try discriminate; [reflexivity |].
  simpl. rewrite xadd_fin_zero by lra. f_equal. apply IH. lia.
Qed.

Lemma zip_with_ext_nth {A} (d : A) (l m : list A) :
  length l = length m ->
  (forall i, (i < length l)%nat -> nth i l d = nth i m d) -> l = m.
Proof.
  revert m. induction l as [| a l IH]; intros [| b m] Hlen Hnth;
    simpl in Hlen; try discriminate; [reflexivity |].
  f_equal.
  - apply (Hnth 0%nat). simpl. lia.
  - apply IH; [lia |]. intros i Hi. apply (Hnth (S i)). simpl. lia.
Qed.

(** X13.  Over the reals (exact arithmetic): [q_mean_variance] on
    well-shaped input returns the mean that [q_sample] produces from zero
    noise, a variance [1 - alphas_cumprod[t]] that is positive and at most 1
    at every batch entry, and as log-variance the logarithm of that
    variance.  (The code takes the variance from the float32 copy of
    [alphas_cumprod] and the log-variance from the float64 table, so the two
    agree up to that rounding only.) *)
Theorem q_mean_variance_marginal {rng : Type} (random_normal : noise_source rng)
        (bs : list R) (lt : string) (gd : GaussianDiffusion) (x_start : Tensor)
        (t : list Z) (b0 : nat) (rest : list nat) :
  GaussianDiffusion_init bs lt = Ok gd ->
  has_shape x_start (b0 :: rest) -> length t = b0 ->
  Forall (valid_index (num_timesteps gd)) t ->
  exists mean variance log_variance,
    q_mean_variance gd x_start t = Ok (mean, variance, log_variance) /\
    has_shape mean (b0 :: rest) /\
    (forall w, q_sample random_normal gd x_start t (Some (zeros (b0 :: rest))) w
               = (Ok mean, w)) /\
    forall i, (i < b0)%nat ->
      exists v, 0 < v <= 1 /\
                nth i (rows variance) [] = [Fin v] /\
                nth i (rows log_variance) [] = [Fin (ln v)].
Proof.
  intros Hinit Hx Hl Hv.
  pose proof (init_tables_complete _ _ _ Hinit) as Hgd.
  pose proof Hgd as [_ [H1 [H2 _]]].
  assert (HT : num_timesteps gd = length bs)
    by (destruct (init_inversion _ _ _ Hinit) as [_ [_ ->]]; reflexivity).
  assert (Hlog : length (log_one_minus_alphas_cumprod gd) = num_timesteps gd).
  { destruct (init_inversion _ _ _ Hinit) as [_ [_ ->]].
    cbn [init_attributes log_one_minus_alphas_cumprod num_timesteps].
    now rewrite length_map, np_alphas_cumprod_length. }
  assert (Hvar : length (map (xsub (Fin 1)) (alphas_cumprod gd)) = num_timesteps gd).
  { destruct (init_inversion _ _ _ Hinit) as [_ [_ ->]].
    cbn [init_attributes alphas_cumprod num_timesteps].
    now rewrite !length_map, np_alphas_cumprod_length. }
  set (mean := tmul (coef_tensor (sqrt_alphas_cumprod gd) t (S (length rest))) x_start).
  assert (Hsm : has_shape mean (b0 :: rest)).
  { apply has_shape_bcast2_coef; [apply has_shape_coef; exact Hl | exact Hx]. }
  exists mean, (coef_tensor (map (xsub (Fin 1)) (alphas_cumprod gd)) t (S (length rest))),
         (coef_tensor (log_one_minus_alphas_cumprod gd) t (S (length rest))).
  split; [| split; [exact Hsm | split]].
  - unfold q_mean_variance. rewrite (proj1 Hx).
    cbn [bind ret result_monad].
    rewrite (extract_table _ _ _ _ _ H1 Hl Hv), (extract_table _ _ _ _ _ Hvar Hl Hv),
            (extract_table _ _ _ _ _ Hlog Hl Hv).
    reflexivity.
  - intros w.
    assert (Hz : has_shape (zeros (b0 :: rest)) (b0 :: rest)).
    { unfold has_shape, zeros. cbn [shape rows hd tl].
      split; [reflexivity |]. split; [apply repeat_length |].
      apply Forall_forall. intros r Hr. apply repeat_spec in Hr. subst.
      apply repeat_length. }
    rewrite (q_sample_value random_normal gd Hgd x_start _ t b0 rest w Hx Hz Hl Hv).
    do 2 f_equal. fold mean.
    set (zn := tmul (coef_tensor (sqrt_one_minus_alphas_cumprod gd) t
                                 (S (length rest))) (zeros (b0 :: rest))).
    assert (Hzn : has_shape zn (b0 :: rest)).
    { apply has_shape_bcast2_coef; [apply has_shape_coef; exact Hl | exact Hz]. }
    pose proof (has_shape_bcast2_same xadd mean zn _ Hsm Hzn) as Hq.
    fold tadd in Hq.
    apply tensor_ext; [rewrite (proj1 Hq), (proj1 Hsm); reflexivity |].
    destruct Hsm as [_ [Hrows Hrow]]. destruct Hzn as [_ [Hzrows _]].
    destruct Hq as [_ [Hqrows _]]. cbn [hd tl] in *.
    apply (zip_with_ext_nth []); [congruence |].
    rewrite Hqrows. intros i Hi.
    unfold tadd, bcast2. cbn [rows].
    rewrite (zip_with_nth _ [] [] []) by lia.
    unfold zn, tmul, bcast2, zeros. cbn [rows hd tl].
    rewrite rows_of_coef, zip_with_coef_nth by (rewrite ?repeat_length; lia).
    rewrite (nth_indep (repeat (repeat (Fin 0) (numel rest)) b0) []
                       (repeat (Fin 0) (numel rest)))
      by (rewrite repeat_length; lia).
    rewrite nth_repeat.
    assert (Hti : (Z.to_nat (nth i t 0%Z) < num_timesteps gd)%nat).
    { rewrite Forall_forall in Hv.
      assert (Hin : In (nth i t 0%Z) t) by (apply nth_In; lia).
      specialize (Hv _ Hin). unfold valid_index in Hv. lia. }
    destruct (tables_at bs lt gd _ Hinit Hti) as [_ [_ [_ [_ [_ [Es _]]]]]].
    rewrite Es, <- brow_singleton.
    apply row_plus_zero_noise.
    rewrite Forall_forall in Hrow. apply Hrow. apply nth_In. lia.
  - intros i Hi.
    assert (Hti : (Z.to_nat (nth i t 0%Z) < num_timesteps gd)%nat).
    { rewrite Forall_forall in Hv.
      assert (Hin : In (nth i t 0%Z) t) by (apply nth_In; lia).
      specialize (Hv _ Hin). unfold valid_index in Hv. lia. }
    destruct (tables_at bs lt gd _ Hinit Hti)
      as [_ [_ [_ [Ha [_ [_ [Elog _]]]]]]].
    set (a := nth (Z.to_nat (nth i t 0%Z)) (np_alphas_cumprod bs) 0) in *.
    exists (1 - a). split; [lra |].
    rewrite !rows_of_coef, !(nth_map_default _ _ _ 0%Z) by lia.
    rewrite Elog. split; [| reflexivity].
    destruct (init_inversion _ _ _ Hinit) as [_ [_ Egd]].
    rewrite Egd. cbn [init_attributes alphas_cumprod]. rewrite map_map.
    rewrite (nth_map_default _ _ _ 0)
      by (rewrite np_alphas_cumprod_length, <- HT; exact Hti).
    reflexivity.
Qed.

Lemma zeros_has_shape (s : list nat) : has_shape (zeros s) s.
Proof. exact (zero_noise_shaped s tt). Qed.

Lemma q_mean_variance_marginal_witness :
  exists mean variance log_variance,
    q_mean_variance (init_attributes [1 / 2] "noisepred") (zeros [1; 2]%nat) [0%Z]
    = Ok (mean, variance, log_variance) /\
    exists v, 0 < v <= 1 /\ nth 0 (rows variance) [] = [Fin v] /\
              nth 0 (rows log_variance) [] = [Fin (ln v)].
Proof.
  destruct (q_mean_variance_marginal zero_noise [1 / 2] "noisepred"
              (init_attributes [1 / 2] "noisepred") (zeros [1; 2]%nat) [0%Z]
              1 [2%nat])
    as [mean [variance [log_variance [Hrun [_ [_ Hval]]]]]].
  - apply init_accepts; [discriminate | repeat constructor; lra].
  - apply zeros_has_shape.
  - reflexivity.
  - constructor; [| constructor]. unfold valid_index; simpl; lia.
  - exists mean, variance, log_variance. split; [exact Hrun |].
    apply (Hval 0%nat). lia.
Defined.

(** A batch entry weighted 1 plus a finite batch entry weighted 0 is the
    first entry. *)
Lemma row_one_zero (xr tr : list xreal) :
  length xr = length tr -> Forall is_fin tr ->
  brow xadd (map (xmul (Fin 1)) xr) (map (xmul (Fin 0)) tr) = xr.
Proof.
  intros Hlen Hf.
  rewrite brow_same_length by (rewrite !length_map; exact Hlen).
  revert xr Hlen. induction Hf as [| u tr Hu Hf IH]; intros [| x xr] Hlen;
    simpl in Hlen; try discriminate; [reflexivity |].
  destruct u as [u | | |]; try contradiction.
  cbn [map zip_with]. rewrite xmul_one_l. cbn [xmul].
  rewrite xadd_fin_zero by lra. f_equal. apply IH. lia.
Qed.

(** X14.  On a table whose stored posterior coefficients at index 0 are
    exactly 1 (on [x_start]) and 0 (on [x_t]), the posterior mean at
    timestep 0 is the start image itself: for every batch entry with
    [t = 0] and a finite [x_t], the mean returned by [q_posterior] is that
    entry of [x_start], and its variance is [posterior_variance[0]].  Over
    the reals every accepted beta sequence gives such a table
    ([first_timestep_tables]); the float tables of the code can miss the
    first condition by rounding. *)
Theorem q_posterior_at_zero_returns_start
        (gd : GaussianDiffusion) (x_start x_t : Tensor) (t : list Z)
        (b0 : nat) (rest : list nat) :
  tables_complete gd ->
  nth 0 (posterior_mean_coef1 gd) NaN = Fin 1 ->
  nth 0 (posterior_mean_coef2 gd) NaN = Fin 0 ->
  has_shape x_start (b0 :: rest) -> has_shape x_t (b0 :: rest) ->
  finite_tensor x_t ->
  length t = b0 -> Forall (valid_index (num_timesteps gd)) t ->
  exists mean variance log_variance,
    q_posterior gd x_start x_t t = Ok (mean, variance, log_variance) /\
    has_shape mean (b0 :: rest) /\
    forall i, (i < b0)%nat -> nth i t 1%Z = 0%Z ->
      nth i (rows mean) [] = nth i (rows x_start) [] /\
      nth i (rows variance) [] = [nth 0 (posterior_variance gd) NaN].
Proof.
  intros Hgd Hc1 Hc2 Hx0 Hxt Hfin Hl Hv.
  pose proof (has_shape_affine xadd (posterior_mean_coef1 gd)
                (posterior_mean_coef2 gd) t x_start x_t b0 rest Hl Hx0 Hxt) as Hm.
  eexists; eexists; eexists.
  split; [apply (q_posterior_value gd Hgd x_start x_t t b0 rest Hx0 Hxt Hl Hv) |].
  split; [exact Hm |].
  intros i Hi Hti.
  destruct Hx0 as [_ [Hl0 Hr0]]. destruct Hxt as [_ [Hlt Hrt]].
  cbn [hd tl] in *.
  assert (Hit : (i < length t)%nat) by lia.
  split.
  - unfold tadd, tmul, bcast2. cbn [rows].
    rewrite (zip_with_nth _ [] [] [])
      by (rewrite zip_with_length, rows_of_coef, length_map; lia).
    rewrite !rows_of_coef, !zip_with_coef_nth by lia.
    rewrite (nth_indep t 0%Z 1%Z) by exact Hit. rewrite Hti.
    change (Z.to_nat 0) with 0%nat. rewrite Hc1, Hc2.
    unfold finite_tensor in Hfin. rewrite Forall_forall in Hr0, Hrt, Hfin.
    apply row_one_zero.
    + rewrite Hr0, Hrt; [reflexivity | apply nth_In; lia ..].
    + apply Hfin. apply nth_In. lia.
  - rewrite rows_of_coef, (nth_map_default _ _ _ 1%Z) by exact Hit.
    rewrite Hti. reflexivity.
Qed.

Lemma q_posterior_at_zero_returns_start_witness :
  exists mean variance log_variance,
    q_posterior (init_attributes [1 / 2] "noisepred")
                {| shape := [1; 1]%nat; rows := [[Fin 7]] |} (zeros [1; 1]%nat) [0%Z]
    = Ok (mean, variance, log_variance) /\
    nth 0 (rows mean) [] = [Fin 7].
Proof.
  assert (Hinit : GaussianDiffusion_init [1 / 2] "noisepred"
                  = Ok (init_attributes [1 / 2] "noisepred"))
    by (apply init_accepts; [discriminate | repeat constructor; lra]).
  destruct (first_timestep_tables _ _ _ Hinit) as [_ [_ [Hc1 Hc2]]].
  destruct (q_posterior_at_zero_returns_start
              (init_attributes [1 / 2] "noisepred")
              {| shape := [1; 1]%nat; rows := [[Fin 7]] |} (zeros [1; 1]%nat)
              [0%Z] 1 [1%nat])
    as [mean [variance [log_variance [Hrun [_ Hval]]]]].
  - exact (init_tables_complete _ _ _ Hinit).
  - exact Hc1.
  - exact Hc2.
  - repeat split; repeat constructor.
  - apply zeros_has_shape.
  - apply (zero_noise_finite [1; 1]%nat tt).
  - reflexivity.
  - constructor; [| constructor]. unfold valid_index; simpl; lia.
  - exists mean, variance, log_variance. split; [exact Hrun |].
    apply (Hval 0%nat); [lia | reflexivity].
Defined.

(** ** The last reverse step *)

Lemma xclip_clipped (v : xreal) : clipped_value (xclip (-1) 1 v).
Proof.
  destruct v as [a | | |]; simpl; try exact I.
  - unfold Rmin, Rmax.
    destruct (Rle_dec a (-1)); destruct (Rle_dec _ 1); lra.
  - lra.
  - unfold Rmin. destruct (Rle_dec (-1) 1); lra.
Qed.

Lemma xmul_zero_weight (z : R) (x : xreal) : z = 0 -> zero_or_nan (xmul (Fin z) x).
Proof.
  intros ->. destruct x as [a | | |]; simpl; try exact I.
  - lra.
  - rewrite Rsign_zero. exact I.
  - rewrite Rsign_zero. exact I.
Qed.

Lemma clipped_plus_zero (m y : xreal) :
  clipped_value m -> zero_or_nan y -> clipped_value (xadd m y).
Proof.
  destruct m as [a | | |]; destruct y as [b | | |]; simpl; intros Hm Hy;
    try contradiction; try exact I.
  subst b. lra.
Qed.

(** A clipped batch entry stays clipped when a zero-weighted entry is
    added to it. *)
Lemma row_clipped_plus_zero (mr nr : list xreal) (z : R) :
  z = 0 -> length mr = length nr -> Forall clipped_value mr ->
  Forall clipped_value (brow xadd mr (brow xmul [Fin z] nr)).
Proof.
  intros Hz Hlen Hm. rewrite brow_singleton.
  rewrite brow_same_length by (rewrite length_map; exact Hlen).
  apply (Forall_zip_with xadd clipped_value zero_or_nan);
    [apply clipped_plus_zero | exact Hm |].
  apply Forall_map, Forall_forall. intros x _. apply xmul_zero_weight. exact Hz.
Qed.

Lemma row_one_zero_clipped (cr xr : list xreal) :
  length cr = length xr -> Forall clipped_value cr ->
  Forall clipped_value (brow xadd (map (xmul (Fin 1)) cr) (map (xmul (Fin 0)) xr)).
Proof.
  intros Hlen Hc.
  rewrite brow_same_length by (rewrite !length_map; exact Hlen).
  apply (Forall_zip_with xadd clipped_value zero_or_nan);
    [apply clipped_plus_zero | |].
  - apply Forall_map. eapply Forall_impl; [| exact Hc].
    intros c Hcv. now rewrite xmul_one_l.
  - apply Forall_map, Forall_forall. intros x _. apply xmul_zero_weight. reflexivity.
Qed.

Section LastStep.

Context {rng : Type}.
Variable gd : GaussianDiffusion.
Hypothesis Hgd : tables_complete gd.
Hypothesis Hloss : loss_type gd = "noisepred"%string.
Hypothesis Hc1 : nth 0 (posterior_mean_coef1 gd) NaN = Fin 1.
Hypothesis Hc2 : nth 0 (posterior_mean_coef2 gd) NaN = Fin 0.
Hypothesis Hlv : is_fin (nth 0 (posterior_log_variance_clipped gd) NaN).
Variable denoise_fn : denoiser.
Variable noise_fn : noise_source rng.
Hypothesis Hnoise : noise_shaped noise_fn.
Variables B H W C : nat.
Hypothesis Hdenoise : shape_preserving denoise_fn [B; H; W; C].

(** The mean of a clipped step whose timesteps are all 0 is clipped. *)
Lemma p_mean_variance_at_zero_clipped (x : Tensor) :
  has_shape x [B; H; W; C] ->
  exists mean pv,
    p_mean_variance gd denoise_fn x (fill_t [B; H; W; C] 0) true
    = Ok (mean, pv,
          coef_tensor (posterior_log_variance_clipped gd) (fill_t [B; H; W; C] 0) 4) /\
    has_shape mean [B; H; W; C] /\ clipped_tensor mean.
Proof.
  intros Hx.
  set (t := fill_t [B; H; W; C] 0).
  assert (Hrange : (0 <= 0 < Z.of_nat (num_timesteps gd))%Z)
    by (destruct Hgd as [Hpos _]; lia).
  destruct (fill_t_valid gd B H W C 0 Hrange) as [Hl Hv]. fold t in Hl, Hv.
  pose proof (Hdenoise x t Hx) as Hd.
  destruct (predict_start_ok gd Hgd x (denoise_fn x t) t B [H; W; C] Hx Hd Hl Hv)
    as [r [Hr Hsr]].
  set (r' := tmap (xclip (-1) 1) r).
  assert (Hsr' : has_shape r' [B; H; W; C]) by (apply has_shape_tmap; exact Hsr).
  pose proof (q_posterior_value gd Hgd r' x t B [H; W; C] Hsr' Hx Hl Hv) as Hq.
  pose proof (has_shape_affine xadd (posterior_mean_coef1 gd)
                (posterior_mean_coef2 gd) t r' x B [H; W; C] Hl Hsr' Hx) as Hm.
  fold tadd in Hm.
  eexists; eexists. split; [| split; [exact Hm |]].
  - unfold p_mean_variance. rewrite Hloss. cbn [String.eqb Ascii.eqb Bool.eqb].
    rewrite Hr. cbn [bind ret result_monad]. fold r'. rewrite Hq.
    cbn [bind ret result_monad].
    rewrite (proj1 Hm), (proj1 Hsr'), (proj1 Hx), same_shape_refl.
    unfold coef_tensor. cbn [shape hd length andb assert].
    rewrite Hl, !same_shape_refl. reflexivity.
  - destruct Hsr' as [_ [Hlr Hrr]]. destruct Hx as [_ [Hlx Hrx]].
    cbn [hd tl] in *.
    unfold clipped_tensor. apply Forall_forall. intros row Hin.
    apply In_nth with (d := []) in Hin. destruct Hin as [i [Hi <-]].
    unfold tadd, tmul, bcast2 in Hi |- *. cbn [rows] in Hi |- *.
    rewrite !zip_with_length, !rows_of_coef, !length_map in Hi.
    rewrite (zip_with_nth _ [] [] [])
      by (rewrite !zip_with_length, !rows_of_coef, !length_map; lia).
    rewrite !rows_of_coef, !zip_with_coef_nth by lia.
    assert (Hti : nth i t 0%Z = 0%Z).
    { unfold t, fill_t. cbn [hd]. apply nth_repeat_lt. unfold t, fill_t in Hl.
      cbn [hd] in Hl. rewrite repeat_length in Hl. lia. }
    rewrite Hti. change (Z.to_nat 0) with 0%nat. rewrite Hc1, Hc2.
    rewrite Forall_forall in Hrr, Hrx.
    apply row_one_zero_clipped.
    + rewrite Hrr, Hrx; [reflexivity | apply nth_In; lia ..].
    + unfold r', tmap. cbn [rows].
      rewrite (nth_map_default _ _ _ []) by (unfold r', tmap in Hlr; cbn [rows] in Hlr;
                                              rewrite length_map in Hlr; lia).
      apply Forall_map, Forall_forall. intros v _. apply xclip_clipped.
Qed.

(** The step at timestep 0 returns a clipped image. *)
Lemma p_sample_at_zero_clipped (x : Tensor) (repeat_noise : bool) (w : world rng) :
  has_shape x [B; H; W; C] ->
  exists out w',
    p_sample gd denoise_fn x (fill_t [B; H; W; C] 0) noise_fn true repeat_noise w
    = (Ok out, w') /\
    has_shape out [B; H; W; C] /\ clipped_tensor out.
Proof.
  intros Hx.
  set (t := fill_t [B; H; W; C] 0).
  assert (Hrange : (0 <= 0 < Z.of_nat (num_timesteps gd))%Z)
    by (destruct Hgd as [Hpos _]; lia).
  destruct (fill_t_valid gd B H W C 0 Hrange) as [Hl Hv]. fold t in Hl, Hv.
  destruct (p_sample_ok gd Hgd Hloss denoise_fn noise_fn Hnoise B H W C Hdenoise
              x t true repeat_noise w Hx Hl Hv)
    as [mean [pv [noise [w' [Hpmv [Hsm [Hsn [_ [_ [Hps [Hout _]]]]]]]]]]].
  destruct (p_mean_variance_at_zero_clipped x Hx) as [mean' [pv' [Hpmv' [_ Hclip]]]].
  fold t in Hpmv'. rewrite Hpmv in Hpmv'. injection Hpmv' as Emean Epv. subst mean' pv'.
  eexists; eexists. split; [exact Hps |]. split; [exact Hout |].
  destruct (nth 0 (posterior_log_variance_clipped gd) NaN) as [l | | |] eqn:Elv;
    try contradiction.
  destruct Hsm as [_ [Hlm Hrm]]. destruct Hsn as [_ [Hln Hrn]]. cbn [hd tl] in *.
  unfold clipped_tensor in *. apply Forall_forall. intros row Hin.
  apply In_nth with (d := []) in Hin. destruct Hin as [i [Hi <-]].
  unfold tadd, tmul, bcast2, sigma_tensor, tmap, mask_tensor, coef_tensor in Hi |- *.
  cbn [rows shape] in Hi |- *.
  rewrite !zip_with_length, !length_map in Hi.
  assert (Hit : (i < length t)%nat) by lia.
  rewrite (zip_with_nth _ [] [] []);
    [| lia | rewrite !zip_with_length, !length_map; lia].
  rewrite (zip_with_nth _ [] [] []);
    [| rewrite !zip_with_length, !length_map; lia | lia].
  rewrite (zip_with_nth _ [] [] []); [| rewrite !length_map; lia ..].
  rewrite !map_map.
  rewrite !(nth_map_default _ _ _ 0%Z) by exact Hit.
  assert (Hti : nth i t 0%Z = 0%Z).
  { unfold t, fill_t. cbn [hd]. apply nth_repeat_lt.
    unfold t, fill_t in Hit. cbn [hd] in Hit. rewrite repeat_length in Hit. exact Hit. }
  rewrite Hti. cbn [Z.eqb map]. change (Z.to_nat 0) with 0%nat.
  rewrite Elv. cbn [xmul xexp brow map].
  rewrite Forall_forall in Hrm, Hrn, Hclip.
  apply row_clipped_plus_zero.
  - lra.
  - rewrite Hrm, Hrn; [reflexivity | apply nth_In; lia ..].
  - apply Hclip. apply nth_In. lia.
Qed.

End LastStep.

Lemma reverse_steps_app {rng : Type} (gd : GaussianDiffusion) (denoise_fn : denoiser)
      (noise_fn : noise_source rng) (B H W C : nat) (l1 l2 : list Z) :
  forall img w,
  reverse_steps gd denoise_fn noise_fn B H W C (l1 ++ l2) img w
  = (img' <- reverse_steps gd denoise_fn noise_fn B H W C l1 img ;;
     reverse_steps gd denoise_fn noise_fn B H W C l2 img') w.
Proof.
  induction l1 as [| i l1 IH]; intros img w; [reflexivity |].
  cbn [app reverse_steps bind M_monad].
  destruct (p_sample gd denoise_fn img (fill_t [B; H; W; C] i) noise_fn true false w)
    as [[img1 | e] w1]; [| reflexivity].
  rewrite IH. reflexivity.
Qed.

Lemma countdown_last (T : nat) :
  (0 < T)%nat -> countdown T = down_from (Z.of_nat T - 1) (T - 1) ++ [0%Z].
Proof.
  intros HT. unfold countdown.
  replace T with ((T - 1) + 1)%nat at 2 by lia.
  rewrite down_from_app. cbn [down_from]. do 3 f_equal. lia.
Qed.

(** X15.  On a "noisepred" table whose stored posterior coefficients at
    index 0 are exactly 1 (on the reconstruction) and 0 (on the current
    image), with a finite clipped log-variance there, the samples
    [p_sample_loop] returns are clipped to the image range: every entry of
    the returned tensor lies in [-1, 1], or is NaN.  The last step runs at
    timestep 0, where the mean is then the clipped reconstruction and no
    noise is added.  Over the reals every accepted beta sequence gives such
    a table ([first_timestep_tables]); the float tables of the code can miss
    the first condition by rounding. *)
Theorem p_sample_loop_returns_clipped {rng : Type}
        (gd : GaussianDiffusion) (denoise_fn : denoiser)
        (noise_fn : noise_source rng) (B H W C : nat) (fuel : nat)
        (w : world rng) :
  tables_complete gd -> loss_type gd = "noisepred"%string ->
  nth 0 (posterior_mean_coef1 gd) NaN = Fin 1 ->
  nth 0 (posterior_mean_coef2 gd) NaN = Fin 0 ->
  is_fin (nth 0 (posterior_log_variance_clipped gd) NaN) ->
  shape_preserving denoise_fn [B; H; W; C] -> noise_shaped noise_fn ->
  (num_timesteps gd < fuel)%nat ->
  exists img w',
    p_sample_loop gd fuel denoise_fn [B; H; W; C] noise_fn w = (Ok img, w') /\
    has_shape img [B; H; W; C] /\ clipped_tensor img.
Proof.
  intros Hgd Hloss Hc1 Hc2 Hlv Hd Hn Hfuel.
  destruct (p_sample_loop_run gd denoise_fn noise_fn B H W C fuel w Hgd Hloss
              Hd Hn Hfuel) as [img [w' [Hrun [Hs [Hsteps _]]]]].
  exists img, w'. split; [exact Hrun |]. split; [exact Hs |].
  set (T := num_timesteps gd) in *.
  set (img_0 := fst (noise_fn [B; H; W; C] (rng_state w))) in *.
  set (w0 := mkWorld (snd (noise_fn [B; H; W; C] (rng_state w))) (calls w)) in *.
  rewrite (countdown_last T (proj1 Hgd)), reverse_steps_app in Hsteps.
  assert (Hvalid : Forall (valid_index T) (down_from (Z.of_nat T - 1) (T - 1))).
  { apply Forall_forall. intros j Hj. apply down_from_In in Hj.
    unfold valid_index. lia. }
  destruct (reverse_steps_ok gd denoise_fn noise_fn B H W C Hgd Hloss Hn Hd
              _ img_0 w0 (Hn _ _) Hvalid) as [img1 [w1 [Hpre [Hs1 _]]]].
  rewrite (M_bind_ok _ _ _ _ _ Hpre) in Hsteps.
  destruct (p_sample_at_zero_clipped gd Hgd Hloss Hc1 Hc2 Hlv denoise_fn noise_fn
              Hn B H W C Hd img1 false w1 Hs1) as [out [w2 [Hlast [_ Hclip]]]].
  cbn [reverse_steps] in Hsteps.
  rewrite (M_bind_ok _ _ _ _ _ Hlast) in Hsteps.
  cbn [ret M_monad] in Hsteps. injection Hsteps as <- _. exact Hclip.
Qed.

Lemma p_sample_loop_returns_clipped_witness :
  exists img w',
    p_sample_loop (init_attributes [1 / 2; 1 / 2] "noisepred") 3 identity_denoiser
                  [1; 1; 1; 1]%nat zero_noise (mkWorld tt []) = (Ok img, w') /\
    clipped_tensor img.
Proof.
  assert (Hinit : GaussianDiffusion_init [1 / 2; 1 / 2] "noisepred"
                  = Ok (init_attributes [1 / 2; 1 / 2] "noisepred"))
    by (apply init_accepts; [discriminate | repeat constructor; lra]).
  destruct (first_timestep_tables _ _ _ Hinit) as [_ [Hplv [Hc1 Hc2]]].
  destruct (p_sample_loop_returns_clipped
              (init_attributes [1 / 2; 1 / 2] "noisepred")
              identity_denoiser zero_noise 1 1 1 1 3 (mkWorld tt []))
    as [img [w' [Hrun [_ Hclip]]]].
  - exact (init_tables_complete _ _ _ Hinit).
  - reflexivity.
  - exact Hc1.
  - exact Hc2.
  - rewrite Hplv. exact I.
  - apply identity_shape_preserving.
  - apply zero_noise_shaped.
  - simpl. lia.
  - exists img, w'. split; [exact Hrun | exact Hclip].
Defined.

(** ** [interpolate] *)

Lemma q_sample_draws {rng : Type} (random_normal : noise_source rng)
      (gd : GaussianDiffusion) (x : Tensor) (t : list Z) (w : world rng) :
  q_sample random_normal gd x t None w
  = q_sample random_normal gd x t
             (Some (fst (random_normal (shape x) (rng_state w))))
             (mkWorld (snd (random_normal (shape x) (rng_state w))) (calls w)).
Proof.
  unfold q_sample.
  rewrite (M_bind_ok _ _ _ _ _ (draw_run random_normal (shape x) w)).
  reflexivity.
Qed.

Lemma xadd_zero_l (v : xreal) (z : R) : z = 0 -> xadd (Fin z) v = v.
Proof. intros ->. destruct v; simpl; [f_equal; lra | reflexivity ..]. Qed.

Lemma row_zero_one (xr tr : list xreal) (z o : R) :
  z = 0 -> o = 1 -> length xr = length tr -> Forall is_fin xr ->
  brow xadd (map (xmul (Fin z)) xr) (map (xmul (Fin o)) tr) = tr.
Proof.
  intros -> -> Hlen Hf.
  rewrite brow_same_length by (rewrite !length_map; exact Hlen).
  revert tr Hlen. induction Hf as [| u xr Hu Hf IH]; intros [| v tr] Hlen;
    simpl in Hlen; try discriminate; [reflexivity |].
  destruct u as [u | | |]; try contradiction.
  cbn [map zip_with]. rewrite xmul_one_l. cbn [xmul].
  rewrite xadd_zero_l by lra. f_equal. apply IH. lia.
Qed.

Lemma row_one_zero_gen (xr tr : list xreal) (o z : R) :
  o = 1 -> z = 0 -> length xr = length tr -> Forall is_fin tr ->
  brow xadd (map (xmul (Fin o)) xr) (map (xmul (Fin z)) tr) = xr.
Proof. intros -> ->. apply row_one_zero. Qed.

Lemma has_shape_mix (lam : R) (xt1 xt2 : Tensor) (s : list nat) :
  has_shape xt1 s -> has_shape xt2 s -> has_shape (mix lam xt1 xt2) s.
Proof.
  intros H1 H2. unfold mix. apply has_shape_bcast2_same; apply has_shape_tmap;
    assumption.
Qed.

Lemma mix_rows_nth (lam : R) (xt1 xt2 : Tensor) (i : nat) :
  (i < length (rows xt1))%nat -> (i < length (rows xt2))%nat ->
  nth i (rows (mix lam xt1 xt2)) []
  = brow xadd (map (xmul (Fin (1 - lam))) (nth i (rows xt1) []))
              (map (xmul (Fin lam)) (nth i (rows xt2) [])).
Proof.
  intros H1 H2. unfold mix, tadd, bcast2, tmap. cbn [rows].
  rewrite (zip_with_nth _ [] [] []) by (rewrite length_map; assumption).
  rewrite !(nth_map_default _ _ _ []) by assumption. reflexivity.
Qed.

(** With weight 0 the mix is the first latent, with weight 1 the second,
    when the other latent is finite. *)
Lemma mix_endpoints (xt1 xt2 : Tensor) (s : list nat) :
  has_shape xt1 s -> has_shape xt2 s ->
  (finite_tensor xt2 -> mix 0 xt1 xt2 = xt1) /\
  (finite_tensor xt1 -> mix 1 xt1 xt2 = xt2).
Proof.
  intros H1 H2.
  assert (Hm : forall lam, has_shape (mix lam xt1 xt2) s)
    by (intros lam; apply has_shape_mix; assumption).
  destruct H1 as [Hs1 [Hl1 Hr1]]. destruct H2 as [Hs2 [Hl2 Hr2]].
  rewrite Forall_forall in Hr1, Hr2.
  split; intros Hfin; unfold finite_tensor in Hfin; rewrite Forall_forall in Hfin.
  - destruct (Hm 0) as [Hsm [Hlm _]].
    apply tensor_ext; [congruence |].
    apply (zip_with_ext_nth []); [congruence |].
    rewrite Hlm. intros i Hi. rewrite mix_rows_nth by lia.
    apply row_one_zero_gen; [lra | reflexivity | |].
    + rewrite Hr1, Hr2; [reflexivity | apply nth_In; lia ..].
    + apply Hfin. apply nth_In. lia.
  - destruct (Hm 1) as [Hsm [Hlm _]].
    apply tensor_ext; [congruence |].
    apply (zip_with_ext_nth []); [congruence |].
    rewrite Hlm. intros i Hi. rewrite mix_rows_nth by lia.
    apply row_zero_one; [lra | reflexivity | |].
    + rewrite Hr1, Hr2; [reflexivity | apply nth_In; lia ..].
    + apply Hfin. apply nth_In. lia.
Qed.

Lemma finite_row_affine (c1 c2 : R) (xr nr : list xreal) :
  length xr = length nr -> Forall is_fin xr -> Forall is_fin nr ->
  Forall is_fin (brow xadd (brow xmul [Fin c1] xr) (brow xmul [Fin c2] nr)).
Proof.
  intros Hlen Hx Hn. rewrite !brow_singleton.
  rewrite brow_same_length by (rewrite !length_map; exact Hlen).
  apply (Forall_zip_with xadd is_fin is_fin).
  - intros [a | | |] [b | | |]; simpl; intros; try contradiction; exact I.
  - apply Forall_map. eapply Forall_impl; [| exact Hx].
    intros [a | | |]; simpl; intros; try contradiction; exact I.
  - apply Forall_map. eapply Forall_impl; [| exact Hn].
    intros [a | | |]; simpl; intros; try contradiction; exact I.
Qed.

(** The forward step keeps finite data finite. *)
Lemma q_sample_finite {rng : Type} (random_normal : noise_source rng)
      (bs : list R) (lt : string) (gd : GaussianDiffusion) (x n : Tensor)
      (t : list Z) (b0 : nat) (rest : list nat) (w : world rng) :
  GaussianDiffusion_init bs lt = Ok gd ->
  has_shape x (b0 :: rest) -> has_shape n (b0 :: rest) ->
  finite_tensor x -> finite_tensor n ->
  length t = b0 -> Forall (valid_index (num_timesteps gd)) t ->
  exists x_t,
    q_sample random_normal gd x t (Some n) w = (Ok x_t, w) /\
    has_shape x_t (b0 :: rest) /\ finite_tensor x_t.
Proof.
  intros Hinit Hx Hn Hfx Hfn Hl Hv.
  pose proof (init_tables_complete _ _ _ Hinit) as Hgd.
  eexists. split; [apply (q_sample_value random_normal gd Hgd x n t b0 rest w
                            Hx Hn Hl Hv) |].
  split; [apply has_shape_affine; assumption |].
  destruct Hx as [_ [Hlx Hrx]]. destruct Hn as [_ [Hln Hrn]]. cbn [hd tl] in *.
  unfold finite_tensor in *. apply Forall_forall. intros row Hin.
  apply In_nth with (d := []) in Hin. destruct Hin as [i [Hi <-]].
  unfold tadd, tmul, bcast2 in Hi |- *. cbn [rows] in Hi |- *.
  rewrite !zip_with_length, !rows_of_coef, !length_map in Hi.
  rewrite (zip_with_nth _ [] [] [])
    by (rewrite !zip_with_length, !rows_of_coef, !length_map; lia).
  rewrite !rows_of_coef, !zip_with_coef_nth by lia.
  assert (Hti : (Z.to_nat (nth i t 0%Z) < num_timesteps gd)%nat).
  { rewrite Forall_forall in Hv.
    assert (Hin : In (nth i t 0%Z) t) by (apply nth_In; lia).
    specialize (Hv _ Hin). unfold valid_index in Hv. lia. }
  destruct (tables_at bs lt gd _ Hinit Hti) as [_ [_ [_ [_ [Ec [Es _]]]]]].
  rewrite Ec, Es, <- !brow_singleton.
  rewrite Forall_forall in Hrx, Hrn, Hfx, Hfn.
  apply finite_row_affine.
  - rewrite Hrx, Hrn; [reflexivity | apply nth_In; lia ..].
  - apply Hfx, nth_In. lia.
  - apply Hfn, nth_In. lia.
Qed.

Section Interpolate.

Context {rng : Type}.
Variable random_normal : noise_source rng.
Variable bs : list R.
Variable gd : GaussianDiffusion.
Hypothesis Hinit : GaussianDiffusion_init bs "noisepred" = Ok gd.
Variable denoise_fn : denoiser.
Variable noise_fn : noise_source rng.
Hypothesis Hnoise : noise_shaped noise_fn.
Hypothesis Hrandom : noise_shaped random_normal.
Variables B H W C : nat.
Hypothesis Hdenoise : shape_preserving denoise_fn [B; H; W; C].

(** A chain of reverse steps from [t] down to 0 succeeds and ends clipped. *)
Lemma reverse_steps_to_zero (t : Z) (img : Tensor) (w : world rng) :
  (0 <= t < Z.of_nat (num_timesteps gd))%Z -> has_shape img [B; H; W; C] ->
  exists out w',
    reverse_steps gd denoise_fn noise_fn B H W C
                  (down_from t (Z.to_nat (t + 1))) img w = (Ok out, w') /\
    has_shape out [B; H; W; C] /\ clipped_tensor out /\
    calls w' = calls w ++ map (fun i => (repeat i B, false))
                              (down_from t (Z.to_nat (t + 1))).
Proof.
  intros Ht Himg.
  pose proof (init_tables_complete _ _ _ Hinit) as Hgd.
  pose proof (init_loss_type _ _ _ Hinit) as Hloss.
  set (k := Z.to_nat (t + 1)).
  assert (Hvalid : Forall (valid_index (num_timesteps gd)) (down_from t k)).
  { apply Forall_forall. intros j Hj. apply down_from_In in Hj.
    unfold valid_index, k in *. lia. }
  destruct (reverse_steps_ok gd denoise_fn noise_fn B H W C Hgd Hloss Hnoise Hdenoise
              _ img w Himg Hvalid) as [out [w' [Hrun [Hs Hc]]]].
  exists out, w'. split; [exact Hrun |]. split; [exact Hs |]. split; [| exact Hc].
  assert (Hsplit : down_from t k = down_from t (k - 1) ++ [0%Z]).
  { replace k with ((k - 1) + 1)%nat at 1 by (unfold k; lia).
    rewrite down_from_app. cbn [down_from]. do 2 f_equal. unfold k. lia. }
  rewrite Hsplit, reverse_steps_app in Hrun.
  assert (Hvalid' : Forall (valid_index (num_timesteps gd)) (down_from t (k - 1))).
  { apply Forall_forall. intros j Hj. apply down_from_In in Hj.
    unfold valid_index, k in *. lia. }
  destruct (reverse_steps_ok gd denoise_fn noise_fn B H W C Hgd Hloss Hnoise Hdenoise
              _ img w Himg Hvalid') as [img1 [w1 [Hpre [Hs1 _]]]].
  rewrite (M_bind_ok _ _ _ _ _ Hpre) in Hrun.
  destruct (first_timestep_tables _ _ _ Hinit) as [_ [Hplv [Hc1 Hc2]]].
  assert (Hlv : is_fin (nth 0 (posterior_log_variance_clipped gd) NaN))
    by (rewrite Hplv; exact I).
  destruct (p_sample_at_zero_clipped gd Hgd Hloss Hc1 Hc2 Hlv denoise_fn noise_fn
              Hnoise B H W C Hdenoise img1 false w1 Hs1)
    as [out' [w2 [Hlast [_ Hclip]]]].
  cbn [reverse_steps] in Hrun. rewrite (M_bind_ok _ _ _ _ _ Hlast) in Hrun.
  cbn [ret M_monad] in Hrun. injection Hrun as <- _. exact Hclip.
Qed.

(** The run of [interpolate]: two forward samples with fresh noise, their
    mix, and the reverse chain from [t]. *)
Lemma interpolate_chain (fuel : nat) (x1 x2 : Tensor) (lam : R) (t : Z)
      (w : world rng) :
  (0 < B)%nat ->
  has_shape x1 [B; H; W; C] -> has_shape x2 [B; H; W; C] ->
  (0 <= t < Z.of_nat (num_timesteps gd))%Z -> (Z.to_nat (t + 1) < fuel)%nat ->
  let n1 := fst (random_normal [B; H; W; C] (rng_state w)) in
  let w1 := mkWorld (snd (random_normal [B; H; W; C] (rng_state w))) (calls w) in
  let n2 := fst (random_normal [B; H; W; C] (rng_state w1)) in
  let w2 := mkWorld (snd (random_normal [B; H; W; C] (rng_state w1))) (calls w) in
  exists xt1 xt2 out w',
    q_sample random_normal gd x1 (repeat t B) (Some n1) w1 = (Ok xt1, w1) /\
    q_sample random_normal gd x2 (repeat t B) (Some n2) w2 = (Ok xt2, w2) /\
    has_shape xt1 [B; H; W; C] /\ has_shape xt2 [B; H; W; C] /\
    reverse_steps gd denoise_fn noise_fn B H W C (down_from t (Z.to_nat (t + 1)))
                  (mix lam xt1 xt2) w2 = (Ok out, w') /\
    interpolate random_normal gd fuel denoise_fn [B; H; W; C] noise_fn x1 x2 lam t w
    = (Ok out, w') /\
    has_shape out [B; H; W; C] /\ clipped_tensor out /\
    calls w' = calls w ++ map (fun i => (repeat i B, false))
                              (down_from t (Z.to_nat (t + 1))).
Proof.
  intros HB Hx1 Hx2 Ht Hfuel n1 w1 n2 w2.
  pose proof (init_tables_complete _ _ _ Hinit) as Hgd.
  pose proof (init_loss_type _ _ _ Hinit) as Hloss.
  assert (Hl : length (repeat t B) = B) by apply repeat_length.
  assert (Hv : Forall (valid_index (num_timesteps gd)) (repeat t B)).
  { apply Forall_forall. intros j Hj. apply repeat_spec in Hj. subst. exact Ht. }
  destruct (q_sample_ok random_normal gd x1 n1 (repeat t B) B [H; W; C] w1 Hgd Hx1
              (Hrandom _ _) Hl Hv) as [xt1 [Hq1 Hs1]].
  destruct (q_sample_ok random_normal gd x2 n2 (repeat t B) B [H; W; C] w2 Hgd Hx2
              (Hrandom _ _) Hl Hv) as [xt2 [Hq2 Hs2]].
  pose proof (has_shape_mix lam xt1 xt2 _ Hs1 Hs2) as Hsm.
  destruct (reverse_steps_to_zero t (mix lam xt1 xt2) w2 Ht Hsm)
    as [out [w' [Hrun [Hso [Hclip Hc]]]]].
  exists xt1, xt2, out, w'.
  repeat (split; [assumption |]).
  split; [| split; [exact Hso | split; [exact Hclip | exact Hc]]].
  unfold interpolate.
  replace (Nat.eqb B 0) with false by (symmetry; apply Nat.eqb_neq; lia).
  rewrite Hloss, (proj1 Hx1), (proj1 Hx2), same_shape_refl. cbn [andb String.eqb].
  run_bind ltac:(reflexivity).
  run_bind ltac:(reflexivity).
  run_bind ltac:(reflexivity).
  run_bind ltac:(rewrite q_sample_draws, (proj1 Hx1); exact Hq1).
  run_bind ltac:(rewrite q_sample_draws, (proj1 Hx2); exact Hq2).
  fold (mix lam xt1 xt2).
  run_bind ltac:(replace t with (Z.of_nat (Z.to_nat (t + 1)) - 1)%Z at 1 by lia;
                 rewrite sample_loop_unroll by exact Hfuel;
                 replace (Z.of_nat (Z.to_nat (t + 1)) - 1)%Z with t by lia;
                 run_bind ltac:(exact Hrun); reflexivity).
  run_assert ltac:(rewrite (proj1 Hso); apply same_shape_refl).
  reflexivity.
Qed.

End Interpolate.

(** X16. [interpolate] on a "noisepred" model with a non-empty batch of
    images of the sampling shape and a timestep t in [0, T-1] succeeds: it
    draws the two forward samples in order, mixes them with weights
    [1 - lam] and [lam], and returns, with the sampling shape, the result of
    the reverse chain from that mix, after exactly t + 1 reverse steps at
    timesteps t, t-1, ..., 0, none of which repeats its noise over the
    batch. *)
Theorem interpolate_runs {rng : Type} (random_normal : noise_source rng)
        (bs : list R) (gd : GaussianDiffusion) (denoise_fn : denoiser)
        (noise_fn : noise_source rng) (B H W C : nat) (fuel : nat)
        (x1 x2 : Tensor) (lam : R) (t : Z) (w : world rng) :
  GaussianDiffusion_init bs "noisepred" = Ok gd ->
  shape_preserving denoise_fn [B; H; W; C] ->
  noise_shaped noise_fn -> noise_shaped random_normal ->
  (0 < B)%nat ->
  has_shape x1 [B; H; W; C] -> has_shape x2 [B; H; W; C] ->
  (0 <= t < Z.of_nat (num_timesteps gd))%Z -> (Z.to_nat (t + 1) < fuel)%nat ->
  exists xt1 xt2 w1 w2 out w',
    q_sample random_normal gd x1 (repeat t B) None w = (Ok xt1, w1) /\
    q_sample random_normal gd x2 (repeat t B) None w1 = (Ok xt2, w2) /\
    reverse_steps gd denoise_fn noise_fn B H W C (down_from t (Z.to_nat (t + 1)))
                  (mix lam xt1 xt2) w2 = (Ok out, w') /\
    interpolate random_normal gd fuel denoise_fn [B; H; W; C] noise_fn x1 x2 lam t w
    = (Ok out, w') /\
    has_shape out [B; H; W; C] /\
    calls w' = calls w ++ map (fun i => (repeat i B, false))
                              (down_from t (Z.to_nat (t + 1))).
Proof.
  intros Hinit Hd Hn Hr HB Hx1 Hx2 Ht Hfuel.
  destruct (interpolate_chain random_normal bs gd Hinit denoise_fn noise_fn Hn Hr
              B H W C Hd fuel x1 x2 lam t w HB Hx1 Hx2 Ht Hfuel)
    as [xt1 [xt2 [out [w' [Hq1 [Hq2 [_ [_ [Hsteps [Hrun [Hs [_ Hc]]]]]]]]]]]].
  exists xt1, xt2.
  exists (mkWorld (snd (random_normal [B; H; W; C] (rng_state w))) (calls w)).
  eexists. exists out, w'.
  split; [rewrite q_sample_draws, (proj1 Hx1); exact Hq1 |].
  split; [rewrite q_sample_draws, (proj1 Hx2); exact Hq2 |].
  split; [exact Hsteps |]. split; [exact Hrun |]. split; [exact Hs | exact Hc].
Qed.

Lemma interpolate_runs_witness :
  exists out w',
    interpolate zero_noise (init_attributes [1 / 2; 1 / 2] "noisepred") 3
                identity_denoiser [1; 1; 1; 1]%nat zero_noise
                (zeros [1; 1; 1; 1]%nat) (zeros [1; 1; 1; 1]%nat) (1 / 4) 1
                (mkWorld tt [])
    = (Ok out, w') /\
    has_shape out [1; 1; 1; 1]%nat /\
    calls w' = [([1%Z], false); ([0%Z], false)].
Proof.
  destruct (interpolate_runs zero_noise [1 / 2; 1 / 2]
              (init_attributes [1 / 2; 1 / 2] "noisepred")
              identity_denoiser zero_noise 1 1 1 1 3
              (zeros [1; 1; 1; 1]%nat) (zeros [1; 1; 1; 1]%nat) (1 / 4) 1
              (mkWorld tt []))
    as [_ [_ [_ [_ [out [w' [_ [_ [_ [Hrun [Hs Hc]]]]]]]]]]].
  - apply init_accepts; [discriminate | repeat constructor; lra].
  - apply identity_shape_preserving.
  - apply zero_noise_shaped.
  - apply zero_noise_shaped.
  - lia.
  - apply zeros_has_shape.
  - apply zeros_has_shape.
  - simpl. lia.
  - simpl. lia.
  - exists out, w'. split; [exact Hrun |]. split; [exact Hs | exact Hc].
Defined.

(** X17. The endpoints of [interpolate]: on a non-empty batch of finite
    images and finite forward noise, lam = 0 runs the reverse chain from the diffused first
    image alone and lam = 1 from the diffused second image alone; both
    forward samples are drawn in either case. *)
Theorem interpolate_endpoints {rng : Type} (random_normal : noise_source rng)
        (bs : list R) (gd : GaussianDiffusion) (denoise_fn : denoiser)
        (noise_fn : noise_source rng) (B H W C : nat) (fuel : nat)
        (x1 x2 : Tensor) (t : Z) (w : world rng) :
  GaussianDiffusion_init bs "noisepred" = Ok gd ->
  shape_preserving denoise_fn [B; H; W; C] ->
  noise_shaped noise_fn -> noise_shaped random_normal ->
  noise_finite random_normal -> (0 < B)%nat ->
  has_shape x1 [B; H; W; C] -> has_shape x2 [B; H; W; C] ->
  finite_tensor x1 -> finite_tensor x2 ->
  (0 <= t < Z.of_nat (num_timesteps gd))%Z -> (Z.to_nat (t + 1) < fuel)%nat ->
  exists xt1 xt2 w1 w2,
    q_sample random_normal gd x1 (repeat t B) None w = (Ok xt1, w1) /\
    q_sample random_normal gd x2 (repeat t B) None w1 = (Ok xt2, w2) /\
    interpolate random_normal gd fuel denoise_fn [B; H; W; C] noise_fn x1 x2 0 t w
    = reverse_steps gd denoise_fn noise_fn B H W C
                    (down_from t (Z.to_nat (t + 1))) xt1 w2 /\
    interpolate random_normal gd fuel denoise_fn [B; H; W; C] noise_fn x1 x2 1 t w
    = reverse_steps gd denoise_fn noise_fn B H W C
                    (down_from t (Z.to_nat (t + 1))) xt2 w2.
Proof.
  intros Hinit Hd Hn Hr Hf HB Hx1 Hx2 Hf1 Hf2 Ht Hfuel.
  set (n1 := fst (random_normal [B; H; W; C] (rng_state w))).
  set (w1 := mkWorld (snd (random_normal [B; H; W; C] (rng_state w))) (calls w)).
  set (n2 := fst (random_normal [B; H; W; C] (rng_state w1))).
  set (w2 := mkWorld (snd (random_normal [B; H; W; C] (rng_state w1))) (calls w)).
  assert (Hl : length (repeat t B) = B) by apply repeat_length.
  assert (Hv : Forall (valid_index (num_timesteps gd)) (repeat t B)).
  { apply Forall_forall. intros j Hj. apply repeat_spec in Hj. subst. exact Ht. }
  destruct (q_sample_finite random_normal bs "noisepred" gd x1 n1 (repeat t B) B
              [H; W; C] w1 Hinit Hx1 (Hr _ _) Hf1 (Hf _ _) Hl Hv)
    as [xt1 [Hq1 [Hs1 Hfin1]]].
  destruct (q_sample_finite random_normal bs "noisepred" gd x2 n2 (repeat t B) B
              [H; W; C] w2 Hinit Hx2 (Hr _ _) Hf2 (Hf _ _) Hl Hv)
    as [xt2 [Hq2 [Hs2 Hfin2]]].
  destruct (mix_endpoints xt1 xt2 _ Hs1 Hs2) as [Hm0 Hm1].
  exists xt1, xt2, w1, w2.
  split; [rewrite q_sample_draws, (proj1 Hx1); exact Hq1 |].
  split; [rewrite q_sample_draws, (proj1 Hx2); exact Hq2 |].
  split.
  - destruct (interpolate_chain random_normal bs gd Hinit denoise_fn noise_fn Hn Hr
                B H W C Hd fuel x1 x2 0 t w HB Hx1 Hx2 Ht Hfuel)
      as [a [b [out [w' [Ha [Hb [_ [_ [Hsteps [Hrun _]]]]]]]]]].
    fold n1 w1 in Ha. fold n1 w1 n2 w2 in Hb, Hsteps.
    rewrite Hq1 in Ha. rewrite Hq2 in Hb.
    injection Ha as <-. injection Hb as <-.
    rewrite Hm0 in Hsteps by exact Hfin2. rewrite Hrun, Hsteps. reflexivity.
  - destruct (interpolate_chain random_normal bs gd Hinit denoise_fn noise_fn Hn Hr
                B H W C Hd fuel x1 x2 1 t w HB Hx1 Hx2 Ht Hfuel)
      as [a [b [out [w' [Ha [Hb [_ [_ [Hsteps [Hrun _]]]]]]]]]].
    fold n1 w1 in Ha. fold n1 w1 n2 w2 in Hb, Hsteps.
    rewrite Hq1 in Ha. rewrite Hq2 in Hb.
    injection Ha as <-. injection Hb as <-.
    rewrite Hm1 in Hsteps by exact Hfin1. rewrite Hrun, Hsteps. reflexivity.
Qed.

Lemma interpolate_endpoints_witness :
  exists xt1 xt2 w1 w2,
    q_sample zero_noise (init_attributes [1 / 2; 1 / 2] "noisepred")
             (zeros [1; 1; 1; 1]%nat) [1%Z] None (mkWorld tt []) = (Ok xt1, w1) /\
    q_sample zero_noise (init_attributes [1 / 2; 1 / 2] "noisepred")
             (zeros [1; 1; 1; 1]%nat) [1%Z] None w1 = (Ok xt2, w2) /\
    interpolate zero_noise (init_attributes [1 / 2; 1 / 2] "noisepred") 3
                identity_denoiser [1; 1; 1; 1]%nat zero_noise
                (zeros [1; 1; 1; 1]%nat) (zeros [1; 1; 1; 1]%nat) 0 1
                (mkWorld tt [])
    = reverse_steps (init_attributes [1 / 2; 1 / 2] "noisepred")
                    identity_denoiser zero_noise 1 1 1 1 [1%Z; 0%Z] xt1 w2.
Proof.
  destruct (interpolate_endpoints zero_noise [1 / 2; 1 / 2]
              (init_attributes [1 / 2; 1 / 2] "noisepred")
              identity_denoiser zero_noise 1 1 1 1 3
              (zeros [1; 1; 1; 1]%nat) (zeros [1; 1; 1; 1]%nat) 1
              (mkWorld tt []))
    as [xt1 [xt2 [w1 [w2 [Hq1 [Hq2 [H0 _]]]]]]].
  - apply init_accepts; [discriminate | repeat constructor; lra].
  - apply identity_shape_preserving.
  - apply zero_noise_shaped.
  - apply zero_noise_shaped.
  - apply zero_noise_finite.
  - lia.
  - apply zeros_has_shape.
  - apply zeros_has_shape.
  - exact (zero_noise_finite [1; 1; 1; 1]%nat tt).
  - exact (zero_noise_finite [1; 1; 1; 1]%nat tt).
  - simpl. lia.
  - simpl. lia.
  - exists xt1, xt2, w1, w2. split; [exact Hq1 |]. split; [exact Hq2 | exact H0].
Defined.



(** ** [p_sample_loop_trajectory] without repeated noise *)

Section TrajectoryChain.

Context {rng : Type}.
Variable gd : GaussianDiffusion.
Variable denoise_fn : denoiser.
Variable noise_fn : noise_source rng.
Variables B H W C : nat.

(** The second loop of the trajectory appends the images of the reverse
    chain, one per step. *)
Lemma trajectory_loop_chain (k : nat) : forall fuel times imgs w out w',
  (k < fuel)%nat -> last times 0%Z = (Z.of_nat k - 1)%Z ->
  reverse_steps gd denoise_fn noise_fn B H W C (down_from (Z.of_nat k - 1) k)
                (last imgs empty_tensor) w = (Ok out, w') ->
  exists rest,
    while_loop fuel (fun '(times_, _) => (0 <=? last times_ 0)%Z)
               (trajectory_body gd denoise_fn [B; H; W; C] noise_fn false)
               (times, imgs) w
    = (Ok (times ++ down_from (Z.of_nat k - 2) k, imgs ++ rest), w') /\
    length rest = k /\
    last (imgs ++ rest) empty_tensor = out.
Proof.
  induction k as [| k IH]; intros fuel times imgs w out w' Hk Hlast Hsteps;
    (destruct fuel as [| fuel]; [lia |]); cbn [while_loop down_from reverse_steps] in *.
  - rewrite Hlast. cbn [Z.of_nat Z.sub Z.opp Z.add Z.leb Z.compare].
    exists []. rewrite !app_nil_r. cbn [ret M_monad] in Hsteps.
    injection Hsteps as <- <-. repeat split.
  - rewrite Hlast.
    replace (0 <=? Z.of_nat (S k) - 1)%Z with true by (symmetry; apply Z.leb_le; lia).
    destruct (p_sample gd denoise_fn (last imgs empty_tensor)
                       (fill_t [B; H; W; C] (Z.of_nat (S k) - 1))
                       noise_fn true false w) as [[img' | e] w1] eqn:E.
    + rewrite (M_bind_ok _ _ _ _ _ E) in Hsteps.
      replace (Z.of_nat (S k) - 1 - 1)%Z with (Z.of_nat k - 1)%Z in Hsteps by lia.
      destruct (IH fuel (times ++ [(Z.of_nat (S k) - 1 - 1)%Z]) (imgs ++ [img'])
                   w1 out w') as [rest [Hrun [Hlen Hout]]].
      * lia.
      * rewrite last_last. lia.
      * rewrite last_last. exact Hsteps.
      * exists (img' :: rest). split; [| split].
        -- run_bind ltac:(unfold trajectory_body; rewrite Hlast;
                          run_bind ltac:(exact E); reflexivity).
           rewrite Hrun, <- !app_assoc. cbn [app].
           replace (Z.of_nat (S k) - 2)%Z with (Z.of_nat (S k) - 1 - 1)%Z by lia.
           replace (Z.of_nat (S k) - 1 - 1 - 1)%Z with (Z.of_nat k - 2)%Z by lia.
           reflexivity.
        -- cbn [length]. rewrite Hlen. reflexivity.
        -- rewrite <- Hout, <- app_assoc. reflexivity.
    + rewrite (M_bind_err _ _ _ _ _ E) in Hsteps. discriminate.
Qed.

End TrajectoryChain.

(** X19. With a negative [repeat_noise_steps] (the default is -1)
    [p_sample_loop_trajectory] takes the same steps as [p_sample_loop]: it
    starts from the same noise draw, records T + 1 images with the times
    T-1, ..., 0, -1, and its last image is the sample [p_sample_loop]
    returns from the same random state. *)
Theorem trajectory_default_ends_as_sample_loop {rng : Type} (bs : list R)
        (gd : GaussianDiffusion) (denoise_fn : denoiser)
        (noise_fn : noise_source rng) (B H W C : nat) (fuel : nat)
        (repeat_noise_steps : Z) (w : world rng) :
  GaussianDiffusion_init bs "noisepred" = Ok gd ->
  shape_preserving denoise_fn [B; H; W; C] -> noise_shaped noise_fn ->
  (repeat_noise_steps < 0)%Z -> (num_timesteps gd < fuel)%nat ->
  exists img imgs w',
    p_sample_loop gd fuel denoise_fn [B; H; W; C] noise_fn w = (Ok img, w') /\
    p_sample_loop_trajectory gd fuel denoise_fn [B; H; W; C] noise_fn
                             repeat_noise_steps w
    = (Ok (down_from (Z.of_nat (num_timesteps gd) - 1) (S (num_timesteps gd)), imgs),
       w') /\
    length imgs = S (num_timesteps gd) /\
    hd empty_tensor imgs = fst (noise_fn [B; H; W; C] (rng_state w)) /\
    last imgs empty_tensor = img.
Proof.
  intros Hinit Hd Hn Hr Hfuel.
  pose proof (init_tables_complete _ _ _ Hinit) as Hgd.
  pose proof (init_loss_type _ _ _ Hinit) as Hloss.
  destruct (p_sample_loop_run gd denoise_fn noise_fn B H W C fuel w Hgd Hloss
              Hd Hn Hfuel) as [img [w' [Hrun [Hs [Hsteps _]]]]].
  set (T := num_timesteps gd) in *.
  set (img_0 := fst (noise_fn [B; H; W; C] (rng_state w))) in *.
  set (w0 := mkWorld (snd (noise_fn [B; H; W; C] (rng_state w))) (calls w)) in *.
  destruct (trajectory_loop_chain gd denoise_fn noise_fn B H W C T fuel
              [(Z.of_nat T - 1)%Z] [img_0] w0 img w' Hfuel eq_refl Hsteps)
    as [rest [Hloop [Hlen Hlast]]].
  exists img, ([img_0] ++ rest), w'.
  split; [exact Hrun |]. split; [| split; [| split]].
  - unfold p_sample_loop_trajectory. fold T.
    replace (0 <=? repeat_noise_steps)%Z with false by (symmetry; apply Z.leb_gt; lia).
    run_bind ltac:(unfold noise_like; apply draw_run).
    fold img_0 w0.
    run_bind ltac:(destruct fuel as [| fuel']; [lia |]; cbn [while_loop last];
                   replace (Z.of_nat T - (Z.of_nat T - 1) <=? repeat_noise_steps)%Z
                     with false by (symmetry; apply Z.leb_gt; lia);
                   reflexivity).
    run_bind ltac:(exact Hloop).
    run_assert ltac:(rewrite Hlast, (proj1 Hs); apply same_shape_refl).
    cbn [ret M_monad]. do 3 f_equal. cbn [app down_from]. f_equal. f_equal. lia.
  - cbn [app length]. rewrite Hlen. reflexivity.
  - reflexivity.
  - exact Hlast.
Qed.

Lemma trajectory_default_ends_as_sample_loop_witness :
  exists img imgs w',
    p_sample_loop (init_attributes [1 / 2; 1 / 2] "noisepred") 3 identity_denoiser
                  [1; 1; 1; 1]%nat zero_noise (mkWorld tt []) = (Ok img, w') /\
    p_sample_loop_trajectory (init_attributes [1 / 2; 1 / 2] "noisepred") 3
                             identity_denoiser [1; 1; 1; 1]%nat zero_noise (-1)
                             (mkWorld tt [])
    = (Ok ([1; 0; -1]%Z, imgs), w') /\
    last imgs empty_tensor = img.
Proof.
  destruct (trajectory_default_ends_as_sample_loop [1 / 2; 1 / 2]
              (init_attributes [1 / 2; 1 / 2] "noisepred")
              identity_denoiser zero_noise 1 1 1 1 3 (-1) (mkWorld tt []))
    as [img [imgs [w' [Hrun [Htraj [_ [_ Hlast]]]]]]].
  - apply init_accepts; [discriminate | repeat constructor; lra].
  - apply identity_shape_preserving.
  - apply zero_noise_shaped.
  - lia.
  - simpl. lia.
  - exists img, imgs, w'. split; [exact Hrun |]. split; [exact Htraj | exact Hlast].
Defined.

(** ** The input checks of [p_losses] *)

(** X20. [p_losses] checks its inputs before any noise is drawn: an image
    batch whose rank is not 4 is refused with a value error (the shape
    cannot be unpacked into B, H, W, C), timesteps whose number is not the
    batch size fail the first assertion, and a supplied noise of another
    shape than the images fails the second one; the random state is left
    untouched in all three cases. *)
Theorem p_losses_input_checks {rng : Type} (random_normal : noise_source rng)
        (gd : GaussianDiffusion) (denoise_fn : denoiser) (x_start : Tensor)
        (t : list Z) (w : world rng) :
  (forall noise, length (shape x_start) <> 4%nat ->
     p_losses random_normal gd denoise_fn x_start t noise w = (Err ValueError, w)) /\
  (forall noise, length (shape x_start) = 4%nat ->
     length t <> hd 0%nat (shape x_start) ->
     p_losses random_normal gd denoise_fn x_start t noise w
     = (Err AssertionError, w)) /\
  (forall n, length (shape x_start) = 4%nat ->
     length t = hd 0%nat (shape x_start) ->
     shape n <> shape x_start ->
     p_losses random_normal gd denoise_fn x_start t (Some n) w
     = (Err AssertionError, w)).
Proof.
  split; [| split].
  - intros noise Hrank. unfold p_losses.
    destruct (shape x_start) as [| a [| b [| c [| d [| e l]]]]];
      try reflexivity.
    exfalso. apply Hrank. reflexivity.
  - intros noise Hrank Hlen. unfold p_losses.
    destruct (shape x_start) as [| a [| b [| c [| d [| e l]]]]];
      try discriminate Hrank.
    cbn [hd] in Hlen.
    replace (Nat.eqb (length t) a) with false
      by (symmetry; apply Nat.eqb_neq; exact Hlen).
    reflexivity.
  - intros n Hrank Hlen Hshape. unfold p_losses.
    destruct (shape x_start) as [| a [| b [| c [| d [| e l]]]]] eqn:Es;
      try discriminate Hrank.
    cbn [hd] in Hlen. rewrite Hlen, Nat.eqb_refl.
    run_assert ltac:(reflexivity).
    run_bind ltac:(reflexivity).
    apply M_bind_err.
    replace (same_shape (shape n) [a; b; c; d]) with false; [reflexivity |].
    symmetry. unfold same_shape.
    destruct (shape_eq_dec (shape n) [a; b; c; d]); [contradiction | reflexivity].
Qed.

Lemma p_losses_input_checks_witness :
  p_losses zero_noise (init_attributes [1 / 2; 1 / 2] "noisepred")
           identity_denoiser (zeros [1; 1; 1]%nat) [0%Z] None (mkWorld tt [])
  = (Err ValueError, mkWorld tt []) /\
  p_losses zero_noise (init_attributes [1 / 2; 1 / 2] "noisepred")
           identity_denoiser (zeros [1; 1; 1; 1]%nat) [0%Z; 0%Z] None (mkWorld tt [])
  = (Err AssertionError, mkWorld tt []) /\
  p_losses zero_noise (init_attributes [1 / 2; 1 / 2] "noisepred")
           identity_denoiser (zeros [1; 1; 1; 1]%nat) [0%Z]
           (Some (zeros [1; 1; 1; 2]%nat)) (mkWorld tt [])
  = (Err AssertionError, mkWorld tt []).
Proof.
  split; [| split].
  - apply (proj1 (p_losses_input_checks zero_noise
                    (init_attributes [1 / 2; 1 / 2] "noisepred") identity_denoiser
                    (zeros [1; 1; 1]%nat) [0%Z] (mkWorld tt []))).
    simpl. lia.
  - apply (proj1 (proj2 (p_losses_input_checks zero_noise
                    (init_attributes [1 / 2; 1 / 2] "noisepred") identity_denoiser
                    (zeros [1; 1; 1; 1]%nat) [0%Z; 0%Z] (mkWorld tt []))));
      simpl; lia.
  - apply (proj2 (proj2 (p_losses_input_checks zero_noise
                    (init_attributes [1 / 2; 1 / 2] "noisepred") identity_denoiser
                    (zeros [1; 1; 1; 1]%nat) [0%Z] (mkWorld tt []))));
      simpl; try lia. discriminate.
Defined.

(** ** [normal_kl] *)

(** X21. Between finite normal distributions [normal_kl] is finite and
    never negative, and it is 0 only when the two means are equal and the
    two log-variances are equal. *)
Theorem normal_kl_nonnegative (m1 v1 m2 v2 : R) :
  exists k,
    normal_kl (Fin m1) (Fin v1) (Fin m2) (Fin v2) = Fin k /\
    0 <= k /\
    (k = 0 <-> m1 = m2 /\ v1 = v2).
Proof.
  exists (1 / 2 * (-1 + v2 - v1 + exp (v1 - v2)
                   + (m1 - m2) * (m1 - m2) * exp (- v2))).
  split; [unfold normal_kl, squared_difference; simpl; reflexivity |].
  pose proof (exp_ineq1_le (v1 - v2)) as He.
  pose proof (exp_pos (- v2)) as Hp.
  assert (Hsq : 0 <= (m1 - m2) * (m1 - m2)) by exact (Rle_0_sqr (m1 - m2)).
  assert (Hprod : 0 <= (m1 - m2) * (m1 - m2) * exp (- v2))
    by (apply Rmult_le_pos; lra).
  split; [lra |]. split.
  - intros Hk.
    assert (Hz : (m1 - m2) * (m1 - m2) * exp (- v2) = 0) by lra.
    assert (Hd : exp (v1 - v2) = 1 + (v1 - v2)) by lra.
    split.
    + apply Rmult_integral in Hz. destruct Hz as [Hz | Hz]; [| lra].
      apply Rmult_integral in Hz. destruct Hz; lra.
    + destruct (Req_dec (v1 - v2) 0) as [E | E]; [lra |].
      pose proof (exp_ineq1 (v1 - v2) E). lra.
  - intros [-> ->]. replace (v2 - v2) with 0 by lra. rewrite exp_0. lra.
Qed.
